(** * Design-pattern demonstrations: a shallow embedding and its properties

    Each module below embeds one of the repository's self-contained
    programs (Decorator, Observer, Strategy, Command, Bridge, Singleton,
    Prototype, Flyweight).  C++ objects reached through pointers live in explicit
    heaps ([gmap] from addresses to objects), [std::string] is [string],
    console output is a list of the strings written to [std::cout]. *)

From stdpp Require Import gmap strings list fin_maps sorting relations pretty.
From Stdlib Require Import Ascii String.

Local Open Scope string_scope.

(** The line terminator written as a backslash-n escape in the sources. *)
Definition nl : string := String (Ascii.ascii_of_nat 10) EmptyString.

(** Heap addresses. [fresh (dom h)] is the address handed out by [new] on
    heap [h]: some address that is not live in [h]; an address freed by
    [delete] may be handed out again. *)
Abbreviation loc := positive (only parsing).

(* ===================================================================== *)
(** ** Decorator (Decorator/Decorator.cpp) *)
(* ===================================================================== *)

Module Decorator.

(** The [Component] hierarchy.  A decorator stores a pointer to the
    component it wraps; the wrapped object is built before its wrapper, so
    the chain is a finite tree and the pointer is modelled by the subterm. *)
Inductive Component : Type :=
  | ConcreteComponent
  | Decorator (component_ : Component)
  | ConcreteDecoratorA (component_ : Component)
  | ConcreteDecoratorB (component_ : Component)
  | ConcreteDecoratorC (component_ : Component).

(** [Operation], with virtual dispatch resolved by the constructor.  The
    concrete decorators call [Decorator::Operation()], which forwards to
    [component_->Operation()]. *)
Fixpoint Operation (this : Component) : string :=
  match this with
  | ConcreteComponent => "ConcreteComponent"
  | Decorator c => Operation c
  | ConcreteDecoratorA c => "ConcreteDecoratorA(" +:+ Operation c +:+ ")"
  | ConcreteDecoratorB c => "ConcreteDecoratorB(" +:+ Operation c +:+ ")"
  | ConcreteDecoratorC c => "ConcreteDecoratorC(" +:+ Operation c +:+ ")"
  end.

(** The three concrete decorator classes, as tags. *)
Inductive Marker : Type := MarkA | MarkB | MarkC.

Definition wrap (m : Marker) (c : Component) : Component :=
  match m with
  | MarkA => ConcreteDecoratorA c
  | MarkB => ConcreteDecoratorB c
  | MarkC => ConcreteDecoratorC c
  end.

(** [stack ms c]: wrap [c] with the decorators [ms], the head of [ms]
    first (innermost), the last element of [ms] outermost. *)
Definition stack (ms : list Marker) (c : Component) : Component :=
  foldl (fun acc m => wrap m acc) c ms.

Definition marker_name (m : Marker) : string :=
  match m with
  | MarkA => "ConcreteDecoratorA"
  | MarkB => "ConcreteDecoratorB"
  | MarkC => "ConcreteDecoratorC"
  end.

(** The opening part of a nested result: every marker followed by an
    opening parenthesis, outermost first. *)
Fixpoint opening (outer_first : list Marker) : string :=
  match outer_first with
  | [] => ""
  | m :: ms => marker_name m +:+ "(" +:+ opening ms
  end.

(** [n] closing parentheses. *)
Fixpoint closing (n : nat) : string :=
  match n with
  | O => ""
  | S k => ")" +:+ closing k
  end.

(** The program of [main]: A around the simple component, B around that,
    C around that. *)
Definition main_decorated : Component :=
  ConcreteDecoratorC (ConcreteDecoratorB (ConcreteDecoratorA ConcreteComponent)).

(** The concrete decorators around the innermost component, the one
    applied first at the head; base [Decorator] wrappers add none. *)
Fixpoint markers_of (c : Component) : list Marker :=
  match c with
  | ConcreteComponent => []
  | Decorator c => markers_of c
  | ConcreteDecoratorA c => (markers_of c ++ [MarkA])%list
  | ConcreteDecoratorB c => (markers_of c ++ [MarkB])%list
  | ConcreteDecoratorC c => (markers_of c ++ [MarkC])%list
  end.

(** [ClientCode(component)]: the text written to [std::cout]. *)
Definition ClientCode (component : Component) : list string :=
  [ "RESULT: " +:+ Operation component ].

(** The nested text for the outer-first markers [os], closed by [k]
    parentheses. *)
Definition nested (os : list Marker) (k : nat) : string :=
  opening os +:+ "ConcreteComponent" +:+ closing k.

End Decorator.

(* ===================================================================== *)
(** ** Observer (Observer/Observer.cpp, first program) *)
(* ===================================================================== *)

Module Observer.

(** An [IObserver*]: the address of the observer object. *)
Abbreviation observer_ptr := loc (only parsing).

(** [std::list<T>::remove(value)]: erases every element that compares
    equal to [value], keeping the others in their order. *)
Fixpoint list_remove (value : observer_ptr) (l : list observer_ptr)
  : list observer_ptr :=
  match l with
  | [] => []
  | x :: l' =>
      if decide (x = value) then list_remove value l'
      else x :: list_remove value l'
  end.

Record Publisher : Type := mkPublisher {
  list_observer_ : list observer_ptr;
  message_ : string;
}.

(** A just constructed publisher: no subscriber, empty message. *)
Definition Publisher_new : Publisher :=
  {| list_observer_ := []; message_ := "" |}.

(** [list_observer_.push_back(observer)] *)
Definition Attach (observer : observer_ptr) (this : Publisher) : Publisher :=
  {| list_observer_ := (list_observer_ this ++ [observer])%list;
     message_ := message_ this |}.

(** [list_observer_.remove(observer)] *)
Definition Detach (observer : observer_ptr) (this : Publisher) : Publisher :=
  {| list_observer_ := list_remove observer (list_observer_ this);
     message_ := message_ this |}.

(** The sequence of [Update] calls [Notify] makes, each with the observer
    it is delivered to and the message passed, when no observer changes
    the list during its [Update] (as [Observer::Update] does not). *)
Definition Notify (this : Publisher) : list (observer_ptr * string) :=
  map (fun o => (o, message_ this)) (list_observer_ this).

Definition CreateMessage (message : string) (this : Publisher)
  : Publisher * list (observer_ptr * string) :=
  let this' := {| list_observer_ := list_observer_ this; message_ := message |} in
  (this', Notify this').

(** What the specification's sentence describes: erase the first element
    equal to [value] only. *)
Fixpoint remove_first_match (value : observer_ptr) (l : list observer_ptr)
  : list observer_ptr :=
  match l with
  | [] => []
  | x :: l' => if decide (x = value) then l' else x :: remove_first_match value l'
  end.

(** Number of entries of the list equal to [o]. *)
Definition occurrences (o : observer_ptr) (l : list observer_ptr) : nat :=
  List.length (filter (fun x => x = o) l).

(** *** The objects of the program

    The double quote character the output lines contain. *)
Definition dq : string := String (Ascii.ascii_of_nat 34) EmptyString.

(** The largest value of [int]; incrementing it is undefined. *)
Definition INT_MAX : Z := 2147483647.

(** An [Observer] object: the publisher it refers to, the last message it
    was given, its number. *)
Record ObserverObject : Type := mkObserverObject {
  publisher_ : loc;
  message_from_publisher_ : string;
  number_ : Z;
}.

(** The live [Publisher] and [Observer] objects, the static counter
    [Observer::num_of_observers_], and the text written to [std::cout]. *)
Record World : Type := mkWorld {
  publishers : gmap loc Publisher;
  observers : gmap loc ObserverObject;
  num_of_observers_ : Z;
  cout : list string;
}.

(** The state before [main]: no object, the counter at 0. *)
Definition World_initial : World :=
  {| publishers := ∅; observers := ∅; num_of_observers_ := 0; cout := [] |}.

Definition print (text : string) (w : World) : World :=
  {| publishers := publishers w; observers := observers w;
     num_of_observers_ := num_of_observers_ w;
     cout := (cout w ++ [text])%list |}.

Definition set_publisher (p : loc) (P : Publisher) (w : World) : World :=
  {| publishers := <[p := P]> (publishers w); observers := observers w;
     num_of_observers_ := num_of_observers_ w; cout := cout w |}.

Definition set_observer (o : loc) (obj : ObserverObject) (w : World) : World :=
  {| publishers := publishers w; observers := <[o := obj]> (observers w);
     num_of_observers_ := num_of_observers_ w; cout := cout w |}.

(** [new Publisher] *)
Definition Publisher_create (w : World) : loc * World :=
  let p := fresh (dom (publishers w)) in
  (p, print ("Publisher: Hi." +:+ nl) (set_publisher p Publisher_new w)).

(** [delete publisher] *)
Definition Publisher_delete (p : loc) (w : World) : option World :=
  _ ← publishers w !! p;
  Some (print ("Publisher: Goodbye." +:+ nl)
          {| publishers := delete p (publishers w); observers := observers w;
             num_of_observers_ := num_of_observers_ w; cout := cout w |}).

(** [new Observer(publisher)]: the constructor attaches the new object,
    increments the static counter, prints, and stores the counter as the
    object's number.  [None]: the publisher is gone, or the counter
    overflows. *)
Definition Observer_create (publisher : loc) (w : World) : option (loc * World) :=
  P ← publishers w !! publisher;
  let this := fresh (dom (observers w)) in
  if decide (num_of_observers_ w = INT_MAX) then None
  else
    let n := (num_of_observers_ w + 1)%Z in
    Some (this,
          {| publishers := <[publisher := Attach this P]> (publishers w);
             observers := <[this := {| publisher_ := publisher;
                                       message_from_publisher_ := "";
                                       number_ := n |}]> (observers w);
             num_of_observers_ := n;
             cout := (cout w ++ ["Observer " +:+ dq +:+ pretty n +:+ dq
                                 +:+ " has been added to the list." +:+ nl])%list |}).

(** [delete observer]: the destructor prints and does not detach. *)
Definition Observer_delete (this : loc) (w : World) : option World :=
  obj ← observers w !! this;
  Some (print ("Observer " +:+ dq +:+ pretty (number_ obj) +:+ dq +:+ ": Goodbye." +:+ nl)
          {| publishers := publishers w; observers := delete this (observers w);
             num_of_observers_ := num_of_observers_ w; cout := cout w |}).

(** [this->Update(message)], with the [PrintInfo] it ends with. *)
Definition Observer_Update (this : loc) (message : string) (w : World) : option World :=
  obj ← observers w !! this;
  Some (print ("Observer " +:+ dq +:+ pretty (number_ obj) +:+ dq
               +:+ ": a new message is available --> " +:+ message +:+ nl)
          (set_observer this {| publisher_ := publisher_ obj;
                                message_from_publisher_ := message;
                                number_ := number_ obj |} w)).

(** [this->RemoveMeFromTheList()] *)
Definition Observer_RemoveMeFromTheList (this : loc) (w : World) : option World :=
  obj ← observers w !! this;
  P ← publishers w !! publisher_ obj;
  Some (print ("Observer " +:+ dq +:+ pretty (number_ obj) +:+ dq
               +:+ " has been removed from the list." +:+ nl)
          (set_publisher (publisher_ obj) (Detach this P) w)).

(** The loop of [Notify]: [Update] on every entry of the list in turn.
    [Update] changes neither the list nor the message, so the entries met
    are those of the list when the loop starts. *)
Fixpoint update_all (subscribers : list loc) (message : string) (w : World)
  : option World :=
  match subscribers with
  | [] => Some w
  | o :: rest => w' ← Observer_Update o message w; update_all rest message w'
  end.

(** [publisher->Notify()], with the [HowManyObservers] it starts with. *)
Definition Publisher_Notify (p : loc) (w : World) : option World :=
  P ← publishers w !! p;
  update_all (list_observer_ P) (message_ P)
    (print ("There are " +:+ pretty (List.length (list_observer_ P))
            +:+ " observers in the list." +:+ nl) w).

(** [publisher->CreateMessage(message)] *)
Definition Publisher_CreateMessage (p : loc) (message : string) (w : World)
  : option World :=
  P ← publishers w !! p;
  Publisher_Notify p
    (set_publisher p {| list_observer_ := list_observer_ P; message_ := message |} w).

(** [publisher->SomeBusinessLogic()] *)
Definition Publisher_SomeBusinessLogic (p : loc) (w : World) : option World :=
  w' ← Publisher_CreateMessage p "change message message" w;
  Some (print ("I'm about to do something important" +:+ nl) w').

(** [ClientCode] *)
Definition ClientCode (w : World) : option World :=
  let '(publisher, w) := Publisher_create w in
  '(observer1, w) ← Observer_create publisher w;
  '(observer2, w) ← Observer_create publisher w;
  '(observer3, w) ← Observer_create publisher w;
  w ← Publisher_CreateMessage publisher "Hello World! :D" w;
  w ← Observer_RemoveMeFromTheList observer3 w;
  w ← Publisher_CreateMessage publisher "The weather is hot today! :p" w;
  '(observer4, w) ← Observer_create publisher w;
  w ← Observer_RemoveMeFromTheList observer2 w;
  '(observer5, w) ← Observer_create publisher w;
  w ← Publisher_CreateMessage publisher "My new car is great! ;)" w;
  w ← Observer_RemoveMeFromTheList observer5 w;
  w ← Observer_RemoveMeFromTheList observer4 w;
  w ← Observer_RemoveMeFromTheList observer1 w;
  w ← Observer_delete observer5 w;
  w ← Observer_delete observer4 w;
  w ← Observer_delete observer3 w;
  w ← Observer_delete observer2 w;
  w ← Observer_delete observer1 w;
  Publisher_delete publisher w.

(** What client code can do to a world. *)
Inductive action : Type :=
  | create_publisher
  | delete_publisher (p : loc)
  | create_observer (publisher : loc)
  | delete_observer (o : loc)
  | remove_me (o : loc)
  | create_message (p : loc) (message : string)
  | some_business_logic (p : loc).

Definition run_action (a : action) (w : World) : option World :=
  match a with
  | create_publisher => Some (snd (Publisher_create w))
  | delete_publisher p => Publisher_delete p w
  | create_observer publisher => snd <$> Observer_create publisher w
  | delete_observer o => Observer_delete o w
  | remove_me o => Observer_RemoveMeFromTheList o w
  | create_message p message => Publisher_CreateMessage p message w
  | some_business_logic p => Publisher_SomeBusinessLogic p w
  end.

Fixpoint run_actions (actions : list action) (w : World) : option World :=
  match actions with
  | [] => Some w
  | a :: rest => w' ← run_action a w; run_actions rest w'
  end.

(** The numbers handed out so far are 1 up to the counter, and no two
    live observers have the same number. *)
Record numbered (w : World) : Prop := mkNumbered {
  numbered_counter : (0 <= num_of_observers_ w <= INT_MAX)%Z;
  numbered_range : forall o obj, observers w !! o = Some obj ->
      (1 <= number_ obj <= num_of_observers_ w)%Z;
  numbered_unique : forall o1 o2 obj1 obj2,
      observers w !! o1 = Some obj1 -> observers w !! o2 = Some obj2 ->
      number_ obj1 = number_ obj2 -> o1 = o2;
}.

(** The line [Update] prints for an observer. *)
Definition update_line (obj : ObserverObject) (message : string) : string :=
  "Observer " +:+ dq +:+ pretty (number_ obj) +:+ dq
  +:+ ": a new message is available --> " +:+ message +:+ nl.

(** The lines the loop of [Notify] prints for the subscribers [l]. *)
Definition notify_lines (w : World) (l : list loc) (message : string) : list string :=
  omap (fun o => (fun obj => update_line obj message) <$> observers w !! o) l.

Definition with_message (message : string) (obj : ObserverObject) : ObserverObject :=
  {| publisher_ := publisher_ obj;
     message_from_publisher_ := message;
     number_ := number_ obj |}.

(** The first steps of [ClientCode], as actions: a publisher and three
    observers on it (the allocator gives them the addresses 1, 1, 2, 3). *)
Definition three_subscribers_actions : list action :=
  [ create_publisher; create_observer 1; create_observer 1; create_observer 1 ].

Definition three_subscribers : World :=
  default World_initial (run_actions three_subscribers_actions World_initial).

(** [ClientCode] up to its third message, as actions. *)
Definition client_actions : list action :=
  three_subscribers_actions
  ++ [ create_message 1 "Hello World! :D";
       remove_me 3;
       create_message 1 "The weather is hot today! :p";
       create_observer 1;
       remove_me 2;
       create_observer 1;
       create_message 1 "My new car is great! ;)" ].

End Observer.

(* ===================================================================== *)
(** ** Strategy (Observer/Observer.cpp, second program) *)
(* ===================================================================== *)

Module Strategy.

(** The [Strategy] interface: one virtual method. *)
Record Strategy : Type := mkStrategy {
  doAlgorithm : string -> string;
}.

(** What a call of [doSomeBusinessLogic] does, in order: text written to
    [std::cout], and calls made through the strategy pointer. *)
Inductive event : Type :=
  | Cout (text : string)
  | Call_doAlgorithm (data : string).

(** [strategy_] is a [std::unique_ptr<Strategy>]: [None] is the empty
    pointer. *)
Record Context : Type := mkContext {
  strategy_ : option Strategy;
}.

(** The constructor; its argument defaults to the empty pointer. *)
Definition Context_new (strategy : option Strategy) : Context :=
  {| strategy_ := strategy |}.

Definition Context_default : Context := Context_new None.

Definition set_strategy (strategy : option Strategy) (this : Context) : Context :=
  {| strategy_ := strategy |}.

Definition doSomeBusinessLogic (text_to_sort : string) (this : Context)
  : list event :=
  match strategy_ this with
  | Some s =>
      [ Cout ("Context: Sorting data using the strategy (not sure how it will do it)" +:+ nl);
        Call_doAlgorithm text_to_sort;
        Cout (doAlgorithm s text_to_sort);
        Cout nl ]
  | None =>
      [ Cout ("Context: Strategy isn't set" +:+ nl) ]
  end.

Definition is_call (e : event) : bool :=
  match e with
  | Call_doAlgorithm _ => true
  | Cout _ => false
  end.

Section Char.

(** Whether plain [char] is signed is left to the implementation; the
    development holds for both choices. *)
Variable char_is_signed : bool.

(** The value of a [char] as the comparisons see it. *)
Definition char_value (c : ascii) : Z :=
  let n := Z.of_N (N_of_ascii c) in
  if char_is_signed && (128 <=? n)%Z then (n - 256)%Z else n.

(** [std::less<>] and [std::greater<>] on [char]. *)
Definition less (a b : ascii) : bool := (char_value a <? char_value b)%Z.
Definition greater (a b : ascii) : bool := (char_value b <? char_value a)%Z.

(** [std::sort(first, last, comp)] is the standard library's: it permutes
    the range so that no element is ordered by [comp] before one that
    precedes it.  It is modelled by a merge sort on the relation
    [not_after comp]: "[comp b a] is false". *)
Definition not_after (comp : ascii -> ascii -> bool) : relation ascii :=
  fun a b => comp b a = false.

#[global] Instance not_after_dec (comp : ascii -> ascii -> bool) :
  RelDecision (not_after comp).
Proof. intros a b. unfold not_after. apply _. Defined.

Definition std_sort (comp : ascii -> ascii -> bool) (l : list ascii) : list ascii :=
  merge_sort (not_after comp) l.

Definition ConcreteStrategyA : Strategy :=
  {| doAlgorithm := fun data =>
       string_of_list_ascii (std_sort less (list_ascii_of_string data)) |}.

Definition ConcreteStrategyB : Strategy :=
  {| doAlgorithm := fun data =>
       string_of_list_ascii (std_sort greater (list_ascii_of_string data)) |}.

(** Ascending and descending order of characters. *)
Definition char_le (a b : ascii) : Prop := (char_value a <= char_value b)%Z.
Definition char_ge (a b : ascii) : Prop := (char_value b <= char_value a)%Z.

End Char.

End Strategy.

(* ===================================================================== *)
(** ** Command (Command/Command.cpp, first program) *)
(* ===================================================================== *)

Module Command.

(** [Receiver] has no data member; its methods only print. *)
Definition DoSomething (a : string) : list string :=
  [ "Receiver: Working on (" +:+ a +:+ ".)" +:+ nl ].

Definition DoSomethingElse (b : string) : list string :=
  [ "Receiver: Also working on (" +:+ b +:+ ".)" +:+ nl ].

Inductive Command : Type :=
  | SimpleCommand (pay_load_ : string)
  | ComplexCommand (receiver_ : loc) (a_ b_ : string).

(** [Execute]: the text written to [std::cout]. *)
Definition Execute (this : Command) : list string :=
  match this with
  | SimpleCommand pay_load =>
      [ "SimpleCommand: See, I can do simple things like printing ("
          +:+ pay_load +:+ ")" +:+ nl ]
  | ComplexCommand _ a b =>
      ([ "ComplexCommand: Complex stuff should be done by a receiver object." +:+ nl ]
       ++ DoSomething a ++ DoSomethingElse b)%list
  end.

(** The value held by a data member of type [Command*]: a member that no
    constructor or setter has written holds an indeterminate value. *)
Inductive member_ptr : Type :=
  | indeterminate
  | null
  | points_to (c : Command).

Record Invoker : Type := mkInvoker {
  on_start_ : member_ptr;
  on_finish_ : member_ptr;
}.

(** [new Invoker], as [main] writes it.  The class declares no constructor
    and no default member initializer, so default-initialization leaves
    both pointers indeterminate. *)
Definition Invoker_new : Invoker :=
  {| on_start_ := indeterminate; on_finish_ := indeterminate |}.

(** A [Command*] argument: null or the address of a command. *)
Definition arg_ptr (command : option Command) : member_ptr :=
  match command with
  | Some c => points_to c
  | None => null
  end.

Definition SetOnStart (command : option Command) (this : Invoker) : Invoker :=
  {| on_start_ := arg_ptr command; on_finish_ := on_finish_ this |}.

Definition SetOnFinish (command : option Command) (this : Invoker) : Invoker :=
  {| on_start_ := on_start_ this; on_finish_ := arg_ptr command |}.

(** [if (p) p->Execute();] for a member [p].  Evaluating an indeterminate
    pointer is undefined behaviour: no result ([None]). *)
Definition execute_if_set (p : member_ptr) : option (list string) :=
  match p with
  | indeterminate => None
  | null => Some []
  | points_to c => Some (Execute c)
  end.

(** [DoSomethingImportant]: the text written, or [None] when the call has
    undefined behaviour. *)
Definition DoSomethingImportant (this : Invoker) : option (list string) :=
  before ← execute_if_set (on_start_ this);
  after ← execute_if_set (on_finish_ this);
  Some ([ "Invoker: Does anybody want something done before I begin?" +:+ nl ]
        ++ before
        ++ [ "Invoker: ...doing something really important..." +:+ nl;
             "Invoker: Does anybody want something done after I finish?" +:+ nl ]
        ++ after)%list.

End Command.

(* ===================================================================== *)
(** ** Bridge (Command/Command.cpp, second program) *)
(* ===================================================================== *)

Module Bridge.

(** The [Implementation] interface: one method, without argument and
    [const]; an implementation is given by what the method returns. *)
Record Implementation : Type := mkImplementation {
  OperationImplementation : string;
}.

Definition ConcreteImplementationA : Implementation :=
  {| OperationImplementation :=
       "ConcreteImplementationA: Here's the result on the platform A." +:+ nl |}.

Definition ConcreteImplementationB : Implementation :=
  {| OperationImplementation :=
       "ConcreteImplementationB: Here's the result on the platform B." +:+ nl |}.

(** An object of class [Abstraction] or of its subclass, with the
    implementation it points to. *)
Inductive Abstraction : Type :=
  | Abstraction_base (implementation_ : Implementation)
  | ExtendedAbstraction (implementation_ : Implementation).

Definition implementation_of (this : Abstraction) : Implementation :=
  match this with
  | Abstraction_base i | ExtendedAbstraction i => i
  end.

Definition Operation (this : Abstraction) : string :=
  match this with
  | Abstraction_base i =>
      "Abstraction: Base operation with:" +:+ nl +:+ OperationImplementation i
  | ExtendedAbstraction i =>
      "ExtendedAbstraction: Extended operation with:" +:+ nl +:+ OperationImplementation i
  end.

(** [ClientCode(abstraction)] *)
Definition ClientCode (abstraction : Abstraction) : list string :=
  [ Operation abstraction ].

(** Whether two objects are of the same class. *)
Definition same_class (a b : Abstraction) : bool :=
  match a, b with
  | Abstraction_base _, Abstraction_base _ => true
  | ExtendedAbstraction _, ExtendedAbstraction _ => true
  | _, _ => false
  end.

End Bridge.

(* ===================================================================== *)
(** ** Prototype (Prototype/Prototype.cpp) *)
(* ===================================================================== *)

Module Prototype.

Section Float.

(** The values of the C++ type [float]; only copied and stored here. *)
Variable float : Type.
(** How [operator<<] prints a [float]. *)
Variable show_float : float -> string.

(** The data members of the base class [Prototype]. *)
Record PrototypeBase : Type := mkPrototypeBase {
  prototype_name_ : string;
  prototype_field_ : float;
}.

(** An object of one of the two concrete classes. *)
Inductive Object : Type :=
  | ConcretePrototype1 (base : PrototypeBase) (concrete_prototype_field1_ : float)
  | ConcretePrototype2 (base : PrototypeBase) (concrete_prototype_field2_ : float).

Definition base_of (o : Object) : PrototypeBase :=
  match o with
  | ConcretePrototype1 b _ | ConcretePrototype2 b _ => b
  end.

Definition concrete_field (o : Object) : float :=
  match o with
  | ConcretePrototype1 _ f | ConcretePrototype2 _ f => f
  end.

(** The implicit copy constructors copy member by member; the members are
    a [std::string] and [float]s, copied by value. *)
Definition copy_base (other : PrototypeBase) : PrototypeBase :=
  {| prototype_name_ := prototype_name_ other;
     prototype_field_ := prototype_field_ other |}.

(** [new T(args)] on heap [h]. *)
Definition new (o : Object) (h : gmap loc Object) : loc * gmap loc Object :=
  let p := fresh (dom h) in (p, <[p := o]> h).

(** [this->Clone()]: each class allocates a copy of its own class.
    [None]: [this] is not the address of a live object. *)
Definition Clone (this : loc) (h : gmap loc Object)
  : option (loc * gmap loc Object) :=
  match h !! this with
  | Some (ConcretePrototype1 b f) => Some (new (ConcretePrototype1 (copy_base b) f) h)
  | Some (ConcretePrototype2 b f) => Some (new (ConcretePrototype2 (copy_base b) f) h)
  | None => None
  end.

Definition set_prototype_field (x : float) (o : Object) : Object :=
  match o with
  | ConcretePrototype1 b f =>
      ConcretePrototype1
        {| prototype_name_ := prototype_name_ b; prototype_field_ := x |} f
  | ConcretePrototype2 b f =>
      ConcretePrototype2
        {| prototype_name_ := prototype_name_ b; prototype_field_ := x |} f
  end.

(** [this->Method(prototype_field)]: the new heap and the line printed. *)
Definition Method (this : loc) (prototype_field : float) (h : gmap loc Object)
  : option (gmap loc Object * string) :=
  match h !! this with
  | Some o =>
      Some (<[this := set_prototype_field prototype_field o]> h,
            "Call Method from " +:+ prototype_name_ (base_of o)
              +:+ " with field : " +:+ show_float prototype_field +:+ nl)
  | None => None
  end.

End Float.

Arguments mkPrototypeBase {float}.
Arguments prototype_name_ {float}.
Arguments prototype_field_ {float}.
Arguments ConcretePrototype1 {float}.
Arguments ConcretePrototype2 {float}.
Arguments base_of {float}.
Arguments concrete_field {float}.
Arguments Clone {float}.
Arguments Method {float}.
Arguments set_prototype_field {float}.

(** The first prototype of [PrototypeFactory], with [float] values written
    as integers: name "PROTOTYPE_1 ", base field 0, own field 50. *)
Definition prototype_1 : Object Z :=
  ConcretePrototype1 {| prototype_name_ := "PROTOTYPE_1 "; prototype_field_ := 0%Z |} 50%Z.

(** The enumeration [Type]. *)
Inductive Type_ : Type := PROTOTYPE_1 | PROTOTYPE_2.

(** The value of an enumerator, which the map hashes as an [int]. *)
Definition Type_to_int (type : Type_) : Z :=
  match type with
  | PROTOTYPE_1 => 0
  | PROTOTYPE_2 => 1
  end.

(** [prototypes_]: from enumerator values to [Prototype*] ([None] is the
    null pointer). *)
Record PrototypeFactory : Type := mkPrototypeFactory {
  prototypes_ : gmap Z (option loc);
}.

Section Factory.

Context {float : Type}.
Variable show_float : float -> string.
(** The [float] of an integer value, for the literals of the program and
    the [int] arguments it passes where a [float] is expected. *)
Variable float_of_int : Z -> float.

(** [prototypes_[type]]: the pointer stored for the key; a missing key is
    inserted with a null pointer. *)
Definition index (type : Type_) (this : PrototypeFactory)
  : option loc * PrototypeFactory :=
  match prototypes_ this !! Type_to_int type with
  | Some pointer => (pointer, this)
  | None => (None, {| prototypes_ := <[Type_to_int type := None]> (prototypes_ this) |})
  end.

(** [delete pointer]: nothing for a null pointer; [None] for a pointer
    to no live object. *)
Definition delete_ptr (pointer : option loc) (h : gmap loc (Object float))
  : option (gmap loc (Object float)) :=
  match pointer with
  | None => Some h
  | Some p => match h !! p with
              | Some _ => Some (delete p h)
              | None => None
              end
  end.

(** The constructor. *)
Definition PrototypeFactory_new (h : gmap loc (Object float))
  : PrototypeFactory * gmap loc (Object float) :=
  let '(p1, h1) :=
    new float (ConcretePrototype1
                 {| prototype_name_ := "PROTOTYPE_1 "; prototype_field_ := float_of_int 0 |}
                 (float_of_int 50)) h in
  let '(p2, h2) :=
    new float (ConcretePrototype2
                 {| prototype_name_ := "PROTOTYPE_2 "; prototype_field_ := float_of_int 0 |}
                 (float_of_int 60)) h1 in
  ({| prototypes_ := <[Type_to_int PROTOTYPE_2 := Some p2]>
                       (<[Type_to_int PROTOTYPE_1 := Some p1]> ∅) |}, h2).

(** The destructor. *)
Definition PrototypeFactory_destroy (this : PrototypeFactory)
    (h : gmap loc (Object float)) : option (gmap loc (Object float)) :=
  let '(p1, this1) := index PROTOTYPE_1 this in
  h1 ← delete_ptr p1 h;
  let '(p2, _) := index PROTOTYPE_2 this1 in
  delete_ptr p2 h1.

(** [CreatePrototype(type)]: the clone's address, the factory and the heap
    afterwards; [None] when the pointer stored for the type is null or
    dangling. *)
Definition CreatePrototype (type : Type_) (this : PrototypeFactory)
    (h : gmap loc (Object float))
  : option (loc * PrototypeFactory * gmap loc (Object float)) :=
  let '(pointer, this') := index type this in
  p ← pointer;
  '(q, h') ← Clone p h;
  Some (q, this', h').

(** [Client(prototype_factory)]: the factory and heap afterwards and the
    text written. *)
Definition Client (prototype_factory : PrototypeFactory) (h : gmap loc (Object float))
  : option (PrototypeFactory * gmap loc (Object float) * list string) :=
  '(prototype, factory, h) ← CreatePrototype PROTOTYPE_1 prototype_factory h;
  '(h, line1) ← Method show_float prototype (float_of_int 90) h;
  h ← delete_ptr (Some prototype) h;
  '(prototype, factory, h) ← CreatePrototype PROTOTYPE_2 factory h;
  '(h, line2) ← Method show_float prototype (float_of_int 10) h;
  h ← delete_ptr (Some prototype) h;
  Some (factory, h,
        [ "Let's create Prototype 1" +:+ nl; line1; nl;
          "Let's create Prototype 2" +:+ nl; line2 ]).

(** [main]: the heap at the end and the text written. *)
Definition main : option (gmap loc (Object float) * list string) :=
  let '(prototype_factory, h) := PrototypeFactory_new ∅ in
  '(factory, h, out) ← Client prototype_factory h;
  h ← PrototypeFactory_destroy factory h;
  Some (h, out).

End Factory.

End Prototype.

(* ===================================================================== *)
(** ** Singleton (thread-safe Singleton program) *)
(* ===================================================================== *)

Module Singleton.

Record Singleton : Type := mkSingleton {
  m_value : string;
}.

(** The static data members, the owner of [m_mutex] when it is locked, and
    the [Singleton] objects created by [new].  The destructor is protected
    and the program never deletes an instance, so objects only get added. *)
Record Statics : Type := mkStatics {
  m_instance_ptr : option loc;
  m_mutex : option nat;
  heap : gmap loc Singleton;
}.

(** The state after static initialization: a null pointer, a free mutex. *)
Definition initial : Statics :=
  {| m_instance_ptr := None; m_mutex := None; heap := ∅ |}.

(** [m_instance_ptr = new Singleton(value)] *)
Definition create (value : string) (s : Statics) : Statics :=
  let p := fresh (dom (heap s)) in
  {| m_instance_ptr := Some p;
     m_mutex := m_mutex s;
     heap := <[p := {| m_value := value |}]> (heap s) |}.

(** [GetInstance(value)] run from start to end with no other thread in
    between: the returned pointer and the new state.  [None]: the mutex is
    held and the call cannot get past its first line. *)
Definition GetInstance (value : string) (s : Statics)
  : option (option loc * Statics) :=
  match m_mutex s with
  | Some _ => None
  | None =>
      let s' := match m_instance_ptr s with
                | None => create value s
                | Some _ => s
                end in
      Some (m_instance_ptr s', s')
  end.

(** [this->Value()] *)
Definition Value (this : loc) (s : Statics) : option string :=
  m_value <$> heap s !! this.

(** [this->SomeBusinessLogic()]: an empty body. *)
Definition SomeBusinessLogic (this : loc) (s : Statics) : Statics := s.

(** The public operations a client can apply. *)
Inductive operation : Type :=
  | call_GetInstance (value : string)
  | call_Value (this : loc)
  | call_SomeBusinessLogic (this : loc).

Definition apply_operation (o : operation) (s : Statics) : option Statics :=
  match o with
  | call_GetInstance value => snd <$> GetInstance value s
  | call_Value _ => Some s
  | call_SomeBusinessLogic this => Some (SomeBusinessLogic this s)
  end.

Fixpoint apply_operations (os : list operation) (s : Statics) : option Statics :=
  match os with
  | [] => Some s
  | o :: os' => s' ← apply_operation o s; apply_operations os' s'
  end.

(** A sequence of [GetInstance] calls, one after the other: the pointers
    returned, in order, and the final state. *)
Fixpoint GetInstance_calls (values : list string) (s : Statics)
  : option (list (option loc) * Statics) :=
  match values with
  | [] => Some ([], s)
  | value :: values' =>
      '(r, s') ← GetInstance value s;
      '(rs, s'') ← GetInstance_calls values' s';
      Some (r :: rs, s'')
  end.

(** *** Threads

    A thread inside [GetInstance(value)] is at one of these points; the
    data of a point are the thread's locals that are still needed. *)
Inductive pc : Type :=
  | at_lock (value : string)        (* about to construct the lock_guard *)
  | at_check (value : string)       (* about to test m_instance_ptr == nullptr *)
  | at_new (value : string)         (* about to run m_instance_ptr = new Singleton(value) *)
  | at_return                       (* about to read m_instance_ptr for the return value *)
  | at_unlock (result : option loc) (* about to destroy the lock_guard *)
  | returned (result : option loc). (* back in the caller *)

(** One atomic step of thread [t].  [None]: the thread cannot move (it
    waits for the mutex, or its call is over). *)
Definition step (t : nat) (p : pc) (s : Statics) : option (pc * Statics) :=
  match p with
  | at_lock value =>
      match m_mutex s with
      | None => Some (at_check value,
                      {| m_instance_ptr := m_instance_ptr s;
                         m_mutex := Some t;
                         heap := heap s |})
      | Some _ => None
      end
  | at_check value =>
      match m_instance_ptr s with
      | None => Some (at_new value, s)
      | Some _ => Some (at_return, s)
      end
  | at_new value => Some (at_return, create value s)
  | at_return => Some (at_unlock (m_instance_ptr s), s)
  | at_unlock result =>
      Some (returned result,
            {| m_instance_ptr := m_instance_ptr s;
               m_mutex := None;
               heap := heap s |})
  | returned _ => None
  end.

Record World : Type := mkWorld {
  statics : Statics;
  threads : list pc;
}.

(** Thread [i] calls [GetInstance] with the [i]-th value; nothing has run
    yet. *)
Definition start (values : list string) : World :=
  {| statics := initial; threads := at_lock <$> values |}.

(** The scheduler picks thread [t]; a thread that cannot move is left
    where it is. *)
Definition run_thread (t : nat) (w : World) : World :=
  match threads w !! t with
  | Some p =>
      match step t p (statics w) with
      | Some (p', s') => {| statics := s'; threads := <[t := p']> (threads w) |}
      | None => w
      end
  | None => w
  end.

(** An interleaving is the list of the scheduler's picks. *)
Definition run_schedule (schedule : list nat) (w : World) : World :=
  foldl (fun acc t => run_thread t acc) w schedule.

(** The interleaving relation: some thread makes one step. *)
Inductive interleave : World -> World -> Prop :=
  | interleave_step (t : nat) (p p' : pc) (s' : Statics) (w : World) :
      threads w !! t = Some p ->
      step t p (statics w) = Some (p', s') ->
      interleave w {| statics := s'; threads := <[t := p']> (threads w) |}.

(** Between taking and releasing the mutex. *)
Definition in_critical_section (p : pc) : bool :=
  match p with
  | at_check _ | at_new _ | at_return | at_unlock _ => true
  | at_lock _ | returned _ => false
  end.

Definition is_returned (p : pc) : bool :=
  match p with
  | returned _ => true
  | _ => false
  end.

(** How many [Singleton] objects have been constructed. *)
Definition constructed (s : Statics) : nat := size (heap s).

(** What holds of every world an interleaving reaches: only the owner
    of the mutex is between lock and unlock, and the mutex is held by a
    thread that is; the heap holds no object while the pointer is null and
    exactly the pointed-to object afterwards; a thread about to create has
    seen a null pointer that is still null; a thread past the creation
    sees the pointer set, and the value it returns is that pointer. *)
Record invariant (w : World) : Prop := mkInvariant {
  inv_owner : forall i p, threads w !! i = Some p ->
      in_critical_section p = true -> m_mutex (statics w) = Some i;
  inv_held : forall i, m_mutex (statics w) = Some i ->
      exists p, threads w !! i = Some p /\ in_critical_section p = true;
  inv_null : m_instance_ptr (statics w) = None -> heap (statics w) = ∅;
  inv_set : forall l, m_instance_ptr (statics w) = Some l ->
      exists obj, heap (statics w) = {[ l := obj ]};
  inv_new : forall i value, threads w !! i = Some (at_new value) ->
      m_instance_ptr (statics w) = None;
  inv_return : forall i, threads w !! i = Some at_return ->
      is_Some (m_instance_ptr (statics w));
  inv_unlock : forall i r, threads w !! i = Some (at_unlock r) ->
      r = m_instance_ptr (statics w) /\ is_Some r;
  inv_returned : forall i r, threads w !! i = Some (returned r) ->
      r = m_instance_ptr (statics w) /\ is_Some r;
}.

(** The number of steps a thread still has to make, at most. *)
Definition remaining (p : pc) : nat :=
  match p with
  | at_lock _ => 5
  | at_check _ => 4
  | at_new _ => 3
  | at_return => 2
  | at_unlock _ => 1
  | returned _ => 0
  end.

Definition work_left (w : World) : nat := sum_list (remaining <$> threads w).

(** Thread [t], called with [v], has the mutex and no instance exists
    yet, or the instance exists and holds [v]. *)
Definition winner (t : nat) (v : string) (w : World) : Prop :=
  (m_instance_ptr (statics w) = None
   /\ (threads w !! t = Some (at_check v) \/ threads w !! t = Some (at_new v)))
  \/ (exists l, m_instance_ptr (statics w) = Some l
                /\ heap (statics w) = {[ l := {| m_value := v |} ]}).

(** The value held by the instance, once there is one. *)
Definition instance_value (s : Statics) : option string :=
  l ← m_instance_ptr s; Value l s.

(** *** The program

    [ThreadFoo] and [ThreadBar] differ by the argument they pass.  A
    thread running one of them is asleep, inside [GetInstance], about to
    print the value of the instance it got, about to print the newline,
    or done.  The local variable [singleton] is kept to the end. *)
Inductive thread_pc : Type :=
  | asleep (value : string)
  | calling (p : pc)
  | print_value (singleton : option loc)
  | print_newline (singleton : option loc)
  | finished (singleton : option loc).

(** One atomic step of thread [t]: the new point, the statics and the
    output.  [None]: the thread cannot move, or its step is undefined (a
    null or dangling [singleton]). *)
Definition thread_step (t : nat) (tp : thread_pc) (s : Statics) (out : list string)
  : option (thread_pc * Statics * list string) :=
  match tp with
  | asleep value => Some (calling (at_lock value), s, out)
  | calling (returned result) => Some (print_value result, s, out)
  | calling p => '(p', s') ← step t p s; Some (calling p', s', out)
  | print_value singleton =>
      this ← singleton;
      value ← Value this s;
      Some (print_newline singleton, s, (out ++ [value])%list)
  | print_newline singleton => Some (finished singleton, s, (out ++ [nl])%list)
  | finished _ => None
  end.

Record Program : Type := mkProgram {
  program_statics : Statics;
  running : list thread_pc;
  cout : list string;
}.

(** What [main] prints before it starts the threads. *)
Definition header : string :=
  "If you see the same value, then singleton was reused (yay!" +:+ nl
  +:+ "If you see different values, then 2 singletons were created (booo!!)" +:+ nl +:+ nl
  +:+ "RESULT:" +:+ nl.

(** [main] after it has printed the header and started one thread per
    argument. *)
Definition program_start (values : list string) : Program :=
  {| program_statics := initial; running := asleep <$> values; cout := [header] |}.

(** The arguments of [ThreadFoo] and [ThreadBar]. *)
Definition main_values : list string := [ "FOO" +:+ nl; "BAR" +:+ nl ].

Definition run_program_thread (t : nat) (w : Program) : Program :=
  match running w !! t with
  | Some tp =>
      match thread_step t tp (program_statics w) (cout w) with
      | Some (tp', s', out') =>
          {| program_statics := s'; running := <[t := tp']> (running w); cout := out' |}
      | None => w
      end
  | None => w
  end.

Definition run_program (schedule : list nat) (w : Program) : Program :=
  foldl (fun acc t => run_program_thread t acc) w schedule.

(** Where a thread of the program is with respect to [GetInstance]. *)
Definition project (tp : thread_pc) : pc :=
  match tp with
  | asleep value => at_lock value
  | calling p => p
  | print_value r | print_newline r | finished r => returned r
  end.

Definition project_program (w : Program) : World :=
  {| statics := program_statics w; threads := project <$> running w |}.

Definition is_finished (tp : thread_pc) : bool :=
  match tp with
  | finished _ => true
  | _ => false
  end.

(** What a thread has printed when it is at [tp] and the instance holds
    [v]. *)
Definition printed (v : string) (tp : thread_pc) : list string :=
  match tp with
  | print_newline _ => [v]
  | finished _ => [v; nl]
  | _ => []
  end.

(** The number of steps a thread of the program still has to make, at
    most. *)
Definition program_remaining (tp : thread_pc) : nat :=
  match tp with
  | asleep _ => 9
  | calling p => 3 + remaining p
  | print_value _ => 2
  | print_newline _ => 1
  | finished _ => 0
  end.

(** The argument a thread still has to pass on. *)
Definition argument_of (p : pc) : option string :=
  match p with
  | at_lock v | at_check v | at_new v => Some v
  | _ => None
  end.

(** What holds in every state of the program an interleaving reaches. *)
Record program_inv (values : list string) (w : Program) : Prop := mkProgramInv {
  pinv_world : invariant (project_program w);
  pinv_argument : forall i tp v,
      running w !! i = Some tp -> argument_of (project tp) = Some v -> v ∈ values;
  pinv_value : forall v, instance_value (program_statics w) = Some v -> v ∈ values;
  pinv_output : exists pieces,
      cout w = header :: pieces
      /\ pieces ≡ₚ List.concat (printed (default "" (instance_value (program_statics w)))
                            <$> running w);
}.

End Singleton.

(* ===================================================================== *)
(** ** Flyweight (Flyweight/Flyweight.cpp) *)
(* ===================================================================== *)

Module Flyweight.

(** Intrinsic state. *)
Record SharedState : Type := mkSharedState {
  brand_ : string;
  model_ : string;
  color_ : string;
}.

(** Extrinsic state. *)
Record UniqueState : Type := mkUniqueState {
  owner_ : string;
  plates_ : string;
}.

(** A [Flyweight] object: its one data member, the address of a
    [SharedState] that the object owns. *)
Record Flyweight : Type := mkFlyweight {
  shared_state_ : loc;
}.

(** The free store holding the [SharedState] objects, and the text written
    to [std::cout] so far. *)
Record Memory : Type := mkMemory {
  heap : gmap loc SharedState;
  cout : list string;
}.

(** Computations on the memory that can go wrong (a dangling pointer is
    read or deleted). *)
Definition M (A : Type) : Type := Memory -> option (A * Memory).

Definition ret {A : Type} (x : A) : M A := fun m => Some (x, m).

Definition bind {A B : Type} (c : M A) (k : A -> M B) : M B :=
  fun m => match c m with
           | Some (x, m') => k x m'
           | None => None
           end.

#[global] Instance M_ret : MRet M := @ret.
#[global] Instance M_bind : MBind M := fun A B k c => bind c k.

(** [new SharedState(ss)] *)
Definition new_SharedState (ss : SharedState) : M loc :=
  fun m =>
    let p := fresh (dom (heap m)) in
    Some (p, {| heap := <[p := ss]> (heap m); cout := cout m |}).

(** [*p] *)
Definition load (p : loc) : M SharedState :=
  fun m => match heap m !! p with
           | Some ss => Some (ss, m)
           | None => None
           end.

(** [delete p] *)
Definition delete_SharedState (p : loc) : M unit :=
  fun m => match heap m !! p with
           | Some _ => Some (tt, {| heap := delete p (heap m); cout := cout m |})
           | None => None
           end.

(** [std::cout << text] *)
Definition print (text : string) : M unit :=
  fun m => Some (tt, {| heap := heap m; cout := (cout m ++ [text])%list |}).

(** [Flyweight(const SharedState* shared_state)], called on the address of
    an object of the caller: allocates a copy of it. *)
Definition Flyweight_new (shared_state : SharedState) : M Flyweight :=
  p ← new_SharedState shared_state;
  ret {| shared_state_ := p |}.

(** The copy constructor [Flyweight(const Flyweight& other)]: allocates a
    copy of the other object's shared state. *)
Definition Flyweight_copy (other : Flyweight) : M Flyweight :=
  ss ← load (shared_state_ other);
  p ← new_SharedState ss;
  ret {| shared_state_ := p |}.

(** The destructor. *)
Definition Flyweight_destroy (this : Flyweight) : M unit :=
  delete_SharedState (shared_state_ this).

Definition show_SharedState (ss : SharedState) : string :=
  "[ " +:+ brand_ ss +:+ " , " +:+ model_ ss +:+ " , " +:+ color_ ss +:+ " ]".

Definition show_UniqueState (us : UniqueState) : string :=
  "[ " +:+ owner_ us +:+ " , " +:+ plates_ us +:+ " ]".

Definition Operation (unique_state : UniqueState) (this : Flyweight) : M unit :=
  ss ← load (shared_state_ this);
  print ("Flyweight: Displaying shared (" +:+ show_SharedState ss
         +:+ ") and unique (" +:+ show_UniqueState unique_state
         +:+ ") state." +:+ nl).

Record FlyweightFactory : Type := mkFlyweightFactory {
  flyweights_ : gmap string Flyweight;
}.

Definition GetKey (ss : SharedState) : string :=
  brand_ ss +:+ "_" +:+ model_ ss +:+ "_" +:+ color_ ss.

(** [flyweights_.insert(std::make_pair(key, Flyweight(&ss)))]: the
    temporary flyweight is built, [make_pair] copies it into the pair, the
    map copies the pair into a new node unless the key is already there,
    and the two temporaries are destroyed in reverse order. *)
Definition insert_new_flyweight (key : string) (ss : SharedState)
    (this : FlyweightFactory) : M FlyweightFactory :=
  temporary ← Flyweight_new ss;
  in_pair ← Flyweight_copy temporary;
  this' ← match flyweights_ this !! key with
           | Some _ => ret this
           | None =>
               node ← Flyweight_copy in_pair;
               ret {| flyweights_ := <[key := node]> (flyweights_ this) |}
           end;
  Flyweight_destroy in_pair;;
  Flyweight_destroy temporary;;
  ret this'.

(** The constructor, from the initializer list. *)
Fixpoint FlyweightFactory_fill (share_states : list SharedState)
    (this : FlyweightFactory) : M FlyweightFactory :=
  match share_states with
  | [] => ret this
  | ss :: rest =>
      this' ← insert_new_flyweight (GetKey ss) ss this;
      FlyweightFactory_fill rest this'
  end.

Definition FlyweightFactory_new (share_states : list SharedState)
  : M FlyweightFactory :=
  FlyweightFactory_fill share_states {| flyweights_ := ∅ |}.

(** [flyweights_.at(key)]; the exception of a missing key is a failure. *)
Definition at_key (key : string) (this : FlyweightFactory) : M Flyweight :=
  fun m => match flyweights_ this !! key with
           | Some fw => Some (fw, m)
           | None => None
           end.

(** [GetFlyweight(shared_state)].  The return type is [Flyweight], an
    object: the [return] statement copy-constructs the result from the map
    entry.  Returned: the result object and the factory afterwards. *)
Definition GetFlyweight (shared_state : SharedState) (this : FlyweightFactory)
  : M (Flyweight * FlyweightFactory) :=
  let key := GetKey shared_state in
  this' ← match flyweights_ this !! key with
           | None =>
               print ("FlyweightFactory: Cannot find a flyweight, creating new one." +:+ nl);;
               insert_new_flyweight key shared_state this
           | Some _ =>
               print ("FlyweightFactory: Reusing existing flyweight." +:+ nl);;
               ret this
           end;
  entry ← at_key key this';
  result ← Flyweight_copy entry;
  ret (result, this').

(** [AddCarToDatabase]: the flyweight returned is a temporary bound to a
    reference, destroyed at the end of the function. *)
Definition AddCarToDatabase (plates owner brand model color : string)
    (ff : FlyweightFactory) : M FlyweightFactory :=
  print (nl +:+ "Client: Adding a car to the database." +:+ nl);;
  r ← GetFlyweight {| brand_ := brand; model_ := model; color_ := color |} ff;
  Operation {| owner_ := owner; plates_ := plates |} (fst r);;
  Flyweight_destroy (fst r);;
  ret (snd r).

Definition empty_memory : Memory := {| heap := ∅; cout := [] |}.

(** The factory [main] builds. *)
Definition main_states : list SharedState :=
  [ mkSharedState "Chevrolet" "Camaro2018" "pink";
    mkSharedState "Mercedes Benz" "C300" "black";
    mkSharedState "Mercedes Benz" "C500" "red";
    mkSharedState "BMW" "M5" "red";
    mkSharedState "BMW" "X6" "white" ].

(** The intrinsic state a flyweight object holds. *)
Definition state_of (fw : Flyweight) (m : Memory) : option SharedState :=
  heap m !! shared_state_ fw.

(** Every cached flyweight owns a live [SharedState]. *)
Definition factory_ok (this : FlyweightFactory) (m : Memory) : Prop :=
  forall key fw, flyweights_ this !! key = Some fw ->
                 is_Some (heap m !! shared_state_ fw).

(** [returns c m post]: run from memory [m], the computation [c] ends
    with a result, and the result and the final memory satisfy [post]. *)
Definition returns {A : Type} (c : M A) (m : Memory)
    (post : A -> Memory -> Prop) : Prop :=
  match c m with
  | Some (x, m') => post x m'
  | None => False
  end.

(** Two calls in a row, both results alive afterwards. *)
Definition GetFlyweight_twice (first second : SharedState)
    (this : FlyweightFactory)
  : M (Flyweight * Flyweight * FlyweightFactory) :=
  r1 ← GetFlyweight first this;
  r2 ← GetFlyweight second (snd r1);
  ret (fst r1, fst r2, snd r2).

(** A loop running [body] on each element in turn. *)
Fixpoint for_each {A : Type} (body : A -> M unit) (l : list A) : M unit :=
  match l with
  | [] => ret tt
  | x :: rest => body x;; for_each body rest
  end.

(** One iteration of the loop of [ListFlyweights].  The loop variable is
    declared as a pair, not a reference to one: every iteration copies the
    entry, and so its flyweight, and destroys the copy at its end. *)
Definition list_entry (entry : string * Flyweight) : M unit :=
  copy ← Flyweight_copy (snd entry);
  print (fst entry +:+ nl);;
  Flyweight_destroy copy.

(** [ListFlyweights].  The order in which a [std::unordered_map] is
    traversed is unspecified; the order of [map_to_list] stands for it. *)
Definition ListFlyweights (this : FlyweightFactory) : M unit :=
  print (nl +:+ "FlyweightFactory: I have " +:+ pretty (size (flyweights_ this))
         +:+ " flyweights:" +:+ nl);;
  for_each list_entry (map_to_list (flyweights_ this)).

(** The implicit destructor of the factory destroys the map, which runs
    the destructor of every cached flyweight. *)
Definition FlyweightFactory_destroy (this : FlyweightFactory) : M unit :=
  for_each Flyweight_destroy (snd <$> map_to_list (flyweights_ this)).

(** [main] *)
Definition main : M unit :=
  factory ← FlyweightFactory_new main_states;
  ListFlyweights factory;;
  factory ← AddCarToDatabase "CL234IR" "James Doe" "BMW" "M5" "red" factory;
  factory ← AddCarToDatabase "CL234IR" "James Doe" "BMW" "X1" "red" factory;
  factory ← AddCarToDatabase "CA123ON" "Michael Jack" "Toyota" "Corolla" "silver" factory;
  ListFlyweights factory;;
  FlyweightFactory_destroy factory.

(** The state cached under [key], if any. *)
Definition cached_state (key : string) (this : FlyweightFactory) (m : Memory)
  : option SharedState :=
  fw ← flyweights_ this !! key; state_of fw m.

(** The first state of a list that has the key [key]. *)
Fixpoint first_with_key (key : string) (states : list SharedState)
  : option SharedState :=
  match states with
  | [] => None
  | ss :: rest => if decide (GetKey ss = key) then Some ss else first_with_key key rest
  end.

(** The factory and the free store fit: every cached flyweight owns a live
    state whose key is the key it is cached under, no two cached flyweights
    own the same state, and every live state is owned by a cached
    flyweight. *)
Record cache_inv (this : FlyweightFactory) (m : Memory) : Prop := mkCacheInv {
  cache_keyed : forall key fw, flyweights_ this !! key = Some fw ->
      exists ss, heap m !! shared_state_ fw = Some ss /\ GetKey ss = key;
  cache_unshared : forall key1 key2 fw1 fw2,
      flyweights_ this !! key1 = Some fw1 -> flyweights_ this !! key2 = Some fw2 ->
      shared_state_ fw1 = shared_state_ fw2 -> key1 = key2;
  cache_owns_all : forall p, is_Some (heap m !! p) ->
      exists key, flyweights_ this !! key = Some {| shared_state_ := p |};
}.

End Flyweight.

(* ===================================================================== *)
(** * Properties *)
(* ===================================================================== *)

Module DecoratorProofs.
Import Decorator.

Lemma append_cons (x : ascii) (a b : string) :
  String x a +:+ b = String x (a +:+ b).
Proof. reflexivity. Qed.

Lemma append_nil_r (a : string) : a +:+ "" = a.
Proof. induction a as [|x a IH]; [done | by rewrite append_cons, IH]. Qed.

Lemma append_assoc (a b c : string) : (a +:+ b) +:+ c = a +:+ (b +:+ c).
Proof. induction a as [|x a IH]; [done | by rewrite !append_cons, IH]. Qed.

Lemma Operation_wrap (m : Marker) (c : Component) :
  Operation (wrap m c) = marker_name m +:+ "(" +:+ Operation c +:+ ")".
Proof. by destruct m. Qed.

Lemma closing_snoc (n : nat) : closing n +:+ ")" = closing (S n).
Proof.
  induction n as [|n IH]; [done |].
  change (closing (S n)) with (")" +:+ closing n).
  by rewrite append_assoc, IH.
Qed.

Lemma stack_snoc (ms : list Marker) (m : Marker) (c : Component) :
  stack (ms ++ [m]) c = wrap m (stack ms c).
Proof. unfold stack. by rewrite foldl_app. Qed.

Lemma Operation_stack (ms : list Marker) (c : Component) :
  Operation (stack ms c)
  = opening (rev ms) +:+ Operation c +:+ closing (List.length ms).
Proof.
  induction ms as [|m ms IH] using rev_ind.
  - simpl. change (closing 0) with "". by rewrite append_nil_r.
  - rewrite stack_snoc, Operation_wrap, IH.
    rewrite rev_app_distr, length_app, Nat.add_1_r, <- closing_snoc.
    change (opening (rev [m] ++ rev ms))
      with (marker_name m +:+ "(" +:+ opening (rev ms)).
    by rewrite !append_assoc.
Qed.

(** C8. Stacking any list of concrete decorators around any component
    gives the component's result enclosed in every marker, the decorator
    applied first innermost and the one applied last outermost; A, B, C
    around [ConcreteComponent] gives exactly
    ConcreteDecoratorC(ConcreteDecoratorB(ConcreteDecoratorA(ConcreteComponent)));
    the base [Decorator] forwards the wrapped result unchanged. *)
Theorem decorator_stack_nests_markers :
  (forall (ms : list Marker) (c : Component),
      Operation (stack ms c)
      = opening (rev ms) +:+ Operation c +:+ closing (List.length ms))
  /\ Operation ConcreteComponent = "ConcreteComponent"
  /\ stack [MarkA; MarkB; MarkC] ConcreteComponent = main_decorated
  /\ Operation main_decorated
     = "ConcreteDecoratorC(ConcreteDecoratorB(ConcreteDecoratorA(ConcreteComponent)))"
  /\ (forall c : Component, Operation (Decorator c) = Operation c).
Proof.
  split; [apply Operation_stack |].
  repeat split; reflexivity.
Qed.

End DecoratorProofs.

Module ObserverProofs.
Import Observer.

Lemma list_remove_filter (o : positive) (l : list positive) :
  list_remove o l = filter (fun x => x <> o) l.
Proof.
  induction l as [|x l IH]; [done |].
  simpl. rewrite filter_cons. destruct (decide (x = o)) as [->|Hne].
  - rewrite decide_False by naive_solver. exact IH.
  - rewrite decide_True by done. by rewrite IH.
Qed.

Lemma list_remove_not_elem (o : positive) (l : list positive) :
  o ∉ list_remove o l.
Proof.
  rewrite list_remove_filter. intros [H _]%list_elem_of_filter. by apply H.
Qed.

Lemma list_remove_absent (o : positive) (l : list positive) :
  o ∉ l -> list_remove o l = l.
Proof.
  induction l as [|x l IH]; [done |].
  intros [Hne Hl]%not_elem_of_cons. simpl.
  rewrite decide_False by done. by rewrite IH.
Qed.

Lemma list_remove_length (o : positive) (l : list positive) :
  (List.length (list_remove o l) + occurrences o l = List.length l)%nat.
Proof.
  unfold occurrences. induction l as [|x l IH]; [done |].
  simpl. rewrite filter_cons. destruct (decide (x = o)); simpl; lia.
Qed.

(** C2 (as the code has it). [Attach] appends, so an observer attached
    twice is in the list twice; [Detach] erases every entry equal to the
    observer, not the first one only, and keeps the other entries in their
    order; detaching an observer that is not in the list changes nothing. *)
Theorem Detach_erases_every_match (this : Publisher) (o : positive) :
  list_observer_ (Attach o (Attach o this))
    = (list_observer_ this ++ [o; o])%list
  /\ (o ∉ list_observer_ (Detach o this))
  /\ list_observer_ (Detach o this)
       = filter (fun x => x <> o) (list_observer_ this)
  /\ (List.length (list_observer_ (Detach o this))
        + occurrences o (list_observer_ this)
      = List.length (list_observer_ this))%nat
  /\ message_ (Detach o this) = message_ this
  /\ (o ∉ list_observer_ this -> Detach o this = this).
Proof.
  repeat split.
  - simpl. by rewrite <- app_assoc.
  - apply list_remove_not_elem.
  - apply list_remove_filter.
  - apply list_remove_length.
  - intros Hn. destruct this as [l m]. unfold Detach. simpl in *.
    by rewrite list_remove_absent.
Qed.

(** C2 as stated fails: with the same observer attached twice, [Detach]
    leaves no entry for it, where erasing the first match only would leave
    the later one subscribed. *)
Lemma Detach_first_match_only_fails :
  let this := Attach 1 (Attach 2 (Attach 1 Publisher_new)) in
  list_observer_ this = [1; 2; 1]%positive
  /\ list_observer_ (Detach 1 this) = [2%positive]
  /\ remove_first_match 1 (list_observer_ this) = [2; 1]%positive
  /\ list_observer_ (Detach 1 this) <> remove_first_match 1 (list_observer_ this).
Proof. repeat split. discriminate. Qed.

End ObserverProofs.

Module CommandProofs.
Import Command.

(** C3 (the code at the failing input). On the invoker [main] creates,
    a slot that no setter has written is indeterminate, not null: the
    test in [DoSomethingImportant] reads it and the call has no defined
    result, with none or only one of the two slots bound.  Only slots
    that were set (to a command or to null) give a defined call, and a
    null slot is then skipped. *)
Theorem DoSomethingImportant_reads_unset_slot :
  DoSomethingImportant Invoker_new = None
  /\ (forall c, DoSomethingImportant (SetOnStart c Invoker_new) = None)
  /\ (forall c, DoSomethingImportant (SetOnFinish c Invoker_new) = None)
  /\ (forall c1 c2,
        is_Some (DoSomethingImportant (SetOnFinish c2 (SetOnStart c1 Invoker_new))))
  /\ DoSomethingImportant (SetOnFinish None (SetOnStart None Invoker_new))
     = Some [ "Invoker: Does anybody want something done before I begin?" +:+ nl;
              "Invoker: ...doing something really important..." +:+ nl;
              "Invoker: Does anybody want something done after I finish?" +:+ nl ].
Proof.
  split; [reflexivity |].
  split; [by intros [c|] |].
  split; [reflexivity |].
  split; [by intros [c1|] [c2|]; eexists | reflexivity].
Qed.

End CommandProofs.

Module StrategyProofs.
Import Strategy.

Section Char.
Variable char_is_signed : bool.

#[local] Abbreviation char_value := (char_value char_is_signed).
#[local] Abbreviation less := (less char_is_signed).
#[local] Abbreviation greater := (greater char_is_signed).
#[local] Abbreviation char_le := (char_le char_is_signed).
#[local] Abbreviation char_ge := (char_ge char_is_signed).

Lemma N_of_ascii_bound (c : ascii) : (N_of_ascii c < 256)%N.
Proof. destruct c as [[] [] [] [] [] [] [] []]; vm_compute; reflexivity. Qed.

Lemma char_value_inj (a b : ascii) : char_value a = char_value b -> a = b.
Proof.
  intros H.
  rewrite <- (ascii_N_embedding a), <- (ascii_N_embedding b). f_equal.
  pose proof (N_of_ascii_bound a). pose proof (N_of_ascii_bound b).
  unfold Strategy.char_value in H. cbv zeta in H.
  destruct char_is_signed; simpl in H;
    repeat match type of H with
           | context [(128 <=? ?n)%Z] => destruct (Z.leb_spec 128 n)
           end; lia.
Qed.

Lemma not_after_less (a b : ascii) : not_after less a b <-> char_le a b.
Proof.
  unfold not_after, Strategy.less, Strategy.char_le.
  rewrite Z.ltb_ge. reflexivity.
Qed.

Lemma not_after_greater (a b : ascii) : not_after greater a b <-> char_ge a b.
Proof.
  unfold not_after, Strategy.greater, Strategy.char_ge.
  rewrite Z.ltb_ge. reflexivity.
Qed.

#[local] Instance not_after_less_total : Total (not_after less).
Proof. intros a b. rewrite !not_after_less. unfold Strategy.char_le. lia. Qed.

#[local] Instance not_after_greater_total : Total (not_after greater).
Proof. intros a b. rewrite !not_after_greater. unfold Strategy.char_ge. lia. Qed.

#[local] Instance char_le_trans : Transitive char_le.
Proof. intros a b c. unfold Strategy.char_le. lia. Qed.

#[local] Instance char_ge_trans : Transitive char_ge.
Proof. intros a b c. unfold Strategy.char_ge. lia. Qed.

#[local] Instance char_le_antisym : AntiSymm (=) char_le.
Proof. intros a b ??. apply char_value_inj. unfold Strategy.char_le in *. lia. Qed.

#[local] Instance char_ge_antisym : AntiSymm (=) char_ge.
Proof. intros a b ??. apply char_value_inj. unfold Strategy.char_ge in *. lia. Qed.

Lemma Sorted_weaken {A : Type} (R1 R2 : relation A) (l : list A) :
  (forall a b, R1 a b -> R2 a b) -> Sorted R1 l -> Sorted R2 l.
Proof.
  intros HR. induction 1 as [|x l _ IH Hhd]; constructor; [done |].
  destruct Hhd; constructor; auto.
Qed.

Lemma std_sort_less_sorted (l : list ascii) : Sorted char_le (std_sort less l).
Proof.
  apply (Sorted_weaken (not_after less)); [intros a b; apply not_after_less |].
  apply Sorted_merge_sort, _.
Qed.

Lemma std_sort_greater_sorted (l : list ascii) : Sorted char_ge (std_sort greater l).
Proof.
  apply (Sorted_weaken (not_after greater)); [intros a b; apply not_after_greater |].
  apply Sorted_merge_sort, _.
Qed.

Lemma std_sort_permutation (comp : ascii -> ascii -> bool) (l : list ascii) :
  std_sort comp l ≡ₚ l.
Proof. apply merge_sort_Permutation. Qed.

Lemma chars_of_ascending (data : string) :
  list_ascii_of_string (doAlgorithm (ConcreteStrategyA char_is_signed) data)
  = std_sort less (list_ascii_of_string data).
Proof. simpl. apply list_ascii_of_string_of_list_ascii. Qed.

Lemma chars_of_descending (data : string) :
  list_ascii_of_string (doAlgorithm (ConcreteStrategyB char_is_signed) data)
  = std_sort greater (list_ascii_of_string data).
Proof. simpl. apply list_ascii_of_string_of_list_ascii. Qed.

(** C6. On "haegicbjdf" the ascending strategy returns "abcdefghij" and
    the descending one "jihgfedcba"; on every input the result of each
    strategy holds the characters of the input (a permutation of them) in
    ascending, respectively descending, order of their [char] values, and
    it is the only arrangement of the input that is so ordered. *)
Theorem doAlgorithm_sorts_characters :
  doAlgorithm (ConcreteStrategyA char_is_signed) "haegicbjdf" = "abcdefghij"
  /\ doAlgorithm (ConcreteStrategyB char_is_signed) "haegicbjdf" = "jihgfedcba"
  /\ forall data : string,
       let input := list_ascii_of_string data in
       let ascending :=
         list_ascii_of_string (doAlgorithm (ConcreteStrategyA char_is_signed) data) in
       let descending :=
         list_ascii_of_string (doAlgorithm (ConcreteStrategyB char_is_signed) data) in
       ascending ≡ₚ input /\ Sorted char_le ascending
       /\ descending ≡ₚ input /\ Sorted char_ge descending
       /\ (forall r, r ≡ₚ input -> Sorted char_le r -> r = ascending)
       /\ (forall r, r ≡ₚ input -> Sorted char_ge r -> r = descending).
Proof.
  split; [by destruct char_is_signed; vm_compute |].
  split; [by destruct char_is_signed; vm_compute |].
  intros data input ascending descending.
  subst ascending descending input.
  rewrite chars_of_ascending, chars_of_descending.
  repeat split.
  - apply std_sort_permutation.
  - apply std_sort_less_sorted.
  - apply std_sort_permutation.
  - apply std_sort_greater_sorted.
  - intros r Hp Hs. apply (Sorted_unique char_le); [done | |].
    + apply std_sort_less_sorted.
    + by rewrite Hp, std_sort_permutation.
  - intros r Hp Hs. apply (Sorted_unique char_ge); [done | |].
    + apply std_sort_greater_sorted.
    + by rewrite Hp, std_sort_permutation.
Qed.

End Char.

(** C7. A context built with no strategy (the default argument, an empty
    pointer passed to the constructor or to the setter) is an ordinary
    value; on it [doSomeBusinessLogic] writes the line "Context: Strategy
    isn't set" and nothing else, for every input, and makes no call of
    [doAlgorithm]; with a strategy it makes one and prints its result. *)
Theorem doSomeBusinessLogic_unset_strategy :
  strategy_ Context_default = None
  /\ (forall (this : Context) (text_to_sort : string),
        strategy_ this = None ->
        doSomeBusinessLogic text_to_sort this
          = [ Cout ("Context: Strategy isn't set" +:+ nl) ]
        /\ filter is_call (doSomeBusinessLogic text_to_sort this) = [])
  /\ strategy_ (Context_new None) = None
  /\ (forall this : Context, strategy_ (set_strategy None this) = None)
  /\ (forall (this : Context) (s : Strategy) (text_to_sort : string),
        strategy_ this = Some s ->
        filter is_call (doSomeBusinessLogic text_to_sort this)
          = [ Call_doAlgorithm text_to_sort ]
        /\ Cout (doAlgorithm s text_to_sort) ∈ doSomeBusinessLogic text_to_sort this).
Proof.
  split; [reflexivity |].
  split; [| split; [reflexivity | split]].
  - intros this text H. unfold doSomeBusinessLogic. rewrite H. by split.
  - by intros.
  - intros this s text H. unfold doSomeBusinessLogic. rewrite H. split; [done |].
    set_solver.
Qed.

End StrategyProofs.

Module PrototypeProofs.
Import Prototype.

Section Float.
Context {float : Type}.
Implicit Types (h : gmap positive (Object float)) (o : Object float).

Lemma copy_base_eq (b : PrototypeBase float) : copy_base float b = b.
Proof. by destruct b. Qed.

Lemma Clone_spec h (this : positive) o :
  h !! this = Some o ->
  Clone this h = Some (fresh (dom h), <[fresh (dom h) := o]> h).
Proof.
  intros H. unfold Clone. rewrite H.
  destruct o as [b f|b f]; unfold new; by rewrite copy_base_eq.
Qed.

Lemma fresh_not_live h (this : positive) o :
  h !! this = Some o -> fresh (dom h) <> this.
Proof.
  intros H Heq. apply (is_fresh (dom h)). rewrite Heq.
  apply elem_of_dom. by eexists.
Qed.

Lemma prototype_field_set (x : float) o :
  prototype_field_ (base_of (set_prototype_field x o)) = x
  /\ prototype_name_ (base_of (set_prototype_field x o)) = prototype_name_ (base_of o)
  /\ concrete_field (set_prototype_field x o) = concrete_field o.
Proof. by destruct o. Qed.

(** C9. For a live prototype object [P] at address [p], [Clone] succeeds
    and returns the address [q] of a new object, different from [p] and
    from every object alive before, whose class and fields are those of
    [P] at that moment; [P] itself is unchanged.  A later [Method] call on
    [p] overwrites [prototype_field_] of [P] only and leaves the clone as
    it was, and a [Method] call on the clone leaves [P] as it was. *)
Theorem Clone_is_independent_copy h (p : positive) (P : Object float) :
  h !! p = Some P ->
  exists (q : positive) (h' : gmap positive (Object float)),
    Clone p h = Some (q, h')
    /\ q <> p /\ h !! q = None
    /\ h' !! q = Some P /\ h' !! p = Some P
    /\ (forall (show_float : float -> string) (x : float),
          exists h'' out,
            Method show_float p x h' = Some (h'', out)
            /\ h'' !! p = Some (set_prototype_field x P)
            /\ prototype_field_ (base_of (set_prototype_field x P)) = x
            /\ h'' !! q = Some P)
    /\ (forall (show_float : float -> string) (x : float),
          exists h'' out,
            Method show_float q x h' = Some (h'', out)
            /\ h'' !! q = Some (set_prototype_field x P)
            /\ h'' !! p = Some P).
Proof.
  intros HP.
  pose proof (fresh_not_live h p P HP) as Hne.
  exists (fresh (dom h)), (<[fresh (dom h) := P]> h).
  split; [by apply Clone_spec |].
  split; [done |].
  split; [apply not_elem_of_dom, is_fresh |].
  split; [apply lookup_insert_eq |].
  split; [by rewrite lookup_insert_ne |].
  split.
  - intros show_float x. unfold Method.
    rewrite lookup_insert_ne by done. rewrite HP.
    eexists _, _. split; [reflexivity |].
    split; [apply lookup_insert_eq |].
    split; [apply prototype_field_set |].
    rewrite lookup_insert_ne by done. apply lookup_insert_eq.
  - intros show_float x. unfold Method.
    rewrite lookup_insert_eq.
    eexists _, _. split; [reflexivity |].
    split; [apply lookup_insert_eq |].
    rewrite lookup_insert_ne by done. by rewrite lookup_insert_ne.
Qed.

End Float.

Lemma Clone_is_independent_copy_witness :
  exists (q : positive) (h' : gmap positive (Object Z)),
    Clone 1 {[ 1%positive := prototype_1 ]} = Some (q, h')
    /\ q <> 1%positive /\ ({[ 1%positive := prototype_1 ]} : gmap positive (Object Z)) !! q = None
    /\ h' !! q = Some prototype_1 /\ h' !! 1%positive = Some prototype_1
    /\ (forall (show_float : Z -> string) (x : Z),
          exists h'' out,
            Method show_float 1 x h' = Some (h'', out)
            /\ h'' !! 1%positive = Some (set_prototype_field x prototype_1)
            /\ prototype_field_ (base_of (set_prototype_field x prototype_1)) = x
            /\ h'' !! q = Some prototype_1)
    /\ (forall (show_float : Z -> string) (x : Z),
          exists h'' out,
            Method show_float q x h' = Some (h'', out)
            /\ h'' !! q = Some (set_prototype_field x prototype_1)
            /\ h'' !! 1%positive = Some prototype_1).
Proof.
  apply (Clone_is_independent_copy {[ 1%positive := prototype_1 ]} 1 prototype_1).
  vm_compute. reflexivity.
Defined.

End PrototypeProofs.

Module SingletonProofs.
Import Singleton.

Lemma GetInstance_first (value : string) (s : Statics) :
  m_mutex s = None -> m_instance_ptr s = None ->
  GetInstance value s = Some (Some (fresh (dom (heap s))), create value s).
Proof. intros Hm Hp. unfold GetInstance. by rewrite Hm, Hp. Qed.

Lemma GetInstance_later (value : string) (s : Statics) (p : positive) :
  m_mutex s = None -> m_instance_ptr s = Some p ->
  GetInstance value s = Some (Some p, s).
Proof. intros Hm Hp. unfold GetInstance. rewrite Hm, Hp. by rewrite Hp. Qed.

Lemma GetInstance_calls_later (values : list string) (s : Statics) (p : positive) :
  m_mutex s = None -> m_instance_ptr s = Some p ->
  GetInstance_calls values s = Some (replicate (List.length values) (Some p), s).
Proof.
  intros Hm Hp. induction values as [|v values IH]; [done |].
  cbn [GetInstance_calls]. rewrite (GetInstance_later v s p Hm Hp).
  cbn [mbind option_bind]. rewrite IH. reflexivity.
Qed.

Lemma apply_operation_initialized (o : operation) (s : Statics) (p : positive) :
  m_mutex s = None -> m_instance_ptr s = Some p ->
  apply_operation o s = Some s.
Proof.
  intros Hm Hp. destruct o as [v|q|q]; simpl; [|done..].
  by rewrite (GetInstance_later v s p Hm Hp).
Qed.

Lemma apply_operations_initialized (os : list operation) (s : Statics) (p : positive) :
  m_mutex s = None -> m_instance_ptr s = Some p ->
  apply_operations os s = Some s.
Proof.
  intros Hm Hp. induction os as [|o os IH]; [done |].
  cbn [apply_operations]. by rewrite (apply_operation_initialized o s p Hm Hp).
Qed.

(** C4. From the state after static initialization, in every sequence
    of [GetInstance] calls the first call constructs the instance from its
    argument and every call, whatever its argument, returns the address of
    that one instance, whose [Value()] is the first call's argument; one
    object has been constructed.  From an initialized state no sequence of
    the public operations changes [m_instance_ptr] or the instance: there
    is no way back to the null pointer. *)
Theorem GetInstance_constructs_once :
  (forall (value : string) (values : list string),
     exists (p : positive) (s : Statics),
       GetInstance_calls (value :: values) initial
         = Some (replicate (S (List.length values)) (Some p), s)
       /\ m_instance_ptr s = Some p
       /\ m_mutex s = None
       /\ Value p s = Some value
       /\ constructed s = 1%nat)
  /\ (forall (s : Statics) (p : positive) (os : list operation),
        m_mutex s = None -> m_instance_ptr s = Some p ->
        exists s' : Statics,
          apply_operations os s = Some s'
          /\ m_instance_ptr s' = Some p
          /\ Value p s' = Value p s).
Proof.
  split.
  - intros value values.
    exists (fresh (dom (heap initial))), (create value initial).
    split; [| split; [done | split; [done | split]]].
    + cbn [GetInstance_calls].
      rewrite (GetInstance_first value initial) by done. cbn [mbind option_bind].
      rewrite (GetInstance_calls_later values _ (fresh (dom (heap initial)))) by done.
      reflexivity.
    + unfold Value, create. cbn [heap]. by rewrite lookup_insert_eq.
    + unfold constructed, create, initial. cbn [heap].
      by rewrite insert_empty, map_size_singleton.
  - intros s p os Hm Hp. exists s.
    by rewrite (apply_operations_initialized os s p Hm Hp).
Qed.

End SingletonProofs.

Module FlyweightProofs.
Import Flyweight.

Lemma bind_eq {A B : Type} (c : M A) (k : A -> M B) (m m' : Memory) (x : A) :
  c m = Some (x, m') -> (y ← c; k y) m = k x m'.
Proof. intros H. unfold mbind, M_bind, bind. by rewrite H. Qed.

Lemma Flyweight_new_eq (ss : SharedState) (m : Memory) :
  Flyweight_new ss m
  = Some ({| shared_state_ := fresh (dom (heap m)) |},
          {| heap := <[fresh (dom (heap m)) := ss]> (heap m); cout := cout m |}).
Proof. reflexivity. Qed.

Lemma Flyweight_copy_eq (other : Flyweight) (ss : SharedState) (m : Memory) :
  heap m !! shared_state_ other = Some ss ->
  Flyweight_copy other m
  = Some ({| shared_state_ := fresh (dom (heap m)) |},
          {| heap := <[fresh (dom (heap m)) := ss]> (heap m); cout := cout m |}).
Proof.
  intros H. unfold Flyweight_copy, load, mbind, M_bind, bind. by rewrite H.
Qed.

Lemma Flyweight_destroy_eq (this : Flyweight) (ss : SharedState) (m : Memory) :
  heap m !! shared_state_ this = Some ss ->
  Flyweight_destroy this m
  = Some (tt, {| heap := delete (shared_state_ this) (heap m); cout := cout m |}).
Proof.
  intros H. unfold Flyweight_destroy, delete_SharedState. by rewrite H.
Qed.

Lemma fresh_insert_ne (h : gmap positive SharedState) (p : positive) (ss : SharedState) :
  fresh (dom (<[p := ss]> h)) <> p.
Proof.
  intros Heq. apply (is_fresh (dom (<[p := ss]> h))). rewrite Heq.
  apply elem_of_dom. rewrite lookup_insert_eq. by eexists.
Qed.

Lemma fresh_insert_notin (h : gmap positive SharedState) (p : positive) (ss : SharedState) :
  h !! fresh (dom (<[p := ss]> h)) = None.
Proof.
  apply not_elem_of_dom. intros Hin.
  apply (is_fresh (dom (<[p := ss]> h))).
  by apply (dom_insert_subseteq h p ss).
Qed.

Lemma fresh_notin (h : gmap positive SharedState) : h !! fresh (dom h) = None.
Proof. apply not_elem_of_dom, is_fresh. Qed.

Lemma insert_new_flyweight_absent (key : string) (ss : SharedState)
    (this : FlyweightFactory) (m : Memory) :
  flyweights_ this !! key = None ->
  exists node : positive,
    heap m !! node = None
    /\ insert_new_flyweight key ss this m
       = Some ({| flyweights_ := <[key := {| shared_state_ := node |}]> (flyweights_ this) |},
               {| heap := <[node := ss]> (heap m); cout := cout m |}).
Proof.
  intros Hk. destruct m as [h out]. cbn [heap cout].
  set (l1 := fresh (dom h)). set (h1 := <[l1 := ss]> h).
  set (l2 := fresh (dom h1)). set (h2 := <[l2 := ss]> h1).
  set (l3 := fresh (dom h2)). set (h3 := <[l3 := ss]> h2).
  assert (Hl1 : h !! l1 = None) by apply fresh_notin.
  assert (H21 : l2 <> l1) by apply fresh_insert_ne.
  assert (Hl2 : h !! l2 = None) by apply fresh_insert_notin.
  assert (H32 : l3 <> l2) by apply fresh_insert_ne.
  assert (Hl3' : h1 !! l3 = None) by apply fresh_insert_notin.
  assert (H31 : l3 <> l1).
  { intros Heq. rewrite Heq in Hl3'. unfold h1 in Hl3'. by rewrite lookup_insert_eq in Hl3'. }
  assert (Hl3 : h !! l3 = None).
  { unfold h1 in Hl3'. by rewrite lookup_insert_ne in Hl3'. }
  exists l3. split; [done |].
  unfold insert_new_flyweight.
  erewrite bind_eq by apply Flyweight_new_eq. cbn [heap cout]. fold l1 h1.
  erewrite bind_eq by (apply (Flyweight_copy_eq _ ss); apply lookup_insert_eq).
  cbn [heap cout]. fold l2 h2.
  rewrite Hk.
  erewrite bind_eq; cycle 1.
  { erewrite bind_eq by (apply (Flyweight_copy_eq _ ss); apply lookup_insert_eq).
    reflexivity. }
  cbn [heap cout]. fold l3 h3.
  erewrite bind_eq; cycle 1.
  { apply (Flyweight_destroy_eq _ ss). cbn. unfold h3. rewrite lookup_insert_ne by done.
    apply lookup_insert_eq. }
  erewrite bind_eq; cycle 1.
  { apply (Flyweight_destroy_eq _ ss). cbn.
    rewrite lookup_delete_ne by done. unfold h3, h2. rewrite !lookup_insert_ne by done.
    apply lookup_insert_eq. }
  unfold mret, M_ret, ret. do 2 f_equal. cbn. f_equal.
  unfold h3, h2, h1.
  rewrite (delete_insert_ne _ l2 l3) by done.
  rewrite delete_insert_eq.
  rewrite (delete_insert_ne _ l2 l1) by done.
  rewrite (delete_insert_ne _ l1 l3) by done.
  rewrite delete_insert_eq.
  rewrite (delete_id h l2) by done.
  rewrite (delete_id h l1) by done.
  reflexivity.
Qed.

Lemma at_key_eq (key : string) (this : FlyweightFactory) (fw : Flyweight) (m : Memory) :
  flyweights_ this !! key = Some fw -> at_key key this m = Some (fw, m).
Proof. intros H. unfold at_key. by rewrite H. Qed.

Lemma print_eq (text : string) (m : Memory) :
  print text m = Some (tt, {| heap := heap m; cout := (cout m ++ [text])%list |}).
Proof. reflexivity. Qed.

(** A request whose key is cached: nothing is added to the cache, and the
    result is a new object holding a copy of the cached entry's state. *)
Lemma GetFlyweight_hit (ss st : SharedState) (this : FlyweightFactory)
    (entry : Flyweight) (m : Memory) :
  flyweights_ this !! GetKey ss = Some entry ->
  heap m !! shared_state_ entry = Some st ->
  GetFlyweight ss this m
  = Some (({| shared_state_ := fresh (dom (heap m)) |}, this),
          {| heap := <[fresh (dom (heap m)) := st]> (heap m);
             cout := (cout m ++ ["FlyweightFactory: Reusing existing flyweight." +:+ nl])%list |}).
Proof.
  intros Hk Hst. unfold GetFlyweight. rewrite Hk.
  erewrite bind_eq; cycle 1.
  { erewrite bind_eq by apply print_eq. reflexivity. }
  erewrite bind_eq by (by apply at_key_eq).
  erewrite bind_eq by (by apply (Flyweight_copy_eq _ st)).
  reflexivity.
Qed.

(** A request whose key is not cached: one entry is added, holding a copy
    of the requested state, and the result is another new object holding a
    copy of it. *)
Lemma GetFlyweight_miss (ss : SharedState) (this : FlyweightFactory) (m : Memory) :
  flyweights_ this !! GetKey ss = None ->
  exists node result : positive,
    heap m !! node = None /\ heap m !! result = None /\ result <> node
    /\ GetFlyweight ss this m
       = Some (({| shared_state_ := result |},
                {| flyweights_ := <[GetKey ss := {| shared_state_ := node |}]> (flyweights_ this) |}),
               {| heap := <[result := ss]> (<[node := ss]> (heap m));
                  cout := (cout m ++ ["FlyweightFactory: Cannot find a flyweight, creating new one." +:+ nl])%list |}).
Proof.
  intros Hk.
  destruct (insert_new_flyweight_absent (GetKey ss) ss this
              {| heap := heap m;
                 cout := (cout m ++ ["FlyweightFactory: Cannot find a flyweight, creating new one." +:+ nl])%list |}
              Hk) as (node & Hnode & Hins).
  cbn [heap cout] in Hnode, Hins.
  exists node, (fresh (dom (<[node := ss]> (heap m)))).
  split; [done |]. split; [apply fresh_insert_notin |]. split; [apply fresh_insert_ne |].
  unfold GetFlyweight. rewrite Hk.
  erewrite bind_eq; cycle 1.
  { erewrite bind_eq by apply print_eq. exact Hins. }
  erewrite bind_eq by (apply at_key_eq; cbn; apply lookup_insert_eq).
  erewrite bind_eq by (apply (Flyweight_copy_eq _ ss); cbn; apply lookup_insert_eq).
  reflexivity.
Qed.

(** Two requests in a row with the same key, from any factory whose
    entries are alive: after both, the key has one entry; both results
    hold the state of that entry; the entry and the two results are three
    different objects; the second call finds the entry (it prints the
    "Reusing" line) and adds nothing. *)
Lemma GetFlyweight_twice_same_key (first second : SharedState)
    (this : FlyweightFactory) (m : Memory) :
  factory_ok this m ->
  GetKey first = GetKey second ->
  returns (GetFlyweight_twice first second this) m
    (fun '(r1, r2, this') m' =>
       exists (entry : Flyweight) (st : SharedState) (line : string),
         flyweights_ this' !! GetKey first = Some entry
         /\ state_of entry m' = Some st
         /\ state_of r1 m' = Some st
         /\ state_of r2 m' = Some st
         /\ shared_state_ r1 <> shared_state_ r2
         /\ shared_state_ r1 <> shared_state_ entry
         /\ shared_state_ r2 <> shared_state_ entry
         /\ cout m' = (cout m ++ [line; "FlyweightFactory: Reusing existing flyweight." +:+ nl])%list
         /\ match flyweights_ this !! GetKey first with
            | Some e => this' = this /\ entry = e /\ state_of e m = Some st
            | None => st = first
                      /\ flyweights_ this' = <[GetKey first := entry]> (flyweights_ this)
            end).
Proof.
  intros Hok Hkey. unfold returns, GetFlyweight_twice.
  destruct (flyweights_ this !! GetKey first) as [e|] eqn:Hk.
  - destruct (Hok _ _ Hk) as [st Hst].
    set (r1 := fresh (dom (heap m))).
    set (h1 := <[r1 := st]> (heap m)).
    assert (Hr1 : heap m !! r1 = None) by apply fresh_notin.
    assert (Hr1e : r1 <> shared_state_ e) by congruence.
    assert (Hst1 : h1 !! shared_state_ e = Some st).
    { unfold h1. by rewrite lookup_insert_ne. }
    erewrite bind_eq by (by apply (GetFlyweight_hit first st this e)).
    cbn [fst snd]. fold r1 h1.
    erewrite bind_eq; cycle 1.
    { apply (GetFlyweight_hit second st this e); [by rewrite <- Hkey | exact Hst1]. }
    cbn [heap cout fst snd mret M_ret ret]. fold r1 h1.
    set (r2 := fresh (dom h1)).
    assert (Hr2 : h1 !! r2 = None) by apply fresh_notin.
    assert (Hr21 : r2 <> r1) by apply fresh_insert_ne.
    assert (Hr2e : r2 <> shared_state_ e) by congruence.
    exists e, st, ("FlyweightFactory: Reusing existing flyweight." +:+ nl).
    unfold state_of. cbn [heap cout shared_state_].
    split; [done |].
    split; [by rewrite lookup_insert_ne |].
    split; [rewrite lookup_insert_ne by done; apply lookup_insert_eq |].
    split; [apply lookup_insert_eq |].
    split; [done |]. split; [done |]. split; [done |].
    split; [by rewrite <- app_assoc |].
    done.
  - destruct (GetFlyweight_miss first this m Hk)
      as (node & r1 & Hnode & Hr1 & Hr1n & Hget).
    erewrite bind_eq by exact Hget.
    cbn [fst snd].
    set (h1 := <[r1 := first]> (<[node := first]> (heap m))).
    assert (Hn1 : h1 !! node = Some first).
    { unfold h1. rewrite lookup_insert_ne by done. apply lookup_insert_eq. }
    erewrite bind_eq; cycle 1.
    { apply (GetFlyweight_hit second first _ {| shared_state_ := node |}).
      - cbn. rewrite <- Hkey. apply lookup_insert_eq.
      - exact Hn1. }
    cbn [heap cout fst snd mret M_ret ret]. fold h1.
    set (r2 := fresh (dom h1)).
    assert (Hr2 : h1 !! r2 = None) by apply fresh_notin.
    assert (Hr21 : r2 <> r1) by apply fresh_insert_ne.
    assert (Hr2n : r2 <> node) by congruence.
    exists {| shared_state_ := node |}, first,
      ("FlyweightFactory: Cannot find a flyweight, creating new one." +:+ nl).
    unfold state_of. cbn [heap cout shared_state_ flyweights_].
    split; [apply lookup_insert_eq |].
    split; [by rewrite lookup_insert_ne |].
    split; [rewrite lookup_insert_ne by done; apply lookup_insert_eq |].
    split; [apply lookup_insert_eq |].
    split; [done |]. split; [done |]. split; [done |].
    split; [by rewrite <- app_assoc |].
    done.
Qed.

(** C1 (the code at a failing input). On the factory [main] builds, two
    requests for the cached state BMW / M5 / red both find the cached
    entry and leave the cache as it was, but each returns an object of its
    own: the two results and the cached entry own three different
    [SharedState] objects, all with equal contents.  The results are
    copies of the shared instance, not the instance. *)
Theorem GetFlyweight_returns_copies :
  returns (FlyweightFactory_new main_states) empty_memory
    (fun factory m0 =>
       returns (GetFlyweight_twice (mkSharedState "BMW" "M5" "red")
                  (mkSharedState "BMW" "M5" "red") factory) m0
         (fun '(r1, r2, factory') m =>
            exists entry : Flyweight,
              flyweights_ factory !! "BMW_M5_red" = Some entry
              /\ factory' = factory
              /\ cout m = [ "FlyweightFactory: Reusing existing flyweight." +:+ nl;
                            "FlyweightFactory: Reusing existing flyweight." +:+ nl ]
              /\ state_of entry m = Some (mkSharedState "BMW" "M5" "red")
              /\ state_of r1 m = Some (mkSharedState "BMW" "M5" "red")
              /\ state_of r2 m = Some (mkSharedState "BMW" "M5" "red")
              /\ r1 <> r2 /\ r1 <> entry /\ r2 <> entry
              /\ shared_state_ r1 <> shared_state_ r2
              /\ shared_state_ r1 <> shared_state_ entry
              /\ shared_state_ r2 <> shared_state_ entry)).
Proof.
  vm_compute. eexists. split; [reflexivity |].
  repeat split; discriminate.
Qed.

(** C10. The cache key is brand, model and color joined with "_".  It
    is not injective: brand "a_b" with model "c" and brand "a" with model
    "b_c" give the same key for every color.  After a request whose key is
    new, a request for any state with that same key adds no entry and
    returns a flyweight holding the state requested first (shown from
    every factory whose entries are alive, and on the empty factory for
    the two states above). *)
Theorem GetKey_is_not_injective :
  (forall ss : SharedState,
     GetKey ss = brand_ ss +:+ "_" +:+ model_ ss +:+ "_" +:+ color_ ss)
  /\ (forall color : string,
        let s1 := mkSharedState "a_b" "c" color in
        let s2 := mkSharedState "a" "b_c" color in
        GetKey s1 = GetKey s2
        /\ brand_ s1 <> brand_ s2 /\ model_ s1 <> model_ s2 /\ color_ s1 = color_ s2
        /\ s1 <> s2)
  /\ (forall (first second : SharedState) (this : FlyweightFactory) (m : Memory),
        factory_ok this m ->
        flyweights_ this !! GetKey first = None ->
        GetKey first = GetKey second ->
        returns (GetFlyweight_twice first second this) m
          (fun '(r1, r2, this') m' =>
             size (flyweights_ this') = S (size (flyweights_ this))
             /\ state_of r1 m' = Some first
             /\ state_of r2 m' = Some first
             /\ exists entry : Flyweight,
                  flyweights_ this' !! GetKey second = Some entry
                  /\ state_of entry m' = Some first))
  /\ returns (GetFlyweight_twice (mkSharedState "a_b" "c" "red")
                (mkSharedState "a" "b_c" "red") {| flyweights_ := ∅ |}) empty_memory
       (fun '(r1, r2, this') m' =>
          size (flyweights_ this') = 1%nat
          /\ state_of r1 m' = Some (mkSharedState "a_b" "c" "red")
          /\ state_of r2 m' = Some (mkSharedState "a_b" "c" "red")
          /\ cout m' = [ "FlyweightFactory: Cannot find a flyweight, creating new one." +:+ nl;
                         "FlyweightFactory: Reusing existing flyweight." +:+ nl ]).
Proof.
  split; [reflexivity |].
  split; [intros color; repeat split; discriminate |].
  split; [| by vm_compute].
  intros first second this m Hok Hnone Hkey.
  pose proof (GetFlyweight_twice_same_key first second this m Hok Hkey) as H.
  unfold returns in *.
  destruct (GetFlyweight_twice first second this m) as [[[[r1 r2] this'] m']|]; [| done].
  destruct H as (entry & st & line & Hentry & Hst & Hr1 & Hr2 & _ & _ & _ & _ & Hcase).
  rewrite Hnone in Hcase. destruct Hcase as [-> Hmap].
  split; [rewrite Hmap; by apply map_size_insert_None |].
  split; [done |]. split; [done |].
  exists entry. by rewrite <- Hkey.
Qed.

End FlyweightProofs.

Module SingletonThreadProofs.
Import Singleton.

Lemma start_lookup (values : list string) (i : nat) (p : pc) :
  threads (start values) !! i = Some p -> exists value, p = at_lock value.
Proof.
  unfold start. cbn [threads]. rewrite list_lookup_fmap.
  destruct (values !! i) as [v|]; [| done]. intros [= <-]. by exists v.
Qed.

Lemma invariant_start (values : list string) : invariant (start values).
Proof.
  split.
  - intros i p [v ->]%start_lookup. done.
  - done.
  - done.
  - done.
  - intros i v [v' ?]%start_lookup. done.
  - intros i [v' ?]%start_lookup. done.
  - intros i r [v' ?]%start_lookup. done.
  - intros i r [v' ?]%start_lookup. done.
Qed.

Lemma lookup_after_step (ts : list pc) (t i : nat) (p p' q : pc) :
  ts !! t = Some p ->
  <[t := p']> ts !! i = Some q ->
  (i = t /\ q = p') \/ (i <> t /\ ts !! i = Some q).
Proof.
  intros Ht Hi. destruct (decide (i = t)) as [->|Hne].
  - left. split; [done |].
    rewrite list_lookup_insert_eq in Hi by (by eapply lookup_lt_Some). congruence.
  - right. split; [done |]. by rewrite list_lookup_insert_ne in Hi.
Qed.

Ltac thread_cases Ht Hi :=
  apply (lookup_after_step _ _ _ _ _ _ Ht) in Hi as [[-> Hi]|[? Hi]];
  [ try discriminate Hi | ].

Lemma step_preserves_invariant (w : World) (t : nat) (p p' : pc) (s' : Statics) :
  invariant w ->
  threads w !! t = Some p ->
  step t p (statics w) = Some (p', s') ->
  invariant {| statics := s'; threads := <[t := p']> (threads w) |}.
Proof.
  intros [Iown Iheld Inull Iset Inew Iret Iunl Ired] Ht Hstep.
  destruct w as [s ts]. cbn [statics threads] in *.
  assert (Hself : <[t := p']> ts !! t = Some p').
  { apply list_lookup_insert_eq. by eapply lookup_lt_Some. }
  assert (Hother : forall i q, i <> t -> ts !! i = Some q ->
            in_critical_section p = true -> in_critical_section q = false).
  { intros i q Hne Hi Hp. destruct (in_critical_section q) eqn:Hq; [| done].
    pose proof (Iown _ _ Hi Hq). pose proof (Iown _ _ Ht Hp). congruence. }
  destruct p as [v|v|v| |r|r]; cbn in Hstep.
  - (* at_lock: the mutex is free and gets taken *)
    destruct (m_mutex s) as [o|] eqn:Hm; [done |]. injection Hstep as <- <-.
    split; cbn [statics threads m_mutex m_instance_ptr heap].
    + intros i q Hi Hq. thread_cases Ht Hi; [done |].
      pose proof (Iown _ _ Hi Hq). congruence.
    + intros i [= <-]. eexists. split; [exact Hself | done].
    + first [assumption | done].
    + first [assumption | done].
    + intros i v' Hi. thread_cases Ht Hi. eauto.
    + intros i Hi. thread_cases Ht Hi. eauto.
    + intros i r Hi. thread_cases Ht Hi. eauto.
    + intros i r Hi. thread_cases Ht Hi. eauto.
  - (* at_check: the test of the pointer *)
    pose proof (Iown _ _ Ht eq_refl) as Hm.
    destruct (m_instance_ptr s) as [l|] eqn:Hptr; injection Hstep as <- <-.
    + split; cbn [statics threads]; rewrite ?Hptr.
      * intros i q Hi Hq. thread_cases Ht Hi; eauto.
      * intros i Hi. rewrite Hm in Hi. injection Hi as <-.
        eexists. split; [exact Hself | done].
      * rewrite ?Hptr. first [assumption | done].
      * rewrite ?Hptr. first [assumption | done].
      * intros i v' Hi. thread_cases Ht Hi. eauto.
      * intros i Hi. by eexists.
      * intros i r Hi. thread_cases Ht Hi. eauto.
      * intros i r Hi. thread_cases Ht Hi. eauto.
    + split; cbn [statics threads]; rewrite ?Hptr.
      * intros i q Hi Hq. thread_cases Ht Hi; eauto.
      * intros i Hi. rewrite Hm in Hi. injection Hi as <-.
        eexists. split; [exact Hself | done].
      * rewrite ?Hptr. first [assumption | done].
      * rewrite ?Hptr. first [assumption | done].
      * intros i v' Hi. done.
      * intros i Hi. thread_cases Ht Hi. eauto.
      * intros i r Hi. thread_cases Ht Hi. eauto.
      * intros i r Hi. thread_cases Ht Hi. eauto.
  - (* at_new: the instance is created and the pointer set *)
    pose proof (Iown _ _ Ht eq_refl) as Hm.
    pose proof (Inew _ _ Ht) as Hnull.
    pose proof (Inull Hnull) as Hheap.
    injection Hstep as <- <-.
    split; cbn [statics threads create m_mutex m_instance_ptr heap].
    + intros i q Hi Hq. thread_cases Ht Hi; eauto.
    + intros i Hi. rewrite Hm in Hi. injection Hi as <-.
      eexists. split; [exact Hself | done].
    + first [assumption | done].
    + intros l [= <-]. rewrite Hheap. eexists. by rewrite insert_empty.
    + intros i v' Hi. thread_cases Ht Hi.
      by pose proof (Hother _ _ ltac:(eassumption) Hi eq_refl).
    + intros i Hi. by eexists.
    + intros i r Hi. thread_cases Ht Hi.
      by pose proof (Hother _ _ ltac:(eassumption) Hi eq_refl).
    + intros i r Hi. thread_cases Ht Hi.
      destruct (Ired _ _ Hi) as [-> [x Hx]]. congruence.
  - (* at_return: the pointer is read *)
    pose proof (Iown _ _ Ht eq_refl) as Hm.
    injection Hstep as <- <-.
    split; cbn [statics threads].
    + intros i q Hi Hq. thread_cases Ht Hi; eauto.
    + intros i Hi. rewrite Hm in Hi. injection Hi as <-.
      eexists. split; [exact Hself | done].
    + first [assumption | done].
    + first [assumption | done].
    + intros i v' Hi. thread_cases Ht Hi. eauto.
    + intros i Hi. thread_cases Ht Hi; eauto.
    + intros i r Hi. thread_cases Ht Hi; [| eauto].
      injection Hi as ->. split; [done | eauto].
    + intros i r Hi. thread_cases Ht Hi. eauto.
  - (* at_unlock: the mutex is released *)
    pose proof (Iown _ _ Ht eq_refl) as Hm.
    injection Hstep as <- <-.
    split; cbn [statics threads m_mutex m_instance_ptr heap].
    + intros i q Hi Hq. thread_cases Ht Hi; [by subst q |].
      pose proof (Hother _ _ ltac:(eassumption) Hi eq_refl). congruence.
    + first [assumption | done].
    + first [assumption | done].
    + first [assumption | done].
    + intros i v' Hi. thread_cases Ht Hi. eauto.
    + intros i Hi. thread_cases Ht Hi. eauto.
    + intros i r' Hi. thread_cases Ht Hi. eauto.
    + intros i r' Hi. thread_cases Ht Hi; [| eauto].
      injection Hi as ->. eauto.
  - done.
Qed.

Lemma run_thread_invariant (t : nat) (w : World) :
  invariant w -> invariant (run_thread t w).
Proof.
  intros Hinv. unfold run_thread.
  destruct (threads w !! t) as [p|] eqn:Ht; [| done].
  destruct (step t p (statics w)) as [[p' s']|] eqn:Hstep; [| done].
  by eapply step_preserves_invariant.
Qed.

Lemma run_schedule_snoc (schedule : list nat) (t : nat) (w : World) :
  run_schedule (schedule ++ [t]) w = run_thread t (run_schedule schedule w).
Proof. unfold run_schedule. by rewrite foldl_app. Qed.

Lemma run_schedule_invariant (schedule : list nat) (w : World) :
  invariant w -> invariant (run_schedule schedule w).
Proof.
  intros Hinv. induction schedule as [|t schedule IH] using rev_ind; [done |].
  rewrite run_schedule_snoc. by apply run_thread_invariant.
Qed.

(** The schedules give exactly the worlds the interleaving relation
    reaches. *)
Lemma interleave_run_thread (w w' : World) :
  interleave w w' -> exists t, w' = run_thread t w.
Proof.
  intros [t p p' s' w0 Ht Hstep]. exists t. unfold run_thread. by rewrite Ht, Hstep.
Qed.

Lemma interleave_schedule (w w' : World) :
  rtc interleave w w' -> exists schedule, w' = run_schedule schedule w.
Proof.
  induction 1 as [w|w w1 w2 Hstep _ [schedule ->]].
  - by exists [].
  - destruct (interleave_run_thread _ _ Hstep) as [t ->]. by exists (t :: schedule).
Qed.

Lemma run_thread_interleave (t : nat) (w : World) :
  rtc interleave w (run_thread t w).
Proof.
  unfold run_thread.
  destruct (threads w !! t) as [p|] eqn:Ht; [| done].
  destruct (step t p (statics w)) as [[p' s']|] eqn:Hstep; [| done].
  apply rtc_once. by econstructor.
Qed.

Lemma run_schedule_interleave (schedule : list nat) (w : World) :
  rtc interleave w (run_schedule schedule w).
Proof.
  revert w. induction schedule as [|t schedule IH]; intros w; [done |].
  etrans; [apply (run_thread_interleave t) | apply IH].
Qed.

(** While a call is not over, some thread can move. *)
Lemma no_deadlock (w : World) (i : nat) (p : pc) :
  invariant w ->
  threads w !! i = Some p -> is_returned p = false ->
  exists t q q' s', threads w !! t = Some q /\ step t q (statics w) = Some (q', s').
Proof.
  intros Hinv Hi Hp.
  destruct (m_mutex (statics w)) as [o|] eqn:Hm.
  - destruct (inv_held w Hinv o Hm) as (q & Hq & Hcs).
    exists o, q. destruct q; try done; cbn; eauto.
    destruct (m_instance_ptr (statics w)); eauto.
  - exists i, p. destruct p as [v|v|v| |r|r]; try done;
      try (pose proof (inv_owner w Hinv _ _ Hi eq_refl); congruence).
    cbn. rewrite Hm. eauto.
Qed.

Lemma step_remaining (t : nat) (p p' : pc) (s s' : Statics) :
  step t p s = Some (p', s') -> remaining p' < remaining p.
Proof.
  destruct p; cbn; intros H; try (injection H as <- <-; cbn; lia); try done.
  - destruct (m_mutex s); [done |]. injection H as <- <-. cbn. lia.
  - destruct (m_instance_ptr s); injection H as <- <-; cbn; lia.
Qed.

Lemma sum_list_insert_lt (ts : list pc) (t : nat) (p p' : pc) :
  ts !! t = Some p -> remaining p' < remaining p ->
  sum_list (remaining <$> <[t := p']> ts) < sum_list (remaining <$> ts).
Proof.
  revert t. induction ts as [|q ts IH]; intros [|t] Ht Hlt; try done.
  - injection Ht as ->. cbn. lia.
  - specialize (IH t Ht Hlt). change (<[S t := p']> (q :: ts)) with (q :: <[t := p']> ts).
    rewrite !fmap_cons. cbn [sum_list sum_list_with]. lia.
Qed.

Lemma all_returned_or_not (ts : list pc) :
  (forall i p, ts !! i = Some p -> is_returned p = true)
  \/ (exists i p, ts !! i = Some p /\ is_returned p = false).
Proof.
  induction ts as [|q ts [IH|(i & p & Hi & Hp)]].
  - left. by intros i p.
  - destruct (is_returned q) eqn:Hq.
    + left. intros [|i] p Hi; [by injection Hi as <- | by eapply IH].
    + right. by exists 0, q.
  - right. by exists (S i), p.
Qed.

(** Every world of an interleaving can be run on until every call has
    returned. *)
Lemma can_complete (w : World) :
  invariant w ->
  exists schedule,
    forall i p, threads (run_schedule schedule w) !! i = Some p -> is_returned p = true.
Proof.
  remember (work_left w) as n eqn:Hn. revert w Hn.
  induction n as [n IH] using lt_wf_ind. intros w -> Hinv.
  destruct (all_returned_or_not (threads w)) as [Hall|(i & p & Hi & Hp)].
  - by exists [].
  - destruct (no_deadlock w i p Hinv Hi Hp) as (t & q & q' & s' & Ht & Hstep).
    assert (Hrun : run_thread t w = {| statics := s'; threads := <[t := q']> (threads w) |}).
    { unfold run_thread. by rewrite Ht, Hstep. }
    destruct (IH (work_left (run_thread t w))) with (w := run_thread t w)
      as [schedule Hdone].
    + rewrite Hrun. unfold work_left. cbn [threads].
      eapply sum_list_insert_lt; [done |]. by eapply step_remaining.
    + done.
    + by apply run_thread_invariant.
    + exists (t :: schedule). exact Hdone.
Qed.

Lemma run_schedule_threads_length (schedule : list nat) (w : World) :
  List.length (threads (run_schedule schedule w)) = List.length (threads w).
Proof.
  induction schedule as [|t schedule IH] using rev_ind; [done |].
  rewrite run_schedule_snoc, <- IH. unfold run_thread.
  destruct (threads _ !! t) as [p|]; [| done].
  destruct (step t p _) as [[p' s']|]; [| done].
  cbn. by rewrite length_insert.
Qed.

(** The steps are those of the call: one thread running alone from a
    free mutex goes through [GetInstance] as defined for the sequential
    program. *)
Lemma GetInstance_thread_alone (value : string) (s s' : Statics) (r : option positive) :
  GetInstance value s = Some (r, s') ->
  run_schedule (replicate 5 0) {| statics := s; threads := [at_lock value] |}
  = {| statics := s'; threads := [returned r] |}.
Proof.
  destruct s as [ptr mtx h]. unfold GetInstance. cbn [m_mutex m_instance_ptr].
  destruct mtx as [o|]; [done |].
  destruct ptr as [l|]; intros [= <- <-]; reflexivity.
Qed.

(** C5. Any number of threads call [GetInstance] concurrently on the
    uninitialized singleton, each with its own argument, and run under any
    interleaving of their steps.  In every world reached: at most one
    thread is between taking and releasing the mutex, so the test and the
    creation are serialized; at most one [Singleton] has been constructed;
    a call that has returned has returned the address of the one constructed
    object, which [m_instance_ptr] holds, so all callers get the same
    instance; and the world can always be run on until every call has
    returned. *)
Theorem concurrent_GetInstance_constructs_once
    (values : list string) (schedule : list nat) :
  let w := run_schedule schedule (start values) in
  (forall i j p q,
      threads w !! i = Some p -> threads w !! j = Some q ->
      in_critical_section p = true -> in_critical_section q = true -> i = j)
  /\ constructed (statics w) <= 1
  /\ (forall i r,
        threads w !! i = Some (returned r) ->
        exists (l : positive) (obj : Singleton),
          r = Some l
          /\ m_instance_ptr (statics w) = Some l
          /\ heap (statics w) = {[ l := obj ]}
          /\ constructed (statics w) = 1)
  /\ (forall i j r r',
        threads w !! i = Some (returned r) ->
        threads w !! j = Some (returned r') -> r = r')
  /\ List.length (threads w) = List.length values
  /\ (exists rest,
        forall i p, threads (run_schedule rest w) !! i = Some p -> is_returned p = true).
Proof.
  intros w.
  assert (Hinv : invariant w) by apply run_schedule_invariant, invariant_start.
  split; [| split; [| split; [| split; [| split]]]].
  - intros i j p q Hi Hj Hp Hq.
    pose proof (inv_owner w Hinv _ _ Hi Hp). pose proof (inv_owner w Hinv _ _ Hj Hq).
    congruence.
  - unfold constructed. destruct (m_instance_ptr (statics w)) as [l|] eqn:Hptr.
    + destruct (inv_set w Hinv l Hptr) as [obj ->]. rewrite map_size_singleton. lia.
    + rewrite (inv_null w Hinv Hptr), map_size_empty. lia.
  - intros i r Hi. destruct (inv_returned w Hinv _ _ Hi) as [-> [l Hl]].
    destruct (inv_set w Hinv l Hl) as [obj Hobj].
    exists l, obj. unfold constructed. rewrite Hobj. by rewrite map_size_singleton.
  - intros i j r r' Hi Hj.
    destruct (inv_returned w Hinv _ _ Hi) as [-> _].
    by destruct (inv_returned w Hinv _ _ Hj) as [-> _].
  - unfold w. rewrite run_schedule_threads_length. unfold start. cbn. by rewrite length_fmap.
  - by apply can_complete.
Qed.

End SingletonThreadProofs.

Module FlyweightCacheProofs.
Import Flyweight FlyweightProofs.

Lemma returns_bind {A B : Type} (c : M A) (k : A -> M B) (m : Memory)
    (mid : A -> Memory -> Prop) (post : B -> Memory -> Prop) :
  returns c m mid ->
  (forall x m', mid x m' -> returns (k x) m' post) ->
  returns (y ← c; k y) m post.
Proof.
  unfold returns, mbind, M_bind, bind. intros Hc Hk.
  destruct (c m) as [[x m']|]; [| done]. by apply Hk.
Qed.

Lemma returns_weaken {A : Type} (c : M A) (m : Memory)
    (post post' : A -> Memory -> Prop) :
  returns c m post -> (forall x m', post x m' -> post' x m') -> returns c m post'.
Proof.
  unfold returns. intros Hc H. destruct (c m) as [[x m']|]; [| done]. by apply H.
Qed.

Lemma returns_eq {A : Type} (c : M A) (m m' : Memory) (x : A)
    (post : A -> Memory -> Prop) :
  c m = Some (x, m') -> post x m' -> returns c m post.
Proof. unfold returns. by intros ->. Qed.

Lemma cache_inv_empty (out : list string) :
  cache_inv {| flyweights_ := ∅ |} {| heap := ∅; cout := out |}.
Proof.
  split; cbn.
  - intros key fw H. by rewrite lookup_empty in H.
  - intros k1 k2 fw1 fw2 H. by rewrite lookup_empty in H.
  - intros p [ss H]. by rewrite lookup_empty in H.
Qed.

Lemma cache_inv_cout (this : FlyweightFactory) (h : gmap positive SharedState)
    (out out' : list string) :
  cache_inv this {| heap := h; cout := out |} ->
  cache_inv this {| heap := h; cout := out' |}.
Proof. intros [H1 H2 H3]. by split. Qed.

(** A new node for a new key keeps the factory and the store fitting. *)
Lemma cache_inv_insert (this : FlyweightFactory) (m : Memory) (ss : SharedState)
    (node : positive) (out : list string) :
  cache_inv this m ->
  flyweights_ this !! GetKey ss = None ->
  heap m !! node = None ->
  cache_inv {| flyweights_ := <[GetKey ss := {| shared_state_ := node |}]> (flyweights_ this) |}
            {| heap := <[node := ss]> (heap m); cout := out |}.
Proof.
  intros [Hkeyed Hunshared Hall] Hk Hnode. split; cbn [flyweights_ heap].
  - intros key fw Hl. destruct (decide (GetKey ss = key)) as [<-|Hne].
    + rewrite lookup_insert_eq in Hl. injection Hl as <-. exists ss.
      by rewrite lookup_insert_eq.
    + rewrite lookup_insert_ne in Hl by done.
      destruct (Hkeyed _ _ Hl) as (st & Hst & Hkey). exists st. split; [| done].
      rewrite lookup_insert_ne; [done |]. intros Heq. rewrite <- Heq in Hst. congruence.
  - intros k1 k2 fw1 fw2 H1 H2 Heq.
    destruct (decide (GetKey ss = k1)) as [<-|Hne1];
      destruct (decide (GetKey ss = k2)) as [<-|Hne2]; [done | | |].
    + rewrite lookup_insert_eq in H1. injection H1 as <-.
      rewrite lookup_insert_ne in H2 by done.
      destruct (Hkeyed _ _ H2) as (st & Hst & _). cbn in Heq. congruence.
    + rewrite lookup_insert_eq in H2. injection H2 as <-.
      rewrite lookup_insert_ne in H1 by done.
      destruct (Hkeyed _ _ H1) as (st & Hst & _). cbn in Heq. congruence.
    + rewrite lookup_insert_ne in H1, H2 by done. eauto.
  - intros p Hp. destruct (decide (node = p)) as [<-|Hne].
    + exists (GetKey ss). by rewrite lookup_insert_eq.
    + rewrite lookup_insert_ne in Hp by done.
      destruct (Hall _ Hp) as [key Hkey]. exists key.
      rewrite lookup_insert_ne; [done |]. intros <-. congruence.
Qed.

Lemma cached_state_present (this : FlyweightFactory) (m : Memory)
    (key : string) (fw : Flyweight) :
  cache_inv this m -> flyweights_ this !! key = Some fw ->
  exists st, cached_state key this m = Some st /\ GetKey st = key
             /\ heap m !! shared_state_ fw = Some st.
Proof.
  intros Hinv Hl. destruct (cache_keyed _ _ Hinv _ _ Hl) as (st & Hst & Hkey).
  exists st. unfold cached_state, state_of. rewrite Hl. by cbn.
Qed.

Lemma cached_state_absent (this : FlyweightFactory) (m : Memory) (key : string) :
  flyweights_ this !! key = None -> cached_state key this m = None.
Proof. intros Hl. unfold cached_state. by rewrite Hl. Qed.

(** With the key present the insertion only builds and destroys its two
    temporaries. *)
Lemma insert_new_flyweight_present (key : string) (ss : SharedState)
    (this : FlyweightFactory) (fw : Flyweight) (m : Memory) :
  flyweights_ this !! key = Some fw ->
  insert_new_flyweight key ss this m = Some (this, m).
Proof.
  intros Hk. destruct m as [h out].
  set (l1 := fresh (dom h)). set (h1 := <[l1 := ss]> h).
  set (l2 := fresh (dom h1)). set (h2 := <[l2 := ss]> h1).
  assert (Hl1 : h !! l1 = None) by apply fresh_notin.
  assert (H21 : l2 <> l1) by apply fresh_insert_ne.
  assert (Hl2 : h !! l2 = None) by apply fresh_insert_notin.
  unfold insert_new_flyweight.
  erewrite bind_eq by apply Flyweight_new_eq. cbn [heap cout]. fold l1 h1.
  erewrite bind_eq by (apply (Flyweight_copy_eq _ ss); apply lookup_insert_eq).
  cbn [heap cout]. fold l2 h2.
  rewrite Hk.
  erewrite bind_eq by reflexivity.
  erewrite bind_eq; cycle 1.
  { apply (Flyweight_destroy_eq _ ss). cbn. apply lookup_insert_eq. }
  erewrite bind_eq; cycle 1.
  { apply (Flyweight_destroy_eq _ ss). cbn.
    rewrite lookup_delete_ne by done. unfold h2. rewrite lookup_insert_ne by done.
    apply lookup_insert_eq. }
  unfold mret, M_ret, ret. do 2 f_equal. cbn. f_equal.
  unfold h2, h1.
  rewrite delete_insert_eq.
  rewrite (delete_insert_ne _ l2 l1) by done.
  rewrite delete_insert_eq.
  rewrite (delete_id h l2) by done.
  by rewrite (delete_id h l1).
Qed.

(** One element of the initializer list. *)
Lemma insert_new_flyweight_inv (ss : SharedState) (this : FlyweightFactory) (m : Memory) :
  cache_inv this m ->
  returns (insert_new_flyweight (GetKey ss) ss this) m
    (fun this' m' =>
       cache_inv this' m' /\ cout m' = cout m
       /\ forall key, cached_state key this' m'
                      = match cached_state key this m with
                        | Some st => Some st
                        | None => if decide (GetKey ss = key) then Some ss else None
                        end).
Proof.
  intros Hinv. destruct (flyweights_ this !! GetKey ss) as [fw|] eqn:Hk.
  - eapply returns_eq; [by eapply insert_new_flyweight_present |].
    split; [done |]. split; [done |]. intros key.
    destruct (cached_state key this m) as [st|] eqn:Hc; [done |].
    destruct (decide (GetKey ss = key)) as [<-|]; [| done].
    destruct (cached_state_present _ _ _ _ Hinv Hk) as (st & Hst & _). congruence.
  - destruct (insert_new_flyweight_absent (GetKey ss) ss this m Hk)
      as (node & Hnode & Heq).
    eapply returns_eq; [exact Heq |].
    split; [by apply cache_inv_insert |]. split; [done |]. intros key.
    unfold cached_state, state_of. cbn [flyweights_ heap].
    destruct (decide (GetKey ss = key)) as [<-|Hne].
    + rewrite lookup_insert_eq, Hk. cbn. by rewrite lookup_insert_eq.
    + rewrite lookup_insert_ne by done.
      destruct (flyweights_ this !! key) as [fw|] eqn:Hl; [| done]. cbn.
      destruct (cache_keyed _ _ Hinv _ _ Hl) as (st & Hst & _).
      rewrite lookup_insert_ne by congruence. by rewrite Hst.
Qed.

Lemma FlyweightFactory_fill_inv (states : list SharedState) :
  forall (this : FlyweightFactory) (m : Memory),
    cache_inv this m ->
    returns (FlyweightFactory_fill states this) m
      (fun this' m' =>
         cache_inv this' m' /\ cout m' = cout m
         /\ forall key, cached_state key this' m'
                        = match cached_state key this m with
                          | Some st => Some st
                          | None => first_with_key key states
                          end).
Proof.
  induction states as [|ss states IH]; intros this m Hinv.
  - cbn. split; [done |]. split; [done |]. intros key.
    by destruct (cached_state key this m).
  - cbn [FlyweightFactory_fill].
    eapply returns_bind; [by apply insert_new_flyweight_inv |].
    intros this1 m1 (Hinv1 & Hout1 & Hst1). cbn beta.
    eapply returns_weaken; [by apply IH |].
    intros this2 m2 (Hinv2 & Hout2 & Hst2).
    split; [done |]. split; [congruence |]. intros key.
    rewrite Hst2, Hst1. cbn [first_with_key].
    destruct (cached_state key this m); [done |].
    by destruct (decide (GetKey ss = key)).
Qed.

Lemma FlyweightFactory_new_inv (states : list SharedState) :
  returns (FlyweightFactory_new states) empty_memory
    (fun this m =>
       cache_inv this m /\ cout m = []
       /\ forall key, cached_state key this m = first_with_key key states).
Proof.
  unfold FlyweightFactory_new.
  eapply returns_weaken; [apply FlyweightFactory_fill_inv, cache_inv_empty |].
  intros this m (Hinv & Hout & Hst). split; [done |]. split; [done |].
  intros key. rewrite Hst. by rewrite cached_state_absent.
Qed.


Lemma cached_state_dom (this : FlyweightFactory) (m : Memory) (key : string) :
  cache_inv this m ->
  (is_Some (cached_state key this m) <-> key ∈ dom (flyweights_ this)).
Proof.
  intros Hinv. rewrite elem_of_dom. split.
  - intros [st Hst]. unfold cached_state in Hst.
    destruct (flyweights_ this !! key); [by eexists | done].
  - intros [fw Hl]. destruct (cached_state_present _ _ _ _ Hinv Hl) as (st & Hst & _).
    by eexists.
Qed.

Lemma first_with_key_Some (key : string) (states : list SharedState) :
  is_Some (first_with_key key states) <-> key ∈ GetKey <$> states.
Proof.
  induction states as [|ss states IH]; cbn.
  - split; [by intros [? ?] | by intros ?%elem_of_nil].
  - rewrite elem_of_cons. destruct (decide (GetKey ss = key)) as [<-|Hne].
    + split; [by left | by eexists].
    + rewrite IH. split; [by right | by intros [->|H]].
Qed.

Lemma first_with_key_key (key : string) (states : list SharedState) (st : SharedState) :
  first_with_key key states = Some st -> GetKey st = key /\ st ∈ states.
Proof.
  induction states as [|ss states IH]; cbn; [done |].
  destruct (decide (GetKey ss = key)) as [<-|Hne].
  - intros [= <-]. split; [done | by left].
  - intros H. destruct (IH H). split; [done | by right].
Qed.

(** X1. The constructor caches, for every key of the initializer list,
    the first state of the list with that key and nothing else; later
    states with a key already seen are dropped.  The temporaries built on
    the way are all freed: afterwards the free store holds exactly one
    state per cached flyweight, no two flyweights share one, and nothing
    has been printed. *)
Theorem FlyweightFactory_new_caches_first_state (states : list SharedState) :
  returns (FlyweightFactory_new states) empty_memory
    (fun this m =>
       cache_inv this m
       /\ cout m = []
       /\ dom (flyweights_ this) = list_to_set (GetKey <$> states)
       /\ (forall key, cached_state key this m = first_with_key key states)
       /\ (forall key st, cached_state key this m = Some st ->
                          GetKey st = key /\ st ∈ states)).
Proof.
  eapply returns_weaken; [apply FlyweightFactory_new_inv |].
  intros this m (Hinv & Hout & Hst).
  split; [done |]. split; [done |]. split; [| split; [done |]].
  - apply set_eq. intros key.
    rewrite <- (cached_state_dom this m key Hinv), Hst, first_with_key_Some.
    by rewrite elem_of_list_to_set.
  - intros key st. rewrite Hst. apply first_with_key_key.
Qed.

(** What a request does to the cache, in full. *)
Lemma GetFlyweight_inv (ss : SharedState) (this : FlyweightFactory) (m : Memory) :
  cache_inv this m ->
  returns (GetFlyweight ss this) m
    (fun '(result, this') m' =>
       exists (st : SharedState) (line : string),
         heap m !! shared_state_ result = None
         /\ heap m' !! shared_state_ result = Some st
         /\ flyweights_ this ⊆ flyweights_ this'
         /\ cached_state (GetKey ss) this' m' = Some st
         /\ cout m' = (cout m ++ [line])%list
         /\ cache_inv this' {| heap := delete (shared_state_ result) (heap m');
                               cout := cout m' |}
         /\ (forall key,
               cached_state key this'
                 {| heap := delete (shared_state_ result) (heap m'); cout := cout m' |}
               = cached_state key this' m')
         /\ (forall key,
               cached_state key this' m'
               = match cached_state key this m with
                 | Some s => Some s
                 | None => if decide (GetKey ss = key) then Some ss else None
                 end)).
Proof.
  intros Hinv. destruct m as [h out].
  destruct (flyweights_ this !! GetKey ss) as [fw|] eqn:Hk.
  - destruct (cached_state_present _ _ _ _ Hinv Hk) as (st & Hcst & Hkey & Hst).
    cbn [heap] in Hst.
    eapply returns_eq; [by apply (GetFlyweight_hit ss st this fw) |].
    cbn [heap cout shared_state_].
    set (r := fresh (dom h)).
    assert (Hr : h !! r = None) by apply fresh_notin.
    assert (Hdel : delete r (<[r := st]> h) = h).
    { rewrite delete_insert_eq. by apply delete_id. }
    assert (Hsame : forall key out',
              cached_state key this {| heap := <[r := st]> h; cout := out' |}
              = cached_state key this {| heap := h; cout := out |}).
    { intros key out'. unfold cached_state, state_of. cbn [heap].
      destruct (flyweights_ this !! key) as [fw'|] eqn:Hl; [| done]. cbn.
      destruct (cache_keyed _ _ Hinv _ _ Hl) as (st' & Hst' & _). cbn [heap] in Hst'.
      rewrite lookup_insert_ne by congruence. done. }
    eexists st, _. split; [done |]. split; [apply lookup_insert_eq |].
    split; [done |].
    split; [by rewrite Hsame |]. split; [done |].
    rewrite Hdel. split; [by eapply cache_inv_cout |].
    split.
    + intros key. rewrite Hsame. unfold cached_state, state_of. done.
    + intros key. rewrite Hsame.
      destruct (cached_state key this _) as [s|] eqn:Hc; [done |].
      destruct (decide (GetKey ss = key)) as [<-|]; [congruence | done].
  - destruct (GetFlyweight_miss ss this {| heap := h; cout := out |} Hk)
      as (node & r & Hnode & Hr & Hrn & Heq).
    cbn [heap cout] in *.
    eapply returns_eq; [exact Heq |].
    cbn [heap cout shared_state_].
    assert (Hdel : delete r (<[r := ss]> (<[node := ss]> h)) = <[node := ss]> h).
    { rewrite delete_insert_eq. apply delete_id. by rewrite lookup_insert_ne. }
    assert (Hinv' : forall out', cache_inv
              {| flyweights_ := <[GetKey ss := {| shared_state_ := node |}]> (flyweights_ this) |}
              {| heap := <[node := ss]> h; cout := out' |}).
    { intros out'. by apply (cache_inv_insert this {| heap := h; cout := out |}). }
    assert (Hsame : forall key out',
              cached_state key
                {| flyweights_ := <[GetKey ss := {| shared_state_ := node |}]> (flyweights_ this) |}
                {| heap := <[r := ss]> (<[node := ss]> h); cout := out' |}
              = cached_state key
                {| flyweights_ := <[GetKey ss := {| shared_state_ := node |}]> (flyweights_ this) |}
                {| heap := <[node := ss]> h; cout := out' |}).
    { intros key out'. unfold cached_state, state_of. cbn [heap flyweights_].
      destruct (_ !! key) as [fw'|] eqn:Hl; [| done]. cbn.
      destruct (cache_keyed _ _ (Hinv' out') _ _ Hl) as (st' & Hst' & _).
      cbn [heap] in Hst'. rewrite lookup_insert_ne; [done |].
      intros Heq'. rewrite <- Heq' in Hst'. rewrite lookup_insert_ne in Hst' by done.
      congruence. }
    assert (Hnew : forall key out',
              cached_state key
                {| flyweights_ := <[GetKey ss := {| shared_state_ := node |}]> (flyweights_ this) |}
                {| heap := <[node := ss]> h; cout := out' |}
              = match cached_state key this {| heap := h; cout := out |} with
                | Some s => Some s
                | None => if decide (GetKey ss = key) then Some ss else None
                end).
    { intros key out'. unfold cached_state, state_of. cbn [heap flyweights_].
      destruct (decide (GetKey ss = key)) as [<-|Hne].
      - rewrite lookup_insert_eq, Hk. cbn. by rewrite lookup_insert_eq.
      - rewrite lookup_insert_ne by done.
        destruct (flyweights_ this !! key) as [fw'|] eqn:Hl; [| done]. cbn.
        destruct (cache_keyed _ _ Hinv _ _ Hl) as (st' & Hst' & _). cbn [heap] in Hst'.
        rewrite lookup_insert_ne by congruence. by rewrite Hst'. }
    eexists ss, _. split; [done |]. split; [apply lookup_insert_eq |].
    split; [by apply insert_subseteq |].
    split.
    { rewrite Hsame, Hnew. rewrite (cached_state_absent _ _ _ Hk).
      by rewrite decide_True. }
    split; [done |]. rewrite Hdel. split; [apply Hinv' |].
    split; [intros key; by rewrite Hsame |].
    intros key. by rewrite Hsame, Hnew.
Qed.


Lemma cached_state_extend (this this' : FlyweightFactory) (m m' : Memory) (ss : SharedState) :
  cache_inv this m ->
  (forall key, cached_state key this' m'
               = match cached_state key this m with
                 | Some s => Some s
                 | None => if decide (GetKey ss = key) then Some ss else None
                 end) ->
  (forall key, key ∈ dom (flyweights_ this) ->
               cached_state key this' m' = cached_state key this m)
  /\ (forall key, is_Some (cached_state key this' m')
                  <-> key ∈ ({[GetKey ss]} ∪ dom (flyweights_ this) : gset string)).
Proof.
  intros Hinv Hext. split.
  - intros key [st Hst]%(cached_state_dom this m key Hinv). by rewrite Hext, Hst.
  - intros key. rewrite Hext, elem_of_union, elem_of_singleton.
    rewrite <- (cached_state_dom this m key Hinv).
    destruct (cached_state key this m) as [s|].
    + split; [by right | by eexists].
    + destruct (decide (GetKey ss = key)) as [<-|Hne].
      * split; [by left | by eexists].
      * split; [by intros [? ?] | intros [->|[? ?]]; done].
Qed.

(** X2. A request never removes or replaces a cached entry and never
    changes a cached state; the keys afterwards are the keys before and
    the requested key.  The object returned holds the state cached under
    the requested key, whose key is the requested one.  Once that object
    is destroyed the factory and the free store fit again. *)
Theorem GetFlyweight_keeps_cache (ss : SharedState) (this : FlyweightFactory) (m : Memory) :
  cache_inv this m ->
  returns (GetFlyweight ss this) m
    (fun '(result, this') m' =>
       flyweights_ this ⊆ flyweights_ this'
       /\ dom (flyweights_ this') = {[GetKey ss]} ∪ dom (flyweights_ this)
       /\ (forall key, key ∈ dom (flyweights_ this) ->
                       cached_state key this' m' = cached_state key this m)
       /\ (exists st, state_of result m' = Some st
                      /\ cached_state (GetKey ss) this' m' = Some st
                      /\ GetKey st = GetKey ss)
       /\ cache_inv this' {| heap := delete (shared_state_ result) (heap m');
                             cout := cout m' |}).
Proof.
  intros Hinv. eapply returns_weaken; [by apply GetFlyweight_inv |].
  intros [result this'] m' (st & line & Hnew & Hres & Hsub & Hcached & Hout & Hinv' & Hdel & Hext).
  destruct (cached_state_extend this this' m m' ss Hinv Hext) as [Hold Hdom].
  split; [done |]. split; [| split; [done | split; [| done]]].
  - apply set_eq. intros key. rewrite <- Hdom, <- Hdel.
    symmetry. apply (cached_state_dom _ _ _ Hinv').
  - exists st. split; [done |]. split; [done |].
    rewrite <- Hdel in Hcached. unfold cached_state in Hcached.
    destruct (flyweights_ this' !! GetKey ss) as [fw|] eqn:Hl; [| done].
    destruct (cached_state_present _ _ _ _ Hinv' Hl) as (st' & Hst' & Hkey & _).
    unfold cached_state in Hst'. rewrite Hl in Hst'. cbn in *. congruence.
Qed.

Lemma Operation_eq (us : UniqueState) (fw : Flyweight) (st : SharedState) (m : Memory) :
  heap m !! shared_state_ fw = Some st ->
  Operation us fw m
  = Some (tt, {| heap := heap m;
                 cout := (cout m ++ ["Flyweight: Displaying shared (" +:+ show_SharedState st
                                     +:+ ") and unique (" +:+ show_UniqueState us
                                     +:+ ") state." +:+ nl])%list |}).
Proof.
  intros H. unfold Operation. erewrite bind_eq; [reflexivity |].
  unfold load. by rewrite H.
Qed.

(** X3. Adding a car keeps the factory and the free store fitting: the
    flyweight obtained is destroyed again, nothing leaks and nothing that
    is cached is freed.  The cache keeps its entries and gains at most the
    car's key.  Three lines are printed, the last showing the state cached
    under the car's key together with the owner and plates given. *)
Theorem AddCarToDatabase_keeps_cache (plates owner brand model color : string)
    (ff : FlyweightFactory) (m : Memory) :
  cache_inv ff m ->
  returns (AddCarToDatabase plates owner brand model color ff) m
    (fun ff' m' =>
       let key := GetKey (mkSharedState brand model color) in
       cache_inv ff' m'
       /\ flyweights_ ff ⊆ flyweights_ ff'
       /\ dom (flyweights_ ff') = {[key]} ∪ dom (flyweights_ ff)
       /\ (forall k, k ∈ dom (flyweights_ ff) ->
                     cached_state k ff' m' = cached_state k ff m)
       /\ exists (st : SharedState) (line : string),
            cached_state key ff' m' = Some st
            /\ (flyweights_ ff !! key = None -> st = mkSharedState brand model color)
            /\ cout m'
               = (cout m
                  ++ [ nl +:+ "Client: Adding a car to the database." +:+ nl;
                       line;
                       "Flyweight: Displaying shared (" +:+ show_SharedState st
                         +:+ ") and unique ("
                         +:+ show_UniqueState (mkUniqueState owner plates)
                         +:+ ") state." +:+ nl ])%list).
Proof.
  intros Hinv. destruct m as [h out].
  set (ss := mkSharedState brand model color).
  set (m0 := {| heap := h;
                cout := (out ++ [nl +:+ "Client: Adding a car to the database." +:+ nl])%list |}).
  assert (Hinv0 : cache_inv ff m0) by (by eapply cache_inv_cout).
  pose proof (GetFlyweight_inv ss ff m0 Hinv0) as Hget.
  unfold returns in Hget |- *. unfold AddCarToDatabase.
  erewrite bind_eq by apply print_eq. cbn [heap cout]. fold ss m0.
  destruct (GetFlyweight ss ff m0) as [[[result ff'] m1]|] eqn:Hrun; [| done].
  destruct Hget as (st & line & Hnew & Hres & Hsub & Hcached & Hout & Hinv' & Hdel & Hext).
  erewrite bind_eq by exact Hrun. cbn [fst snd].
  erewrite bind_eq by (by apply (Operation_eq _ _ st)).
  erewrite bind_eq by (by apply (Flyweight_destroy_eq _ st)).
  cbn [heap cout mret M_ret ret].
  destruct (cached_state_extend ff ff' m0 m1 ss Hinv0 Hext) as [Hold Hdom].
  assert (Hsame : forall k out',
            cached_state k ff' {| heap := delete (shared_state_ result) (heap m1); cout := out' |}
            = cached_state k ff' m1).
  { intros k out'. by rewrite <- Hdel. }
  split; [by eapply cache_inv_cout |].
  split; [done |].
  split.
  { apply set_eq. intros k. rewrite <- Hdom, <- Hdel.
    symmetry. apply (cached_state_dom _ _ _ Hinv'). }
  split; [intros k Hk; rewrite Hsame; by apply Hold |].
  exists st, line. split; [by rewrite Hsame |]. split.
  - intros Hnone. rewrite Hext in Hcached.
    rewrite (cached_state_absent ff m0 _ Hnone) in Hcached.
    rewrite decide_True in Hcached by done. congruence.
  - rewrite Hout. unfold m0. cbn [cout]. by rewrite <- !app_assoc.
Qed.





Lemma for_each_destroy (fws : list Flyweight) :
  forall m : Memory,
    NoDup (shared_state_ <$> fws) ->
    (forall fw, fw ∈ fws -> is_Some (heap m !! shared_state_ fw)) ->
    returns (for_each Flyweight_destroy fws) m
      (fun _ m' =>
         cout m' = cout m
         /\ forall p, heap m' !! p
                      = if decide (p ∈ shared_state_ <$> fws) then None else heap m !! p).
Proof.
  induction fws as [|fw fws IH]; intros m Hnd Hlive.
  - cbn. split; [done |]. intros p. rewrite decide_False; [done |]. apply not_elem_of_nil.
  - rewrite fmap_cons in Hnd. apply NoDup_cons in Hnd as [Hnotin Hnd].
    destruct (Hlive fw) as [st Hst]; [by left |].
    cbn [for_each]. unfold returns.
    erewrite bind_eq by (by apply (Flyweight_destroy_eq _ st)).
    specialize (IH {| heap := delete (shared_state_ fw) (heap m); cout := cout m |} Hnd).
    unfold returns in IH.
    destruct (for_each Flyweight_destroy fws _) as [[[] m']|].
    + destruct IH as [Hout Hheap].
      * intros fw' Hin. cbn [heap]. rewrite lookup_delete_ne; [apply Hlive; by right |].
        intros Heq. apply Hnotin. rewrite Heq. by apply list_elem_of_fmap_2.
      * split; [done |]. intros p. rewrite Hheap. cbn [heap]. rewrite fmap_cons.
        destruct (decide (p = shared_state_ fw)) as [->|Hne].
        -- rewrite (decide_True (P := _ ∈ _ :: _)) by (by left).
           rewrite lookup_delete_eq. by destruct (decide _).
        -- rewrite lookup_delete_ne by done.
           destruct (decide (p ∈ shared_state_ <$> fws)) as [Hin|Hnin].
           ++ by rewrite decide_True by (by right).
           ++ rewrite decide_False; [done |]. by intros [?|?]%elem_of_cons.
    + apply IH. intros fw' Hin. cbn [heap]. rewrite lookup_delete_ne; [apply Hlive; by right |].
      intros Heq. apply Hnotin. rewrite Heq. by apply list_elem_of_fmap_2.
Qed.

(** X5. Destroying the factory, whatever the order in which the map
    destroys its entries, deletes every cached state exactly once and
    leaves the free store empty: no state is deleted twice and none is
    left behind. *)
Theorem FlyweightFactory_destroy_frees_all (this : FlyweightFactory) (m : Memory)
    (order : list (string * Flyweight)) :
  cache_inv this m ->
  order ≡ₚ map_to_list (flyweights_ this) ->
  returns (FlyweightFactory_destroy this) m
    (fun _ m' => heap m' = ∅ /\ cout m' = cout m)
  /\ returns (for_each Flyweight_destroy (snd <$> order)) m
       (fun _ m' => heap m' = ∅ /\ cout m' = cout m).
Proof.
  intros Hinv.
  assert (Hany : forall l : list (string * Flyweight),
            l ≡ₚ map_to_list (flyweights_ this) ->
            returns (for_each Flyweight_destroy (snd <$> l)) m
              (fun _ m' => heap m' = ∅ /\ cout m' = cout m)).
  { intros l Hl.
    assert (Hin : forall key fw, (key, fw) ∈ l <-> flyweights_ this !! key = Some fw).
    { intros key fw. rewrite Hl. apply elem_of_map_to_list. }
    eapply returns_weaken; [apply for_each_destroy |].
    - rewrite <- list_fmap_compose. apply NoDup_fmap_2_strong.
      + intros [k1 fw1] [k2 fw2] H1%Hin H2%Hin Heq. cbn in Heq.
        pose proof (cache_unshared _ _ Hinv _ _ _ _ H1 H2 Heq) as <-. congruence.
      + rewrite Hl. apply NoDup_map_to_list.
    - intros fw ([key fw'] & -> & Hfw%Hin)%list_elem_of_fmap. cbn.
      destruct (cache_keyed _ _ Hinv _ _ Hfw) as (st & Hst & _). by eexists.
    - intros [] m' [Hout Hheap]. split; [| done].
      apply map_empty. intros p. rewrite Hheap.
      destruct (decide (p ∈ shared_state_ <$> (snd <$> l))) as [|Hnin]; [done |].
      destruct (heap m !! p) as [st|] eqn:Hp; [| done].
      destruct (cache_owns_all _ _ Hinv p) as [key Hkey]; [by eexists |].
      exfalso. apply Hnin. apply list_elem_of_fmap.
      exists {| shared_state_ := p |}. split; [done |].
      apply list_elem_of_fmap. exists (key, {| shared_state_ := p |}). split; [done |].
      by apply Hin. }
  intros Horder. split; [by apply Hany | by apply Hany].
Qed.


Lemma GetFlyweight_keeps_cache_witness :
  returns (FlyweightFactory_new main_states) empty_memory
    (fun this m =>
       cache_inv this m
       /\ returns (GetFlyweight (mkSharedState "BMW" "X1" "red") this) m
            (fun '(result, this') m' =>
               flyweights_ this ⊆ flyweights_ this'
               /\ dom (flyweights_ this')
                  = {[GetKey (mkSharedState "BMW" "X1" "red")]} ∪ dom (flyweights_ this)
               /\ (forall key, key ∈ dom (flyweights_ this) ->
                               cached_state key this' m' = cached_state key this m)
               /\ (exists st, state_of result m' = Some st
                              /\ cached_state (GetKey (mkSharedState "BMW" "X1" "red")) this' m'
                                 = Some st
                              /\ GetKey st = GetKey (mkSharedState "BMW" "X1" "red"))
               /\ cache_inv this' {| heap := delete (shared_state_ result) (heap m');
                                     cout := cout m' |})).
Proof.
  eapply returns_weaken; [apply FlyweightFactory_new_inv |].
  intros this m (Hinv & _). split; [exact Hinv |].
  exact (GetFlyweight_keeps_cache (mkSharedState "BMW" "X1" "red") this m Hinv).
Defined.

Lemma AddCarToDatabase_keeps_cache_witness :
  returns (FlyweightFactory_new main_states) empty_memory
    (fun ff m =>
       cache_inv ff m
       /\ returns (AddCarToDatabase "CL234IR" "James Doe" "BMW" "M5" "red" ff) m
            (fun ff' m' =>
               let key := GetKey (mkSharedState "BMW" "M5" "red") in
               cache_inv ff' m'
               /\ flyweights_ ff ⊆ flyweights_ ff'
               /\ dom (flyweights_ ff') = {[key]} ∪ dom (flyweights_ ff)
               /\ (forall k, k ∈ dom (flyweights_ ff) ->
                             cached_state k ff' m' = cached_state k ff m)
               /\ exists (st : SharedState) (line : string),
                    cached_state key ff' m' = Some st
                    /\ (flyweights_ ff !! key = None -> st = mkSharedState "BMW" "M5" "red")
                    /\ cout m'
                       = (cout m
                          ++ [ nl +:+ "Client: Adding a car to the database." +:+ nl;
                               line;
                               "Flyweight: Displaying shared (" +:+ show_SharedState st
                                 +:+ ") and unique ("
                                 +:+ show_UniqueState (mkUniqueState "James Doe" "CL234IR")
                                 +:+ ") state." +:+ nl ])%list)).
Proof.
  eapply returns_weaken; [apply FlyweightFactory_new_inv |].
  intros ff m (Hinv & _). split; [exact Hinv |].
  exact (AddCarToDatabase_keeps_cache "CL234IR" "James Doe" "BMW" "M5" "red" ff m Hinv).
Defined.


Lemma FlyweightFactory_destroy_frees_all_witness :
  returns (FlyweightFactory_new main_states) empty_memory
    (fun this m =>
       cache_inv this m
       /\ reverse (map_to_list (flyweights_ this)) ≡ₚ map_to_list (flyweights_ this)
       /\ returns (FlyweightFactory_destroy this) m
            (fun _ m' => heap m' = ∅ /\ cout m' = cout m)
       /\ returns (for_each Flyweight_destroy
                     (snd <$> reverse (map_to_list (flyweights_ this)))) m
            (fun _ m' => heap m' = ∅ /\ cout m' = cout m)).
Proof.
  eapply returns_weaken; [apply FlyweightFactory_new_inv |].
  intros this m (Hinv & _). split; [exact Hinv |].
  split; [apply reverse_Permutation |].
  exact (FlyweightFactory_destroy_frees_all this m
           (reverse (map_to_list (flyweights_ this))) Hinv
           (reverse_Permutation _)).
Defined.

End FlyweightCacheProofs.

Module ObserverWorldProofs.
Import Observer ObserverProofs.

Lemma list_remove_app (o : positive) (l1 l2 : list positive) :
  list_remove o (l1 ++ l2) = (list_remove o l1 ++ list_remove o l2)%list.
Proof. rewrite !list_remove_filter. apply filter_app. Qed.

Lemma Publisher_eq (P Q : Publisher) :
  list_observer_ P = list_observer_ Q -> message_ P = message_ Q -> P = Q.
Proof. destruct P, Q. cbn. by intros -> ->. Qed.

(** X6. Attaching and detaching compose as on a list: detaching an
    observer just attached to a list that did not hold it gives the list
    back; detaching twice is detaching once; detachments commute with each
    other and with the attachment of another observer; and detaching an
    observer removes the deliveries of [Notify] to that observer and
    leaves the other deliveries as they were, in their order. *)
Theorem Detach_Attach_compose :
  (forall (this : Publisher) (o : positive),
      o ∉ list_observer_ this -> Detach o (Attach o this) = this)
  /\ (forall (this : Publisher) (o : positive),
        Detach o (Detach o this) = Detach o this)
  /\ (forall (this : Publisher) (o1 o2 : positive),
        Detach o1 (Detach o2 this) = Detach o2 (Detach o1 this))
  /\ (forall (this : Publisher) (o1 o2 : positive),
        o1 <> o2 -> Detach o1 (Attach o2 this) = Attach o2 (Detach o1 this))
  /\ (forall (this : Publisher) (o : positive),
        Notify (Detach o this) = filter (fun d => fst d <> o) (Notify this)).
Proof.
  split; [| split; [| split; [| split]]].
  - intros this o Hn. apply Publisher_eq; [| done]. cbn.
    rewrite list_remove_app, list_remove_absent by done. cbn.
    rewrite decide_True by done. apply app_nil_r.
  - intros this o. apply Publisher_eq; [| done]. cbn.
    apply list_remove_absent, list_remove_not_elem.
  - intros this o1 o2. apply Publisher_eq; [| done]. cbn.
    induction (list_observer_ this) as [|x l IH]; [done |]. cbn.
    destruct (decide (x = o2)), (decide (x = o1)); cbn;
      rewrite ?decide_True, ?decide_False by done; by rewrite IH.
  - intros this o1 o2 Hne. apply Publisher_eq; [| done]. cbn.
    rewrite list_remove_app. cbn. by rewrite decide_False by done.
  - intros this o. unfold Notify, Detach. cbn [list_observer_ message_].
    induction (list_observer_ this) as [|x l IH]; [done |].
    cbn [list_remove map]. rewrite filter_cons. cbn [fst].
    destruct (decide (x = o)) as [->|Hne].
    + rewrite decide_False by (intros H; by apply H). exact IH.
    + rewrite decide_True by done. cbn [map]. by rewrite IH.
Qed.

Lemma Observer_Update_eq (o : positive) (message : string) (w : World) (obj : ObserverObject) :
  observers w !! o = Some obj ->
  Observer_Update o message w
  = Some (print (update_line obj message) (set_observer o (with_message message obj) w)).
Proof. intros H. unfold Observer_Update. by rewrite H. Qed.


Lemma notify_lines_cons (w : World) (x : positive) (l : list positive) (message : string)
    (obj : ObserverObject) :
  observers w !! x = Some obj ->
  notify_lines w (x :: l) message = update_line obj message :: notify_lines w l message.
Proof. intros H. unfold notify_lines. cbn. by rewrite H. Qed.

Lemma notify_lines_numbers (w1 w2 : World) (l : list positive) (message : string) :
  (forall o, number_ <$> observers w1 !! o = number_ <$> observers w2 !! o) ->
  notify_lines w1 l message = notify_lines w2 l message.
Proof.
  intros Hnum. unfold notify_lines. induction l as [|x l IH]; [done |].
  cbn. rewrite IH. specialize (Hnum x).
  destruct (observers w1 !! x) as [a|], (observers w2 !! x) as [b|]; cbn in *; try done.
  injection Hnum as Hn. unfold update_line. by rewrite Hn.
Qed.

Lemma update_all_spec (l : list positive) (message : string) :
  forall w : World,
    (forall o, o ∈ l -> is_Some (observers w !! o)) ->
    exists w',
      update_all l message w = Some w'
      /\ publishers w' = publishers w
      /\ num_of_observers_ w' = num_of_observers_ w
      /\ (forall o, observers w' !! o
                    = (fun obj => if decide (o ∈ l) then with_message message obj else obj)
                        <$> observers w !! o)
      /\ cout w' = (cout w ++ notify_lines w l message)%list
      /\ List.length (notify_lines w l message) = List.length l.
Proof.
  induction l as [|x l IH]; intros w Hlive.
  - exists w. cbn. split; [done |]. split; [done |]. split; [done |].
    split; [| by rewrite app_nil_r].
    intros o. destruct (observers w !! o) as [obj|]; [| done]. cbn.
    by rewrite decide_False by apply not_elem_of_nil.
  - destruct (Hlive x) as [obj Hobj]; [by left |].
    set (w1 := print (update_line obj message) (set_observer x (with_message message obj) w)).
    destruct (IH w1) as (w' & Hrun & Hpub & Hnum & Hobs & Hout & Hlen).
    { intros o Ho. cbn. destruct (decide (x = o)) as [<-|Hne].
      - rewrite lookup_insert_eq. by eexists.
      - rewrite lookup_insert_ne by done. apply Hlive. by right. }
    assert (Hlines : notify_lines w1 l message = notify_lines w l message).
    { apply notify_lines_numbers. intros o. cbn.
      destruct (decide (x = o)) as [<-|Hne].
      - by rewrite lookup_insert_eq, Hobj.
      - by rewrite lookup_insert_ne. }
    exists w'. split.
    { cbn [update_all]. rewrite (Observer_Update_eq _ _ _ _ Hobj). exact Hrun. }
    split; [done |]. split; [done |]. split; [| split].
    + intros o. rewrite Hobs. cbn. destruct (decide (x = o)) as [<-|Hne].
      * rewrite lookup_insert_eq, Hobj. cbn.
        rewrite (decide_True (P := x ∈ x :: l)) by (by left).
        by destruct (decide (x ∈ l)).
      * rewrite lookup_insert_ne by done.
        destruct (observers w !! o) as [obj'|]; [| done]. cbn. f_equal.
        destruct (decide (o ∈ l)) as [Hin|Hnin].
        -- by rewrite decide_True by (by right).
        -- rewrite decide_False; [done |]. intros [?|?]%elem_of_cons; done.
    + rewrite Hout, Hlines, (notify_lines_cons _ _ _ _ _ Hobj). cbn.
      by rewrite <- app_assoc.
    + rewrite (notify_lines_cons _ _ _ _ _ Hobj). cbn. by rewrite <- Hlines, Hlen.
Qed.

Lemma update_all_live (l : list positive) (message : string) :
  forall w w' : World,
    update_all l message w = Some w' ->
    forall o, o ∈ l -> is_Some (observers w !! o).
Proof.
  induction l as [|x l IH]; intros w w' Hrun o Ho; [by apply elem_of_nil in Ho |].
  cbn in Hrun. destruct (observers w !! x) as [obj|] eqn:Hobj.
  - apply elem_of_cons in Ho as [->|Ho]; [by eexists |].
    rewrite (Observer_Update_eq _ _ _ _ Hobj) in Hrun. cbn in Hrun.
    destruct (IH _ _ Hrun o Ho) as [obj' Hobj']. cbn in Hobj'.
    destruct (decide (x = o)) as [<-|Hne]; [by eexists |].
    rewrite lookup_insert_ne in Hobj' by done. by eexists.
  - unfold Observer_Update in Hrun. by rewrite Hobj in Hrun.
Qed.

(** X7. Creating a message on a publisher whose subscribers are all
    alive sets the publisher's message, prints the number of subscribers,
    and calls [Update] once per entry of the list, in the order of the
    list: every subscribed observer then holds the message, the objects
    that are not subscribed are untouched, one line per entry is printed,
    and the list and the counter are unchanged. *)
Theorem CreateMessage_reaches_every_subscriber
    (p : positive) (message : string) (w : World) (P : Publisher) :
  publishers w !! p = Some P ->
  (forall o, o ∈ list_observer_ P -> is_Some (observers w !! o)) ->
  exists w' : World,
    Publisher_CreateMessage p message w = Some w'
    /\ publishers w'
       = <[p := {| list_observer_ := list_observer_ P; message_ := message |}]> (publishers w)
    /\ num_of_observers_ w' = num_of_observers_ w
    /\ (forall o obj, observers w !! o = Some obj ->
          observers w' !! o
          = Some (if decide (o ∈ list_observer_ P) then with_message message obj else obj))
    /\ dom (observers w') = dom (observers w)
    /\ cout w'
       = (cout w
          ++ ("There are " +:+ pretty (List.length (list_observer_ P))
                +:+ " observers in the list." +:+ nl)
             :: notify_lines w (list_observer_ P) message)%list
    /\ List.length (notify_lines w (list_observer_ P) message)
       = List.length (list_observer_ P).
Proof.
  intros HP Hlive.
  set (w0 := print ("There are " +:+ pretty (List.length (list_observer_ P))
                    +:+ " observers in the list." +:+ nl)
               (set_publisher p {| list_observer_ := list_observer_ P; message_ := message |} w)).
  destruct (update_all_spec (list_observer_ P) message w0 Hlive)
    as (w' & Hrun & Hpub & Hnum & Hobs & Hout & Hlen).
  exists w'. split.
  { unfold Publisher_CreateMessage, Publisher_Notify. rewrite HP. cbn.
    rewrite lookup_insert_eq. cbn. exact Hrun. }
  split; [done |]. split; [done |]. split; [| split; [| split]].
  - intros o obj Hobj. rewrite Hobs. cbn. by rewrite Hobj.
  - apply set_eq. intros o. rewrite !elem_of_dom, Hobs. cbn.
    by rewrite fmap_is_Some.
  - rewrite Hout. cbn. by rewrite <- app_assoc.
  - done.
Qed.

(** X8. [Notify] goes through exactly when every entry of the
    publisher's list is the address of a live observer.  The destructor of
    an observer does not detach it: after [delete] of an observer that is
    still subscribed, [Notify] on its publisher has no defined result. *)
Theorem Notify_needs_live_subscribers (p : positive) (w : World) (P : Publisher) :
  publishers w !! p = Some P ->
  (is_Some (Publisher_Notify p w)
   <-> forall o, o ∈ list_observer_ P -> is_Some (observers w !! o))
  /\ (forall o w1, o ∈ list_observer_ P -> Observer_delete o w = Some w1 ->
                   Publisher_Notify p w1 = None)
  /\ (forall o w1 w2,
        publisher_ <$> observers w !! o = Some p ->
        Observer_RemoveMeFromTheList o w = Some w1 ->
        Observer_delete o w1 = Some w2 ->
        (forall o', o' ∈ list_observer_ P -> is_Some (observers w !! o')) ->
        is_Some (Publisher_Notify p w2)).
Proof.
  intros HP.
  assert (Hiff : forall w0 : World,
            publishers w0 !! p = Some P ->
            (is_Some (Publisher_Notify p w0)
             <-> forall o, o ∈ list_observer_ P -> is_Some (observers w0 !! o))).
  { intros w0 HP0. unfold Publisher_Notify. rewrite HP0. cbn. split.
    - intros [w' Hrun]. by apply (update_all_live _ _ _ _ Hrun).
    - intros Hlive.
      lazymatch goal with
      | |- is_Some (update_all ?l ?msg ?w1) =>
          destruct (update_all_spec l msg w1 Hlive) as (w' & Hrun & _)
      end.
      by eexists. }
  split; [by apply Hiff |]. split.
  - intros o w1 Ho Hdel. unfold Observer_delete in Hdel.
    destruct (observers w !! o) as [obj|] eqn:Hobj; [| done]. injection Hdel as <-.
    apply eq_None_not_Some. rewrite Hiff by done. intros Hlive.
    destruct (Hlive o Ho) as [obj' Hobj']. cbn in Hobj'.
    by rewrite lookup_delete_eq in Hobj'.
  - intros o w1 w2 Hpub Hrem Hdel Hlive.
    unfold Observer_RemoveMeFromTheList in Hrem.
    destruct (observers w !! o) as [obj|] eqn:Hobj; [| done]. cbn in Hpub, Hrem.
    injection Hpub as Hpub. rewrite Hpub, HP in Hrem. injection Hrem as <-.
    unfold Observer_delete in Hdel. cbn in Hdel. rewrite Hobj in Hdel. injection Hdel as <-.
    unfold Publisher_Notify. cbn. rewrite lookup_insert_eq. cbn.
    edestruct (update_all_spec (list_remove o (list_observer_ P)) (message_ P)) as (w' & Hrun & _);
      [| by eexists].
    intros o' Ho'. cbn. rewrite list_remove_filter in Ho'.
    apply list_elem_of_filter in Ho' as [Hne Ho'].
    rewrite lookup_delete_ne by done. by apply Hlive.
Qed.


Lemma numbered_initial : numbered World_initial.
Proof.
  split; cbn.
  - unfold INT_MAX. lia.
  - intros o obj H. by rewrite lookup_empty in H.
  - intros o1 o2 obj1 obj2 H. by rewrite lookup_empty in H.
Qed.

Lemma numbered_numbers (w w' : World) :
  (forall o, number_ <$> observers w' !! o = number_ <$> observers w !! o) ->
  num_of_observers_ w' = num_of_observers_ w ->
  numbered w -> numbered w'.
Proof.
  intros Hobs Hnum [Hc Hr Hu].
  assert (Hsame : forall o obj', observers w' !! o = Some obj' ->
            exists obj, observers w !! o = Some obj /\ number_ obj = number_ obj').
  { intros o obj' H. specialize (Hobs o). rewrite H in Hobs. cbn in Hobs.
    destruct (observers w !! o) as [obj|]; [| done]. injection Hobs as Hn. by exists obj. }
  split.
  - by rewrite Hnum.
  - intros o obj' (obj & Hobj & <-)%Hsame. rewrite Hnum. eauto.
  - intros o1 o2 obj1 obj2 (a & Ha & Hna)%Hsame (b & Hb & Hnb)%Hsame Heq.
    apply (Hu _ _ _ _ Ha Hb). congruence.
Qed.

Lemma update_all_numbers (l : list positive) (message : string) :
  forall w w' : World,
    update_all l message w = Some w' ->
    num_of_observers_ w' = num_of_observers_ w
    /\ publishers w' = publishers w
    /\ forall o, number_ <$> observers w' !! o = number_ <$> observers w !! o.
Proof.
  induction l as [|x l IH]; intros w w' Hrun.
  - by injection Hrun as <-.
  - cbn in Hrun. destruct (observers w !! x) as [obj|] eqn:Hobj.
    + rewrite (Observer_Update_eq _ _ _ _ Hobj) in Hrun. cbn in Hrun.
      destruct (IH _ _ Hrun) as (Hnum & Hpub & Hobs).
      split; [done |]. split; [done |]. intros o. rewrite Hobs. cbn.
      destruct (decide (x = o)) as [<-|Hne].
      * by rewrite lookup_insert_eq, Hobj.
      * by rewrite lookup_insert_ne.
    + unfold Observer_Update in Hrun. by rewrite Hobj in Hrun.
Qed.

Lemma Publisher_CreateMessage_numbers (p : positive) (message : string) (w w' : World) :
  Publisher_CreateMessage p message w = Some w' ->
  num_of_observers_ w' = num_of_observers_ w
  /\ forall o, number_ <$> observers w' !! o = number_ <$> observers w !! o.
Proof.
  unfold Publisher_CreateMessage, Publisher_Notify.
  destruct (publishers w !! p) as [P|]; [| done]. cbn.
  rewrite lookup_insert_eq. cbn. intros Hrun.
  by destruct (update_all_numbers _ _ _ _ Hrun) as (Hnum & _ & Hobs).
Qed.

Lemma Observer_create_numbered (publisher o : positive) (w w' : World) :
  numbered w ->
  Observer_create publisher w = Some (o, w') ->
  numbered w'
  /\ num_of_observers_ w' = (num_of_observers_ w + 1)%Z
  /\ observers w !! o = None
  /\ exists obj, observers w' !! o = Some obj
       /\ number_ obj = (num_of_observers_ w + 1)%Z
       /\ publisher_ obj = publisher
       /\ forall o' obj', observers w !! o' = Some obj' -> (number_ obj' < number_ obj)%Z.
Proof.
  intros [Hc Hr Hu]. unfold Observer_create.
  destruct (publishers w !! publisher) as [P|]; [| done]. cbn.
  destruct (decide (num_of_observers_ w = INT_MAX)) as [|Hmax]; [done |].
  intros [= <- <-]. cbn.
  assert (Hfresh : observers w !! fresh (dom (observers w)) = None).
  { apply not_elem_of_dom, is_fresh. }
  split; [| split; [done | split; [done |]]].
  - split; cbn.
    + lia.
    + intros o obj Hobj. destruct (decide (fresh (dom (observers w)) = o)) as [<-|Hne].
      * rewrite lookup_insert_eq in Hobj. injection Hobj as <-. cbn. lia.
      * rewrite lookup_insert_ne in Hobj by done. specialize (Hr _ _ Hobj). lia.
    + intros o1 o2 obj1 obj2 H1 H2 Heq.
      destruct (decide (fresh (dom (observers w)) = o1)) as [<-|Hne1];
        destruct (decide (fresh (dom (observers w)) = o2)) as [<-|Hne2]; [done | | |].
      * rewrite lookup_insert_eq in H1. injection H1 as <-.
        rewrite lookup_insert_ne in H2 by done. specialize (Hr _ _ H2). cbn in Heq. lia.
      * rewrite lookup_insert_eq in H2. injection H2 as <-.
        rewrite lookup_insert_ne in H1 by done. specialize (Hr _ _ H1). cbn in Heq. lia.
      * rewrite lookup_insert_ne in H1, H2 by done. eauto.
  - eexists. rewrite lookup_insert_eq. split; [done |]. cbn. split; [done |]. split; [done |].
    intros o' obj' Hobj'. specialize (Hr _ _ Hobj'). lia.
Qed.

Lemma run_action_numbered (a : action) (w w' : World) :
  numbered w -> run_action a w = Some w' ->
  numbered w' /\ (num_of_observers_ w <= num_of_observers_ w')%Z.
Proof.
  intros Hn Hrun. destruct a as [|p|pub|o|o|p msg|p]; cbn in Hrun.
  - injection Hrun as <-. cbn. split; [| lia]. by apply (numbered_numbers w).
  - unfold Publisher_delete in Hrun. destruct (publishers w !! p); [| done].
    injection Hrun as <-. cbn. split; [| lia]. by apply (numbered_numbers w).
  - destruct (Observer_create pub w) as [[o w1]|] eqn:Hc; [| done]. injection Hrun as <-.
    destruct (Observer_create_numbered _ _ _ _ Hn Hc) as (Hn' & Hnum & _). cbn.
    split; [done | lia].
  - unfold Observer_delete in Hrun. destruct (observers w !! o) as [obj|] eqn:Hobj; [| done].
    injection Hrun as <-. cbn. split; [| lia]. destruct Hn as [Hc Hr Hu]. split; cbn.
    + done.
    + intros o' obj' [_ H]%lookup_delete_Some. eauto.
    + intros o1 o2 obj1 obj2 [_ H1]%lookup_delete_Some [_ H2]%lookup_delete_Some. eauto.
  - unfold Observer_RemoveMeFromTheList in Hrun.
    destruct (observers w !! o) as [obj|]; [| done]. cbn in Hrun.
    destruct (publishers w !! publisher_ obj); [| done]. injection Hrun as <-. cbn.
    split; [| lia]. by apply (numbered_numbers w).
  - destruct (Publisher_CreateMessage_numbers _ _ _ _ Hrun) as [Hnum Hobs].
    split; [by apply (numbered_numbers w) | lia].
  - unfold Publisher_SomeBusinessLogic in Hrun.
    destruct (Publisher_CreateMessage p _ w) as [w1|] eqn:Hc; [| done]. injection Hrun as <-.
    destruct (Publisher_CreateMessage_numbers _ _ _ _ Hc) as [Hnum Hobs]. cbn.
    split; [by apply (numbered_numbers w) | lia].
Qed.

(** X9. Whatever the client does (creating and deleting publishers and
    observers, removing observers from lists, sending messages), as long
    as every step is defined: the counter never decreases, every live
    observer has a number between 1 and the counter, and no two live
    observers have the same number.  A new observer gets the counter's new
    value, which is larger than the number of every observer alive, also
    after other observers were deleted. *)
Theorem observer_numbers_stay_unique (actions : list action) (w w' : World) :
  numbered w ->
  run_actions actions w = Some w' ->
  numbered w'
  /\ (num_of_observers_ w <= num_of_observers_ w')%Z
  /\ (forall publisher o w'',
        Observer_create publisher w' = Some (o, w'') ->
        exists obj, observers w'' !! o = Some obj
          /\ number_ obj = (num_of_observers_ w' + 1)%Z
          /\ forall o' obj', observers w' !! o' = Some obj' ->
                             (number_ obj' < number_ obj)%Z).
Proof.
  revert w. induction actions as [|a actions IH]; intros w Hn Hrun.
  - injection Hrun as <-. split; [done |]. split; [lia |].
    intros pub o w'' Hc.
    destruct (Observer_create_numbered _ _ _ _ Hn Hc) as (_ & _ & _ & obj & ? & ? & _ & ?).
    by exists obj.
  - cbn in Hrun. destruct (run_action a w) as [w1|] eqn:Ha; [| done]. cbn in Hrun.
    destruct (run_action_numbered _ _ _ Hn Ha) as [Hn1 Hle1].
    destruct (IH _ Hn1 Hrun) as (Hn' & Hle & Hnew).
    split; [done |]. split; [lia | done].
Qed.


Lemma CreateMessage_reaches_every_subscriber_witness :
  publishers three_subscribers !! 1%positive
    = Some {| list_observer_ := [1; 2; 3]%positive; message_ := "" |}
  /\ (forall o, o ∈ [1; 2; 3]%positive -> is_Some (observers three_subscribers !! o))
  /\ exists w' : World,
       Publisher_CreateMessage 1 "Hello World! :D" three_subscribers = Some w'
       /\ publishers w'
          = <[1%positive := {| list_observer_ := [1; 2; 3]%positive;
                               message_ := "Hello World! :D" |}]>
              (publishers three_subscribers)
       /\ num_of_observers_ w' = num_of_observers_ three_subscribers
       /\ (forall o obj, observers three_subscribers !! o = Some obj ->
             observers w' !! o
             = Some (if decide (o ∈ [1; 2; 3]%positive)
                     then with_message "Hello World! :D" obj else obj))
       /\ dom (observers w') = dom (observers three_subscribers)
       /\ cout w'
          = (cout three_subscribers
             ++ ("There are " +:+ pretty (List.length [1; 2; 3]%positive)
                   +:+ " observers in the list." +:+ nl)
                :: notify_lines three_subscribers [1; 2; 3]%positive "Hello World! :D")%list
       /\ List.length (notify_lines three_subscribers [1; 2; 3]%positive "Hello World! :D")
          = List.length [1; 2; 3]%positive.
Proof.
  assert (Hlive : forall o, o ∈ [1; 2; 3]%positive ->
                            is_Some (observers three_subscribers !! o)).
  { intros o Ho. rewrite !elem_of_cons in Ho.
    destruct Ho as [->|[->|[->|Ho]]]; [| | | by apply elem_of_nil in Ho];
      vm_compute; eexists; reflexivity. }
  split; [vm_compute; reflexivity |]. split; [exact Hlive |].
  apply (CreateMessage_reaches_every_subscriber 1 "Hello World! :D" three_subscribers
           {| list_observer_ := [1; 2; 3]%positive; message_ := "" |}).
  - vm_compute. reflexivity.
  - exact Hlive.
Defined.

Lemma Notify_needs_live_subscribers_witness :
  publishers three_subscribers !! 1%positive
    = Some {| list_observer_ := [1; 2; 3]%positive; message_ := "" |}
  /\ (is_Some (Publisher_Notify 1 three_subscribers)
      <-> forall o, o ∈ [1; 2; 3]%positive -> is_Some (observers three_subscribers !! o))
  /\ (forall o w1, o ∈ [1; 2; 3]%positive ->
                   Observer_delete o three_subscribers = Some w1 ->
                   Publisher_Notify 1 w1 = None)
  /\ (forall o w1 w2,
        publisher_ <$> observers three_subscribers !! o = Some 1%positive ->
        Observer_RemoveMeFromTheList o three_subscribers = Some w1 ->
        Observer_delete o w1 = Some w2 ->
        (forall o', o' ∈ [1; 2; 3]%positive -> is_Some (observers three_subscribers !! o')) ->
        is_Some (Publisher_Notify 1 w2)).
Proof.
  split; [vm_compute; reflexivity |].
  apply (Notify_needs_live_subscribers 1 three_subscribers
           {| list_observer_ := [1; 2; 3]%positive; message_ := "" |}).
  vm_compute. reflexivity.
Defined.

Lemma observer_numbers_stay_unique_witness :
  numbered World_initial
  /\ is_Some (run_actions client_actions World_initial)
  /\ numbered (default World_initial (run_actions client_actions World_initial))
  /\ (num_of_observers_ World_initial
      <= num_of_observers_ (default World_initial (run_actions client_actions World_initial)))%Z.
Proof.
  split; [exact numbered_initial |].
  split; [vm_compute; eexists; reflexivity |].
  destruct (observer_numbers_stay_unique client_actions World_initial
              (default World_initial (run_actions client_actions World_initial))
              numbered_initial) as (H1 & H2 & _).
  - vm_compute. reflexivity.
  - by split.
Defined.

End ObserverWorldProofs.

Module StrategyOrderProofs.
Import Strategy StrategyProofs.

Section Char.
Variable char_is_signed : bool.

#[local] Abbreviation less := (less char_is_signed).
#[local] Abbreviation greater := (greater char_is_signed).
#[local] Abbreviation char_le := (char_le char_is_signed).
#[local] Abbreviation char_ge := (char_ge char_is_signed).
#[local] Abbreviation sort_up := (doAlgorithm (ConcreteStrategyA char_is_signed)).
#[local] Abbreviation sort_down := (doAlgorithm (ConcreteStrategyB char_is_signed)).

#[local] Instance char_le_transitive : Transitive char_le.
Proof. intros a b c. unfold Strategy.char_le. lia. Qed.

#[local] Instance char_ge_transitive : Transitive char_ge.
Proof. intros a b c. unfold Strategy.char_ge. lia. Qed.

#[local] Instance char_le_antisymmetric : AntiSymm (=) char_le.
Proof.
  intros a b ??. apply (char_value_inj char_is_signed).
  unfold Strategy.char_le in *. lia.
Qed.

#[local] Instance char_ge_antisymmetric : AntiSymm (=) char_ge.
Proof.
  intros a b ??. apply (char_value_inj char_is_signed).
  unfold Strategy.char_ge in *. lia.
Qed.

Lemma std_sort_less_permuted (l1 l2 : list ascii) :
  l1 ≡ₚ l2 -> std_sort less l1 = std_sort less l2.
Proof.
  intros Hp. apply (Sorted_unique char_le); [apply std_sort_less_sorted.. |].
  by rewrite !std_sort_permutation.
Qed.

Lemma std_sort_greater_permuted (l1 l2 : list ascii) :
  l1 ≡ₚ l2 -> std_sort greater l1 = std_sort greater l2.
Proof.
  intros Hp. apply (Sorted_unique char_ge); [apply std_sort_greater_sorted.. |].
  by rewrite !std_sort_permutation.
Qed.

Lemma std_sort_greater_reverse (l : list ascii) :
  std_sort greater l = reverse (std_sort less l).
Proof.
  apply (Sorted_unique char_ge).
  - apply std_sort_greater_sorted.
  - apply (Sorted_reverse char_le), std_sort_less_sorted.
  - by rewrite reverse_Permutation, !std_sort_permutation.
Qed.

Lemma length_list_ascii_of_string (s : string) :
  List.length (list_ascii_of_string s) = String.length s.
Proof. induction s as [|c s IH]; cbn; [done | by rewrite IH]. Qed.

(** X10. The two strategies agree with each other: the descending
    result is the ascending result read backwards; applying a strategy to
    the result of either strategy gives what it gives on the input itself
    (so each strategy is idempotent); the result has the length of the
    input; and two inputs with the same characters give the same result,
    however they are arranged. *)
Theorem doAlgorithm_strategies_compose (data : string) :
  let ascending := doAlgorithm (ConcreteStrategyA char_is_signed) in
  let descending := doAlgorithm (ConcreteStrategyB char_is_signed) in
  list_ascii_of_string (descending data) = reverse (list_ascii_of_string (ascending data))
  /\ ascending (ascending data) = ascending data
  /\ descending (descending data) = descending data
  /\ ascending (descending data) = ascending data
  /\ descending (ascending data) = descending data
  /\ String.length (ascending data) = String.length data
  /\ String.length (descending data) = String.length data
  /\ (forall data' : string,
        list_ascii_of_string data' ≡ₚ list_ascii_of_string data ->
        ascending data' = ascending data /\ descending data' = descending data).
Proof.
  intros ascending descending. subst ascending descending.
  assert (Hinv : forall data' : string,
            list_ascii_of_string data' ≡ₚ list_ascii_of_string data ->
            sort_up data' = sort_up data /\ sort_down data' = sort_down data).
  { intros data' Hp. cbn. split; f_equal.
    - by apply std_sort_less_permuted.
    - by apply std_sort_greater_permuted. }
  split; [| split; [| split; [| split; [| split; [| split; [| split]]]]]].
  - rewrite chars_of_descending, chars_of_ascending. apply std_sort_greater_reverse.
  - apply Hinv. rewrite chars_of_ascending. apply std_sort_permutation.
  - apply Hinv. rewrite chars_of_descending. apply std_sort_permutation.
  - apply Hinv. rewrite chars_of_descending. apply std_sort_permutation.
  - apply Hinv. rewrite chars_of_ascending. apply std_sort_permutation.
  - rewrite <- !length_list_ascii_of_string, chars_of_ascending.
    apply Permutation_length, std_sort_permutation.
  - rewrite <- !length_list_ascii_of_string, chars_of_descending.
    apply Permutation_length, std_sort_permutation.
  - exact Hinv.
Qed.

End Char.

End StrategyOrderProofs.

Module DecoratorShapeProofs.
Import Decorator DecoratorProofs.

Lemma length_append (a b : string) :
  String.length (a +:+ b) = (String.length a + String.length b)%nat.
Proof. induction a as [|x a IH]; [done |]. rewrite append_cons. cbn. by rewrite IH. Qed.

Lemma length_opening (ms : list Marker) :
  String.length (opening ms) = (19 * List.length ms)%nat.
Proof.
  induction ms as [|m ms IH]; [done |].
  change (opening (m :: ms)) with (marker_name m +:+ "(" +:+ opening ms).
  rewrite !length_append, IH. destruct m; cbn; lia.
Qed.

Lemma length_closing (n : nat) : String.length (closing n) = n.
Proof.
  induction n as [|n IH]; [done |].
  change (closing (S n)) with (")" +:+ closing n). rewrite length_append, IH. done.
Qed.

Lemma Operation_markers (c : Component) :
  Operation c = Operation (stack (markers_of c) ConcreteComponent).
Proof.
  induction c as [|c IH|c IH|c IH|c IH]; [done | exact IH | | |];
    cbn [markers_of]; rewrite stack_snoc;
    cbn [wrap Operation]; by rewrite <- IH.
Qed.

Lemma markers_of_stack (ms : list Marker) (c : Component) :
  markers_of (stack ms c) = (markers_of c ++ ms)%list.
Proof.
  induction ms as [|m ms IH] using rev_ind; [by rewrite app_nil_r |].
  rewrite stack_snoc, app_assoc, <- IH. by destruct m.
Qed.

Lemma nested_cons (m : Marker) (os : list Marker) (k : nat) :
  nested (m :: os) k = marker_name m +:+ "(" +:+ nested os k.
Proof.
  unfold nested. change (opening (m :: os)) with (marker_name m +:+ "(" +:+ opening os).
  by rewrite !append_assoc.
Qed.

Ltac push_append H :=
  repeat rewrite append_cons in H;
  repeat change (EmptyString +:+ ?t) with t in H.

Lemma nested_inj (os1 : list Marker) :
  forall (os2 : list Marker) (k1 k2 : nat),
    nested os1 k1 = nested os2 k2 -> os1 = os2.
Proof.
  induction os1 as [|m1 os1 IH]; intros [|m2 os2] k1 k2 H; [done | | |].
  - rewrite nested_cons in H. unfold nested in H.
    change (opening []) with "" in H.
    destruct m2; cbn [marker_name] in H; push_append H; discriminate.
  - rewrite nested_cons in H. unfold nested in H at 2.
    change (opening []) with "" in H.
    destruct m1; cbn [marker_name] in H; push_append H; discriminate.
  - rewrite !nested_cons in H.
    destruct m1, m2; cbn [marker_name] in H; push_append H;
      try discriminate; simplify_eq; f_equal; by eapply IH.
Qed.

(** X11. Whatever component is built from the classes of the program,
    its [Operation] is the text "ConcreteComponent" enclosed in the
    markers of its concrete decorators, last applied outermost, with as
    many closing parentheses as markers; base [Decorator] wrappers, placed
    anywhere in the chain, do not show.  The text is 17 characters plus 20
    per concrete decorator, and it tells the decorators and their order:
    two components with the same text have the same concrete decorators in
    the same order.  Wrapping with two chains one after the other is
    wrapping with their concatenation. *)
Theorem Operation_shows_the_decorators :
  (forall c : Component,
      Operation c
      = opening (rev (markers_of c)) +:+ "ConcreteComponent"
          +:+ closing (List.length (markers_of c)))
  /\ (forall c : Component,
        String.length (Operation c) = (17 + 20 * List.length (markers_of c))%nat)
  /\ (forall c1 c2 : Component,
        Operation c1 = Operation c2 <-> markers_of c1 = markers_of c2)
  /\ (forall (ms1 ms2 : list Marker) (c : Component),
        stack (ms1 ++ ms2) c = stack ms2 (stack ms1 c)
        /\ markers_of (stack ms1 c) = (markers_of c ++ ms1)%list).
Proof.
  assert (Hshape : forall c : Component,
            Operation c = nested (rev (markers_of c)) (List.length (markers_of c))).
  { intros c. rewrite Operation_markers, Operation_stack. reflexivity. }
  split; [exact Hshape |]. split; [| split].
  - intros c. rewrite Hshape. unfold nested.
    rewrite !length_append, length_opening, length_closing, length_rev. cbn. lia.
  - intros c1 c2. split.
    + rewrite !Hshape. intros H%nested_inj.
      by rewrite <- (rev_involutive (markers_of c1)), H, rev_involutive.
    + intros H. by rewrite !Hshape, H.
  - intros ms1 ms2 c. split; [| apply markers_of_stack].
    unfold stack. apply foldl_app.
Qed.

End DecoratorShapeProofs.

Module BridgeProofs.
Import Bridge.

(** X12. The result of [Operation] is the header of the abstraction's
    class followed by the text of its implementation, for every
    implementation of the interface.  The two parts vary independently:
    two abstractions give the same result exactly when they are of the
    same class and their implementations return the same text; in
    particular the four pairings of the program give four different
    results. *)
Theorem Operation_pairs_abstraction_and_implementation :
  (forall a : Abstraction,
      exists header : string,
        Operation a = header +:+ OperationImplementation (implementation_of a)
        /\ forall b : Abstraction,
             same_class a b = true ->
             Operation b = header +:+ OperationImplementation (implementation_of b))
  /\ (forall a b : Abstraction,
        Operation a = Operation b
        <-> same_class a b = true
            /\ OperationImplementation (implementation_of a)
               = OperationImplementation (implementation_of b))
  /\ NoDup [ Operation (Abstraction_base ConcreteImplementationA);
             Operation (Abstraction_base ConcreteImplementationB);
             Operation (ExtendedAbstraction ConcreteImplementationA);
             Operation (ExtendedAbstraction ConcreteImplementationB) ].
Proof.
  split; [| split].
  - intros [i|i].
    + exists ("Abstraction: Base operation with:" +:+ nl). split; [done |].
      by intros [j|j].
    + exists ("ExtendedAbstraction: Extended operation with:" +:+ nl). split; [done |].
      by intros [j|j].
  - intros [i|i] [j|j]; cbn [Operation same_class implementation_of]; split;
      try (intros H; discriminate H); try (by intros [? ?]).
    + intros H. split; [done |].
      by apply (inj (String.app ("Abstraction: Base operation with:" +:+ nl))) in H.
    + intros [_ ->]. done.
    + intros H. split; [done |].
      by apply (inj (String.app ("ExtendedAbstraction: Extended operation with:" +:+ nl))) in H.
    + intros [_ ->]. done.
  - repeat constructor; rewrite ?elem_of_cons, ?elem_of_nil; vm_compute;
      intros H; repeat destruct H as [H|H]; try discriminate H; done.
Qed.

End BridgeProofs.

Module CommandSlotProofs.
Import Command.


End CommandSlotProofs.

Module PrototypeFactoryProofs.
Import Prototype PrototypeProofs.

Section Factory.
Context {float : Type}.
Variable show_float : float -> string.
Variable float_of_int : Z -> float.
Implicit Types (h : gmap positive (Object float)) (o : Object float).

Lemma index_present (type : Type_) (this : PrototypeFactory) (pointer : option positive) :
  prototypes_ this !! Type_to_int type = Some pointer ->
  index type this = (pointer, this).
Proof. intros H. unfold index. by rewrite H. Qed.

Lemma delete_ptr_live h (p : positive) o :
  h !! p = Some o -> delete_ptr (Some p) h = Some (delete p h).
Proof. intros H. cbn. by rewrite H. Qed.

Lemma CreatePrototype_eq (type : Type_) (this : PrototypeFactory) h (p : positive) o :
  prototypes_ this !! Type_to_int type = Some (Some p) ->
  h !! p = Some o ->
  CreatePrototype type this h = Some (fresh (dom h), this, <[fresh (dom h) := o]> h).
Proof.
  intros Hk Hp. unfold CreatePrototype. rewrite (index_present _ _ _ Hk). cbn.
  by rewrite (Clone_spec h p o Hp).
Qed.

Lemma use_and_delete h (p q : positive) o (x : float) :
  h !! p = Some o -> h !! q = None ->
  exists line,
    Method show_float q x (<[q := o]> h)
    = Some (<[q := set_prototype_field x o]> (<[q := o]> h), line)
    /\ line = "Call Method from " +:+ prototype_name_ (base_of o)
                +:+ " with field : " +:+ show_float x +:+ nl
    /\ <[q := set_prototype_field x o]> (<[q := o]> h) !! p = Some o
    /\ delete_ptr (Some q) (<[q := set_prototype_field x o]> (<[q := o]> h)) = Some h.
Proof.
  intros Hp Hq. assert (Hne : q <> p) by congruence.
  eexists. split; [| split; [reflexivity | split]].
  - unfold Method. by rewrite lookup_insert_eq.
  - by rewrite !lookup_insert_ne.
  - cbn. rewrite lookup_insert_eq, insert_insert_eq, delete_insert_eq.
    by rewrite delete_id.
Qed.

(** X14. Creating a prototype of a type whose registry entry points to
    a live object gives a new object with the class and fields of the
    registered one and changes neither the registry nor any other object.
    What the client then does to the clone stays with the clone: after
    [Method] on it the registered prototype is as before, and once the
    clone is deleted the heap is exactly the heap before the creation, so
    the next creation of that type starts from the same prototype
    again. *)
Theorem CreatePrototype_leaves_registry
    (type : Type_) (this : PrototypeFactory) h (p : positive) o :
  prototypes_ this !! Type_to_int type = Some (Some p) ->
  h !! p = Some o ->
  exists (q : positive) (h' : gmap positive (Object float)),
    CreatePrototype type this h = Some (q, this, h')
    /\ h !! q = None
    /\ h' = <[q := o]> h
    /\ forall x : float,
         exists h'' line,
           Method show_float q x h' = Some (h'', line)
           /\ h'' !! q = Some (set_prototype_field x o)
           /\ h'' !! p = Some o
           /\ delete_ptr (Some q) h'' = Some h
           /\ CreatePrototype type this h = Some (q, this, h').
Proof.
  intros Hk Hp.
  assert (Hq : h !! fresh (dom h) = None) by apply not_elem_of_dom, is_fresh.
  exists (fresh (dom h)), (<[fresh (dom h) := o]> h).
  split; [by apply (CreatePrototype_eq type this h p o) |].
  split; [done |]. split; [done |]. intros x.
  destruct (use_and_delete h p (fresh (dom h)) o x Hp Hq) as (line & HM & _ & Hreg & Hdel).
  eexists _, line. split; [exact HM |].
  split; [apply lookup_insert_eq |]. split; [done |]. split; [done |].
  by apply (CreatePrototype_eq type this h p o).
Qed.

Lemma Client_eq (this : PrototypeFactory) h (p1 p2 : positive) (o1 o2 : Object float) :
  prototypes_ this !! Type_to_int PROTOTYPE_1 = Some (Some p1) -> h !! p1 = Some o1 ->
  prototypes_ this !! Type_to_int PROTOTYPE_2 = Some (Some p2) -> h !! p2 = Some o2 ->
  Client show_float float_of_int this h
  = Some (this, h,
          [ "Let's create Prototype 1" +:+ nl;
            "Call Method from " +:+ prototype_name_ (base_of o1)
              +:+ " with field : " +:+ show_float (float_of_int 90) +:+ nl;
            nl;
            "Let's create Prototype 2" +:+ nl;
            "Call Method from " +:+ prototype_name_ (base_of o2)
              +:+ " with field : " +:+ show_float (float_of_int 10) +:+ nl ]).
Proof.
  intros Hk1 Hp1 Hk2 Hp2.
  assert (Hq : h !! fresh (dom h) = None) by apply not_elem_of_dom, is_fresh.
  destruct (use_and_delete h p1 (fresh (dom h)) o1 (float_of_int 90) Hp1 Hq)
    as (line1 & HM1 & -> & _ & Hdel1).
  destruct (use_and_delete h p2 (fresh (dom h)) o2 (float_of_int 10) Hp2 Hq)
    as (line2 & HM2 & -> & _ & Hdel2).
  unfold Client.
  rewrite (CreatePrototype_eq _ _ _ _ _ Hk1 Hp1). cbn [mbind option_bind].
  rewrite HM1. cbn [mbind option_bind]. rewrite Hdel1. cbn [mbind option_bind].
  rewrite (CreatePrototype_eq _ _ _ _ _ Hk2 Hp2). cbn [mbind option_bind].
  rewrite HM2. cbn [mbind option_bind]. rewrite Hdel2. reflexivity.
Qed.

(** X15. On a heap [h0] of any content: the constructor adds the two
    prototypes; [Client] on the factory ends with the factory and the heap
    it started from, having printed its five lines with the values 90 and
    10 as [operator<<] shows them; and the destructor then deletes the two
    prototypes, leaving [h0]: nothing [main] creates is leaked, and
    nothing is deleted twice. *)
Theorem Client_and_destructor_restore_heap (h0 : gmap positive (Object float)) :
  let '(factory, h) := PrototypeFactory_new float_of_int h0 in
  Client show_float float_of_int factory h
  = Some (factory, h,
          [ "Let's create Prototype 1" +:+ nl;
            "Call Method from PROTOTYPE_1  with field : "
              +:+ show_float (float_of_int 90) +:+ nl;
            nl;
            "Let's create Prototype 2" +:+ nl;
            "Call Method from PROTOTYPE_2  with field : "
              +:+ show_float (float_of_int 10) +:+ nl ])
  /\ size h = S (S (size h0))
  /\ h0 ⊆ h
  /\ PrototypeFactory_destroy factory h = Some h0.
Proof.
  unfold PrototypeFactory_new, new.
  set (p1 := fresh (dom h0)).
  set (o1 := ConcretePrototype1 _ _).
  set (h1 := <[p1 := o1]> h0).
  set (p2 := fresh (dom h1)).
  set (o2 := ConcretePrototype2 _ _).
  assert (H1 : h0 !! p1 = None) by apply not_elem_of_dom, is_fresh.
  assert (H2 : h1 !! p2 = None) by apply not_elem_of_dom, is_fresh.
  assert (Hne : p2 <> p1).
  { intros Heq. rewrite Heq in H2. unfold h1 in H2. by rewrite lookup_insert_eq in H2. }
  assert (H2' : h0 !! p2 = None).
  { unfold h1 in H2. by rewrite lookup_insert_ne in H2. }
  split; [| split; [| split]].
  - apply (Client_eq _ _ p1 p2 o1 o2).
    + cbn. by rewrite lookup_insert_ne.
    + rewrite lookup_insert_ne by done. apply lookup_insert_eq.
    + cbn. apply lookup_insert_eq.
    + apply lookup_insert_eq.
  - rewrite (map_size_insert_None _ _ _ H2). unfold h1.
    by rewrite (map_size_insert_None _ _ _ H1).
  - etrans; [apply (insert_subseteq h0 p1 o1 H1) |]. by apply insert_subseteq.
  - unfold PrototypeFactory_destroy.
    rewrite (index_present PROTOTYPE_1 _ (Some p1))
      by (cbn; by rewrite lookup_insert_ne).
    rewrite (delete_ptr_live _ p1 o1)
      by (rewrite lookup_insert_ne by done; apply lookup_insert_eq).
    cbn [mbind option_bind].
    rewrite (index_present PROTOTYPE_2 _ (Some p2)) by (cbn; apply lookup_insert_eq).
    rewrite (delete_ptr_live _ p2 o2)
      by (rewrite lookup_delete_ne by done; apply lookup_insert_eq).
    f_equal. rewrite (delete_insert_ne _ p1 p2) by done. unfold h1.
    rewrite !delete_insert_eq. rewrite (delete_id h0 p1) by done. by apply delete_id.
Qed.

End Factory.

Lemma CreatePrototype_leaves_registry_witness :
  let '(factory, h) := PrototypeFactory_new (fun z : Z => z) ∅ in
  prototypes_ factory !! Type_to_int PROTOTYPE_1 = Some (Some 1%positive)
  /\ h !! 1%positive = Some prototype_1
  /\ exists (q : positive) (h' : gmap positive (Object Z)),
       CreatePrototype PROTOTYPE_1 factory h = Some (q, factory, h')
       /\ h !! q = None
       /\ h' = <[q := prototype_1]> h
       /\ forall x : Z,
            exists h'' line,
              Method pretty q x h' = Some (h'', line)
              /\ h'' !! q = Some (set_prototype_field x prototype_1)
              /\ h'' !! 1%positive = Some prototype_1
              /\ delete_ptr (Some q) h'' = Some h
              /\ CreatePrototype PROTOTYPE_1 factory h = Some (q, factory, h').
Proof.
  assert (Hk : prototypes_ (fst (PrototypeFactory_new (fun z : Z => z) ∅))
                 !! Type_to_int PROTOTYPE_1 = Some (Some 1%positive))
    by (vm_compute; reflexivity).
  assert (Hp : snd (PrototypeFactory_new (fun z : Z => z) ∅) !! 1%positive
               = Some prototype_1)
    by (vm_compute; reflexivity).
  destruct (PrototypeFactory_new (fun z : Z => z) ∅) as [factory h]. cbn [fst snd] in *.
  split; [exact Hk |]. split; [exact Hp |].
  exact (CreatePrototype_leaves_registry pretty PROTOTYPE_1 factory h 1 prototype_1 Hk Hp).
Defined.

End PrototypeFactoryProofs.

Module SingletonWinnerProofs.
Import Singleton SingletonThreadProofs.

Lemma run_thread_unfold (t : nat) (w : World) (p p' : pc) (s' : Statics) :
  threads w !! t = Some p -> step t p (statics w) = Some (p', s') ->
  run_thread t w = {| statics := s'; threads := <[t := p']> (threads w) |}.
Proof. intros Ht Hs. unfold run_thread. by rewrite Ht, Hs. Qed.

Lemma run_thread_stuck (t : nat) (w : World) (p : pc) :
  threads w !! t = Some p -> step t p (statics w) = None -> run_thread t w = w.
Proof. intros Ht Hs. unfold run_thread. by rewrite Ht, Hs. Qed.

Lemma winner_run_thread (t t' : nat) (v : string) (w : World) :
  invariant w -> winner t v w -> winner t v (run_thread t' w).
Proof.
  intros Hinv Hw.
  destruct (threads w !! t') as [p'|] eqn:Ht'; [| unfold run_thread; by rewrite Ht'].
  destruct (step t' p' (statics w)) as [[q s']|] eqn:Hstep;
    [| by rewrite (run_thread_stuck _ _ _ Ht' Hstep)].
  rewrite (run_thread_unfold _ _ _ _ _ Ht' Hstep).
  assert (Hlt : t' < List.length (threads w)) by (by eapply lookup_lt_Some).
  destruct Hw as [[Hnull Ht]|(l & Hptr & Hheap)].
  - assert (Hcs : exists p, threads w !! t = Some p /\ in_critical_section p = true).
    { destruct Ht as [Ht|Ht]; eexists; (split; [exact Ht | done]). }
    destruct Hcs as (p & Hp & Hpcs).
    pose proof (inv_owner w Hinv _ _ Hp Hpcs) as Hm.
    destruct (decide (t' = t)) as [->|Hne].
    + rewrite Ht' in Hp. injection Hp as ->.
      destruct Ht as [Ht|Ht]; rewrite Ht' in Ht; injection Ht as ->; cbn in Hstep.
      * rewrite Hnull in Hstep. injection Hstep as <- <-.
        left. cbn. split; [done |]. right. by apply list_lookup_insert_eq.
      * injection Hstep as <- <-. right. eexists. cbn. split; [done |].
        rewrite (inv_null w Hinv Hnull). by rewrite insert_empty.
    + exfalso. destruct p' as [v'|v'|v'| |r|r]; cbn in Hstep;
        try (pose proof (inv_owner w Hinv _ _ Ht' eq_refl); congruence).
      * by rewrite Hm in Hstep.
      * done.
  - right. exists l.
    destruct p' as [v'|v'|v'| |r|r]; cbn in Hstep.
    + destruct (m_mutex (statics w)); [done |]. by injection Hstep as <- <-.
    + rewrite Hptr in Hstep. by injection Hstep as <- <-.
    + pose proof (inv_new w Hinv _ _ Ht'). congruence.
    + by injection Hstep as <- <-.
    + by injection Hstep as <- <-.
    + done.
Qed.

Lemma winner_run_schedule (t : nat) (v : string) (schedule : list nat) (w : World) :
  invariant w -> winner t v w -> winner t v (run_schedule schedule w).
Proof.
  intros Hinv Hw. induction schedule as [|t' schedule IH] using rev_ind; [done |].
  rewrite run_schedule_snoc. apply winner_run_thread; [| done].
  by apply run_schedule_invariant.
Qed.

Lemma winner_first (values : list string) (t : nat) (v : string) :
  values !! t = Some v -> winner t v (run_thread t (start values)).
Proof.
  intros Hv.
  assert (Ht : threads (start values) !! t = Some (at_lock v)).
  { unfold start. cbn. by rewrite list_lookup_fmap, Hv. }
  erewrite run_thread_unfold by (exact Ht || reflexivity).
  left. cbn. split; [done |]. left.
  apply list_lookup_insert_eq. by eapply lookup_lt_Some.
Qed.

(** X16. The thread that is scheduled first takes the mutex first, and
    its argument is the one the instance is built from: in every world
    reached after it, whatever the other threads and the rest of the
    schedule, an existing instance holds that argument, and every call
    that has returned has returned an instance whose [Value()] is that
    argument. *)
Theorem first_to_lock_decides_the_value
    (values : list string) (t : nat) (v : string) (schedule : list nat) :
  values !! t = Some v ->
  let w := run_schedule (t :: schedule) (start values) in
  (forall l, m_instance_ptr (statics w) = Some l -> Value l (statics w) = Some v)
  /\ (forall i r, threads w !! i = Some (returned r) ->
        exists l, r = Some l /\ Value l (statics w) = Some v).
Proof.
  intros Hv w.
  assert (Hinv : invariant w) by apply run_schedule_invariant, invariant_start.
  assert (Hw : winner t v w).
  { apply (winner_run_schedule t v schedule (run_thread t (start values))).
    - apply run_thread_invariant, invariant_start.
    - by apply winner_first. }
  assert (Hval : forall l, m_instance_ptr (statics w) = Some l ->
                           Value l (statics w) = Some v).
  { intros l Hl. destruct Hw as [[Hnull _]|(l' & Hptr & Hheap)]; [congruence |].
    assert (l' = l) as -> by congruence.
    unfold Value. rewrite Hheap. by rewrite lookup_singleton_eq. }
  split; [done |].
  intros i r Hi. destruct (inv_returned w Hinv _ _ Hi) as [-> [l Hl]].
  exists l. split; [done | by apply Hval].
Qed.

Lemma first_to_lock_decides_the_value_witness :
  ["FOO" +:+ nl; "BAR" +:+ nl] !! 1%nat = Some ("BAR" +:+ nl)
  /\ let w := run_schedule (1 :: [0; 0; 1; 0; 1; 1; 0; 1; 0; 0; 0])%nat
                (start ["FOO" +:+ nl; "BAR" +:+ nl]) in
     (forall l, m_instance_ptr (statics w) = Some l ->
                Value l (statics w) = Some ("BAR" +:+ nl))
     /\ (forall i r, threads w !! i = Some (returned r) ->
           exists l, r = Some l /\ Value l (statics w) = Some ("BAR" +:+ nl)).
Proof.
  split; [reflexivity |].
  apply (first_to_lock_decides_the_value ["FOO" +:+ nl; "BAR" +:+ nl] 1 ("BAR" +:+ nl)).
  reflexivity.
Defined.

End SingletonWinnerProofs.

Module SingletonProgramProofs.
Import Singleton SingletonThreadProofs.

Lemma thread_step_project (t : nat) (tp tp' : thread_pc) (s s' : Statics)
    (out out' : list string) :
  thread_step t tp s out = Some (tp', s', out') ->
  step t (project tp) s = Some (project tp', s')
  \/ (project tp' = project tp /\ s' = s).
Proof.
  destruct tp as [v|p|r|r|r]; cbn.
  - intros [= <- <- <-]. by right.
  - destruct p as [v|v|v| |r|r]; cbn;
      try (destruct (m_mutex s); [done |]);
      try (destruct (m_instance_ptr s));
      intros [= <- <- <-]; (by left) || (by right).
  - destruct r as [l|]; [| done]. cbn. destruct (Value l s); [| done]. cbn.
    intros [= <- <- <-]. by right.
  - intros [= <- <- <-]. by right.
  - done.
Qed.

Lemma project_insert (ts : list thread_pc) (t : nat) (tp : thread_pc) :
  project <$> <[t := tp]> ts = <[t := project tp]> (project <$> ts).
Proof. apply list_fmap_insert. Qed.

Lemma project_lookup (ts : list thread_pc) (t : nat) (tp : thread_pc) :
  ts !! t = Some tp -> (project <$> ts) !! t = Some (project tp).
Proof. intros H. by rewrite list_lookup_fmap, H. Qed.

Lemma world_invariant_step (w : Program) (t : nat) (tp tp' : thread_pc)
    (s' : Statics) (out' : list string) :
  invariant (project_program w) ->
  running w !! t = Some tp ->
  thread_step t tp (program_statics w) (cout w) = Some (tp', s', out') ->
  invariant (project_program
               {| program_statics := s'; running := <[t := tp']> (running w); cout := out' |}).
Proof.
  intros Hinv Ht Hstep. unfold project_program. cbn [program_statics running].
  rewrite project_insert.
  destruct (thread_step_project _ _ _ _ _ _ _ Hstep) as [Hs|[Hp ->]].
  - apply (step_preserves_invariant (project_program w) t (project tp)); [done | | done].
    by apply project_lookup.
  - rewrite Hp, list_insert_id by (by apply project_lookup). exact Hinv.
Qed.

Lemma concat_printed_insert (v : string) (ts : list thread_pc) (t : nat)
    (tp tp' : thread_pc) (extra : list string) :
  ts !! t = Some tp ->
  printed v tp' = (printed v tp ++ extra)%list ->
  List.concat (printed v <$> <[t := tp']> ts) ≡ₚ (List.concat (printed v <$> ts) ++ extra)%list.
Proof.
  revert t. induction ts as [|x ts IH]; intros [|t] Ht Hp; try done.
  - injection Ht as ->. cbn. rewrite Hp, <- !app_assoc.
    apply Permutation_app_head, Permutation_app_comm.
  - cbn in *. rewrite (IH t Ht Hp). by rewrite app_assoc.
Qed.

Lemma concat_printed_same (v v' : string) (ts : list thread_pc) :
  (forall i tp, ts !! i = Some tp -> printed v tp = printed v' tp) ->
  List.concat (printed v <$> ts) = List.concat (printed v' <$> ts).
Proof.
  induction ts as [|x ts IH]; intros H; [done |]. cbn.
  rewrite (H 0 x eq_refl), IH; [done |]. intros i tp Hi. by apply (H (S i)).
Qed.

(** No thread has printed anything while there is no instance. *)
Lemma printed_nil_without_instance (w : Program) (i : nat) (tp : thread_pc) (v : string) :
  invariant (project_program w) ->
  m_instance_ptr (program_statics w) = None ->
  running w !! i = Some tp -> printed v tp = [].
Proof.
  intros Hinv Hnull Hi.
  destruct tp as [a|p|r|r|r]; try done;
    destruct (inv_returned _ Hinv i r) as [-> [l Hl]];
    try (by apply (project_lookup _ _ _ Hi)); cbn in Hl; congruence.
Qed.

Lemma instance_value_ptr (s s' : Statics) :
  m_instance_ptr s' = m_instance_ptr s -> heap s' = heap s ->
  instance_value s' = instance_value s.
Proof. unfold instance_value, Value. by intros -> ->. Qed.

Lemma program_inv_start (values : list string) : program_inv values (program_start values).
Proof.
  split.
  - unfold project_program, program_start. cbn. rewrite <- list_fmap_compose.
    apply (invariant_start values).
  - intros i tp v Hi Hv. cbn in Hi. rewrite list_lookup_fmap in Hi.
    destruct (values !! i) as [v'|] eqn:Hv'; [| done]. injection Hi as <-.
    injection Hv as <-. by eapply list_elem_of_lookup_2.
  - done.
  - exists []. split; [done |]. cbn.
    induction values as [|v values IH]; [done | exact IH].
Qed.

Lemma program_inv_step (values : list string) (w : Program) (t : nat)
    (tp tp' : thread_pc) (s' : Statics) (out' : list string) :
  program_inv values w ->
  running w !! t = Some tp ->
  thread_step t tp (program_statics w) (cout w) = Some (tp', s', out') ->
  program_inv values
    {| program_statics := s'; running := <[t := tp']> (running w); cout := out' |}.
Proof.
  intros [Hinv Harg Hval (pieces & Hout & Hperm)] Ht Hstep.
  pose proof (world_invariant_step w t tp tp' s' out' Hinv Ht Hstep) as Hinv'.
  assert (Hlookup : forall i tp0,
            <[t := tp']> (running w) !! i = Some tp0 ->
            (i = t /\ tp0 = tp') \/ (i <> t /\ running w !! i = Some tp0)).
  { intros i tp0 Hi. destruct (decide (i = t)) as [->|Hne].
    - left. rewrite list_lookup_insert_eq in Hi by (by eapply lookup_lt_Some).
      split; congruence.
    - right. by rewrite list_lookup_insert_ne in Hi. }
  (* a step that changes neither the instance nor what thread [t] has printed *)
  assert (Hquiet : instance_value s' = instance_value (program_statics w) ->
            (forall v, printed v tp' = printed v tp) -> out' = cout w ->
            (forall v, argument_of (project tp') = Some v -> v ∈ values) ->
            program_inv values
              {| program_statics := s'; running := <[t := tp']> (running w); cout := out' |}).
  { intros Hsame Hprinted -> Hargs. split; cbn [program_statics running Singleton.cout].
    - exact Hinv'.
    - intros i tp0 v [[-> ->]|[_ Hi]]%Hlookup Hv; eauto.
    - intros v. rewrite Hsame. apply Hval.
    - exists pieces. split; [done |]. rewrite Hsame, Hperm.
      rewrite (concat_printed_insert _ _ t tp tp' [] Ht) by (by rewrite app_nil_r).
      by rewrite app_nil_r. }
  destruct tp as [a|p|r|r|r]; cbn in Hstep.
  - injection Hstep as <- <- <-. apply Hquiet; try done.
    intros v Hv. by apply (Harg t (asleep a) v).
  - destruct p as [a|a|a| |r|r]; cbn in Hstep.
    + destruct (m_mutex (program_statics w)); [done |]. injection Hstep as <- <- <-.
      apply Hquiet; try done. intros v Hv. by apply (Harg t (calling (at_lock a)) v).
    + destruct (m_instance_ptr (program_statics w)); injection Hstep as <- <- <-;
        apply Hquiet; try done.
      intros v Hv. by apply (Harg t (calling (at_check a)) v).
    + injection Hstep as <- <- <-.
      pose proof (inv_new _ Hinv t a (project_lookup _ _ _ Ht)) as Hnull.
      pose proof (inv_null _ Hinv Hnull) as Hheap. cbn in Hnull, Hheap.
      assert (Hnew : instance_value (create a (program_statics w)) = Some a).
      { unfold instance_value, Value, create. cbn. by rewrite lookup_insert_eq. }
      split; cbn [program_statics running Singleton.cout].
      * exact Hinv'.
      * intros i tp0 v [[-> ->]|[_ Hi]]%Hlookup Hv; [done | eauto].
      * intros v. rewrite Hnew. intros [= <-].
        by apply (Harg t (calling (at_new a)) a).
      * exists pieces. split; [done |]. rewrite Hperm.
        rewrite (concat_printed_insert _ _ t (calling (at_new a)) (calling at_return) [] Ht)
          by done.
        rewrite app_nil_r. apply reflexive_eq, concat_printed_same.
        intros i tp0 Hi.
        rewrite (printed_nil_without_instance w i tp0 _ Hinv Hnull Hi).
        by rewrite (printed_nil_without_instance w i tp0 _ Hinv Hnull Hi).
    + injection Hstep as <- <- <-. by apply Hquiet.
    + injection Hstep as <- <- <-. by apply Hquiet.
    + injection Hstep as <- <- <-. by apply Hquiet.
  - destruct r as [l|]; [| done]. cbn in Hstep.
    destruct (Value l (program_statics w)) as [value|] eqn:Hvalue; [| done].
    cbn in Hstep. injection Hstep as <- <- <-.
    destruct (inv_returned _ Hinv t (Some l) (project_lookup _ _ _ Ht)) as [Hptr _].
    cbn in Hptr.
    assert (Hiv : instance_value (program_statics w) = Some value).
    { unfold instance_value. rewrite <- Hptr. exact Hvalue. }
    split; cbn [program_statics running Singleton.cout].
    + exact Hinv'.
    + intros i tp0 v [[-> ->]|[_ Hi]]%Hlookup Hv; [done | eauto].
    + exact Hval.
    + exists (pieces ++ [value])%list. split; [by rewrite Hout |].
      rewrite (concat_printed_insert _ _ t (print_value (Some l)) (print_newline (Some l))
                 [value] Ht) by (cbn; by rewrite Hiv).
      by rewrite Hperm.
  - injection Hstep as <- <- <-.
    split; cbn [program_statics running Singleton.cout].
    + exact Hinv'.
    + intros i tp0 v [[-> ->]|[_ Hi]]%Hlookup Hv; [done | eauto].
    + exact Hval.
    + exists (pieces ++ [nl])%list. split; [by rewrite Hout |].
      rewrite (concat_printed_insert _ _ t (print_newline r) (finished r) [nl] Ht) by done.
      by rewrite Hperm.
  - done.
Qed.


Lemma run_program_thread_inv (values : list string) (t : nat) (w : Program) :
  program_inv values w -> program_inv values (run_program_thread t w).
Proof.
  intros Hinv. unfold run_program_thread.
  destruct (running w !! t) as [tp|] eqn:Ht; [| done].
  destruct (thread_step t tp _ _) as [[[tp' s'] out']|] eqn:Hstep; [| done].
  by eapply program_inv_step.
Qed.

Lemma run_program_snoc (schedule : list nat) (t : nat) (w : Program) :
  run_program (schedule ++ [t]) w = run_program_thread t (run_program schedule w).
Proof. unfold run_program. by rewrite foldl_app. Qed.

Lemma run_program_app (schedule rest : list nat) (w : Program) :
  run_program (schedule ++ rest) w = run_program rest (run_program schedule w).
Proof. unfold run_program. by rewrite foldl_app. Qed.

Lemma run_program_inv (values : list string) (schedule : list nat) (w : Program) :
  program_inv values w -> program_inv values (run_program schedule w).
Proof.
  intros Hinv. induction schedule as [|t schedule IH] using rev_ind; [done |].
  rewrite run_program_snoc. by apply run_program_thread_inv.
Qed.

Lemma run_program_length (schedule : list nat) (w : Program) :
  List.length (running (run_program schedule w)) = List.length (running w).
Proof.
  induction schedule as [|t schedule IH] using rev_ind; [done |].
  rewrite run_program_snoc, <- IH. unfold run_program_thread.
  destruct (running _ !! t) as [tp|]; [| done].
  destruct (thread_step t tp _ _) as [[[tp' s'] out']|]; [| done].
  cbn. by rewrite length_insert.
Qed.

(** While a thread has not finished, some thread can move: no thread
    waits for ever and no step is undefined. *)
Lemma program_no_deadlock (values : list string) (w : Program) (i : nat) (tp : thread_pc) :
  program_inv values w ->
  running w !! i = Some tp -> is_finished tp = false ->
  exists t tp0 r,
    running w !! t = Some tp0
    /\ thread_step t tp0 (program_statics w) (cout w) = Some r.
Proof.
  intros [Hinv _ _ _] Hi Hfin.
  destruct (m_mutex (program_statics w)) as [o|] eqn:Hm.
  - destruct (inv_held _ Hinv o Hm) as (q & Hq & Hcs). cbn in Hq.
    rewrite list_lookup_fmap in Hq.
    destruct (running w !! o) as [tpo|] eqn:Ho; [| done]. injection Hq as <-.
    exists o, tpo. destruct tpo as [a|p|r|r|r]; try done.
    destruct p as [a|a|a| |r|r]; try done; cbn; eauto.
    destruct (m_instance_ptr (program_statics w)); eauto.
  - exists i, tp. destruct tp as [a|p|r|r|r]; try done; cbn; eauto.
    + destruct p as [a|a|a| |r|r]; cbn; eauto;
        try (pose proof (inv_owner _ Hinv i _ (project_lookup _ _ _ Hi) eq_refl) as Ho;
             cbn in Ho; congruence).
      rewrite Hm. eauto.
    + destruct (inv_returned _ Hinv i r (project_lookup _ _ _ Hi)) as [Hr [l Hl]].
      cbn in Hr, Hl. subst r.
      destruct (inv_set _ Hinv l Hl) as [obj Hobj]. cbn in Hobj.
      rewrite Hl in Hi |- *.
      exists (print_newline (Some l), program_statics w, (cout w ++ [m_value obj])%list).
      split; [done |]. cbn.
      unfold Value. rewrite Hobj, lookup_singleton_eq. done.
Qed.

Lemma thread_step_remaining (t : nat) (tp tp' : thread_pc) (s s' : Statics)
    (out out' : list string) :
  thread_step t tp s out = Some (tp', s', out') ->
  program_remaining tp' < program_remaining tp.
Proof.
  destruct tp as [a|p|r|r|r]; cbn.
  - intros [= <- <- <-]. cbn. lia.
  - destruct p as [a|a|a| |r|r]; cbn;
      try (destruct (m_mutex s); [done |]);
      try (destruct (m_instance_ptr s));
      intros [= <- <- <-]; cbn; lia.
  - destruct r as [l|]; [| done]. cbn. destruct (Value l s); [| done]. cbn.
    intros [= <- <- <-]. cbn. lia.
  - intros [= <- <- <-]. cbn. lia.
  - done.
Qed.

Lemma program_remaining_insert (ts : list thread_pc) (t : nat) (tp tp' : thread_pc) :
  ts !! t = Some tp -> program_remaining tp' < program_remaining tp ->
  sum_list (program_remaining <$> <[t := tp']> ts) < sum_list (program_remaining <$> ts).
Proof.
  revert t. induction ts as [|q ts IH]; intros [|t] Ht Hlt; try done.
  - injection Ht as ->. cbn. lia.
  - specialize (IH t Ht Hlt).
    change (<[S t := tp']> (q :: ts)) with (q :: <[t := tp']> ts).
    rewrite !fmap_cons. cbn [sum_list sum_list_with]. lia.
Qed.

Lemma all_finished_or_not (ts : list thread_pc) :
  (forall i tp, ts !! i = Some tp -> is_finished tp = true)
  \/ (exists i tp, ts !! i = Some tp /\ is_finished tp = false).
Proof.
  induction ts as [|q ts [IH|(i & tp & Hi & Hp)]].
  - left. by intros i tp.
  - destruct (is_finished q) eqn:Hq.
    + left. intros [|i] tp Hi; [by injection Hi as <- | by eapply IH].
    + right. by exists 0, q.
  - right. by exists (S i), tp.
Qed.

Lemma program_can_complete (values : list string) (w : Program) :
  program_inv values w ->
  exists rest,
    forall i tp, running (run_program rest w) !! i = Some tp -> is_finished tp = true.
Proof.
  remember (sum_list (program_remaining <$> running w)) as n eqn:Hn. revert w Hn.
  induction n as [n IH] using lt_wf_ind. intros w -> Hinv.
  destruct (all_finished_or_not (running w)) as [Hall|(i & tp & Hi & Hp)].
  - by exists [].
  - destruct (program_no_deadlock values w i tp Hinv Hi Hp)
      as (t & tp0 & [[tp' s'] out'] & Ht & Hstep).
    assert (Hrun : run_program_thread t w
                   = {| program_statics := s'; running := <[t := tp']> (running w);
                        cout := out' |}).
    { unfold run_program_thread. by rewrite Ht, Hstep. }
    destruct (IH (sum_list (program_remaining <$> running (run_program_thread t w))))
      with (w := run_program_thread t w) as [rest Hdone].
    + rewrite Hrun. cbn [running].
      eapply program_remaining_insert; [done |]. by eapply thread_step_remaining.
    + done.
    + by apply run_program_thread_inv.
    + exists (t :: rest). exact Hdone.
Qed.

Lemma elem_of_concat {A : Type} (x : A) (ls : list (list A)) :
  x ∈ List.concat ls <-> exists l, x ∈ l /\ l ∈ ls.
Proof.
  induction ls as [|a ls IH]; cbn.
  - split; [by intros H%elem_of_nil | by intros (l & _ & H%elem_of_nil)].
  - rewrite elem_of_app, IH. split.
    + intros [H|(l & H1 & H2)]; [exists a; split; [done | by left] |].
      exists l. split; [done | by right].
    + intros (l & H1 & [->|H2]%elem_of_cons); [by left | right; eauto].
Qed.

Lemma printed_all_finished (v : string) (ts : list thread_pc) :
  (forall i tp, ts !! i = Some tp -> is_finished tp = true) ->
  List.concat (printed v <$> ts) = List.concat (replicate (List.length ts) [v; nl]).
Proof.
  induction ts as [|tp ts IH]; intros H; [done |].
  cbn. rewrite IH by (intros i tp' Hi; by apply (H (S i))).
  pose proof (H 0 tp eq_refl). by destruct tp.
Qed.

(** X17. The program under every interleaving of its threads, for any
    number of threads and any arguments.  In every state reached, what has
    been printed after the header is, up to the order, the value of the
    instance once for every thread past its first output and a newline
    for every finished thread: each value printed is the value of the one
    instance, which is the argument of one of the threads.  Every such
    state can be run on until all threads have finished, and then the
    output is the header followed by that one value and a newline per
    thread, in some order. *)
Theorem program_prints_one_value (values : list string) (schedule : list nat) :
  let w := run_program schedule (program_start values) in
  let v := default "" (instance_value (program_statics w)) in
  (exists pieces,
      cout w = header :: pieces
      /\ pieces ≡ₚ List.concat (printed v <$> running w)
      /\ forall piece, piece ∈ pieces ->
           piece = nl \/ instance_value (program_statics w) = Some piece)
  /\ (forall value, instance_value (program_statics w) = Some value -> value ∈ values)
  /\ List.length (running w) = List.length values
  /\ exists rest,
       let w' := run_program rest w in
       (forall i tp, running w' !! i = Some tp -> is_finished tp = true)
       /\ (values = [] \/ exists value, value ∈ values
                                        /\ instance_value (program_statics w') = Some value)
       /\ exists pieces',
            cout w' = header :: pieces'
            /\ pieces' ≡ₚ List.concat
                            (replicate (List.length values)
                               [default "" (instance_value (program_statics w')); nl]).
Proof.
  intros w v.
  assert (Hinv : program_inv values w) by apply run_program_inv, program_inv_start.
  assert (Hlen : forall rest, List.length (running (run_program rest w)) = List.length values).
  { intros rest. unfold w. rewrite !run_program_length. cbn. by rewrite length_fmap. }
  split; [| split; [| split]].
  - destruct (pinv_output _ _ Hinv) as (pieces & Hout & Hperm).
    exists pieces. split; [done |]. split; [done |].
    intros piece Hin. rewrite Hperm in Hin.
    apply elem_of_concat in Hin as (l & Hpiece & Hl).
    apply list_elem_of_fmap in Hl as (tp & -> & Htp).
    apply list_elem_of_lookup in Htp as [i Hi].
    assert (Hret : forall r, project tp = returned r ->
              instance_value (program_statics w) = Some v).
    { intros r Hr.
      destruct (inv_returned _ (pinv_world _ _ Hinv) i r) as [-> [l Hl]].
      { cbn. rewrite list_lookup_fmap, Hi. cbn. by rewrite Hr. }
      cbn in Hl. destruct (inv_set _ (pinv_world _ _ Hinv) l Hl) as [obj Hobj].
      cbn in Hobj. unfold v, instance_value, Value. rewrite Hl. cbn.
      rewrite Hobj, lookup_singleton_eq. done. }
    destruct tp as [a|p|r|r|r]; cbn in Hpiece;
      try (by apply elem_of_nil in Hpiece).
    + apply list_elem_of_singleton in Hpiece as ->. right. by apply (Hret r).
    + apply elem_of_cons in Hpiece as [->|Hpiece]; [right; by apply (Hret r) |].
      apply list_elem_of_singleton in Hpiece as ->. by left.
  - apply (pinv_value _ _ Hinv).
  - apply (Hlen []).
  - destruct (program_can_complete values w Hinv) as [rest Hdone].
    exists rest. cbn zeta.
    assert (Hinv' : program_inv values (run_program rest w)) by (by apply run_program_inv).
    split; [done |]. split.
    + destruct values as [|value0 values0] eqn:Hvalues; [by left |]. right.
      rewrite <- Hvalues in *.
      destruct (running (run_program rest w) !! 0) as [tp|] eqn:H0.
      * pose proof (Hdone 0 tp H0) as Hfin. destruct tp as [a|p|r|r|r]; try done.
        destruct (inv_returned _ (pinv_world _ _ Hinv') 0 r) as [-> [l Hl]].
        { cbn. by rewrite list_lookup_fmap, H0. }
        cbn in Hl. destruct (inv_set _ (pinv_world _ _ Hinv') l Hl) as [obj Hobj].
        cbn in Hobj.
        assert (Hiv : instance_value (program_statics (run_program rest w))
                      = Some (m_value obj)).
        { unfold instance_value, Value. rewrite Hl. cbn.
          by rewrite Hobj, lookup_singleton_eq. }
        exists (m_value obj). split; [| done]. by apply (pinv_value _ _ Hinv').
      * apply lookup_ge_None in H0. rewrite Hlen, Hvalues in H0. cbn in H0. lia.
    + destruct (pinv_output _ _ Hinv') as (pieces' & Hout & Hperm).
      exists pieces'. split; [done |].
      rewrite Hperm, (printed_all_finished _ _ Hdone). by rewrite Hlen.
Qed.

End SingletonProgramProofs.
